(** * go-dbus: the connection layer of [dbus.go] and the catalog of
    [introspect.go], embedded as Rocq functions, with the wire format
    that the connection relies on.

    Conventions of the embedding.
    - A Go [string] is a Rocq [string] (a sequence of bytes).
    - A Go function that can panic, or block for ever on a channel, returns
      an [outcome]: [Returns a], [Blocks] or [Panics reason].
    - A nil pointer or nil interface value is [None].
    - Go maps are [gmap]s; a nil map is identified with the empty map.
    - Functions of the files [message.go], [marshall.go], [matchrule.go]
      and [auth.go], and of Go's library ([net], [os], [xml]), are taken
      as parameters of the sections that use them; the wire format of
      [marshall.go] is modelled apart, in [Codec]. *)

From Stdlib Require Import ZArith List Ascii String Lia Bool.
From stdpp Require Import gmap strings list fin_maps.

Set Warnings "-register-all".

Open Scope string_scope.
Open Scope Z_scope.

(** ** Outcomes of a Go call *)

Inductive outcome (A : Type) : Type :=
| Returns (a : A)
| Blocks
| Panics (reason : string).

Arguments Returns {A} a.
Arguments Blocks {A}.
Arguments Panics {A} reason.

#[global] Instance outcome_ret : MRet outcome := @Returns.
#[global] Instance outcome_bind : MBind outcome :=
  fun A B k o =>
    match o with
    | Returns a => k a
    | Blocks => Blocks
    | Panics reason => Panics reason
    end.

(** A Go [error] value; [None] is the nil error. *)
Definition error : Type := string.

(** ** Go's [strings] package, for the one-byte separators that dbus.go uses *)

Module strings.

(** [strings.Index(s, sep)] for a one-byte [sep]: the position of the
    first occurrence, or -1. *)
Fixpoint Index (s : string) (sep : ascii) : Z :=
  match s with
  | EmptyString => -1
  | String c rest =>
      if Ascii.eqb c sep then 0
      else let i := Index rest sep in
           if i <? 0 then -1 else i + 1
  end.

(** [strings.Split(s, sep)] for a one-byte [sep]: every piece between
    separators, so the result always has at least one element. *)
Fixpoint Split (s : string) (sep : ascii) : list string :=
  match s with
  | EmptyString => [EmptyString]
  | String c rest =>
      if Ascii.eqb c sep then EmptyString :: Split rest sep
      else match Split rest sep with
           | piece :: pieces => String c piece :: pieces
           | [] => [String c EmptyString]
           end
  end.

(** [strings.ToUpper] on the ASCII letters. *)
Definition upper_byte (c : ascii) : ascii :=
  let n := nat_of_ascii c in
  if ((97 <=? n) && (n <=? 122))%nat then ascii_of_nat (n - 32) else c.

Fixpoint ToUpper (s : string) : string :=
  match s with
  | EmptyString => EmptyString
  | String c rest => String (upper_byte c) (ToUpper rest)
  end.

End strings.

(** [s[:hi]]: a slice expression panics when the bound is out of range. *)
Definition slice_to (s : string) (hi : Z) : outcome string :=
  if (hi <? 0) || (Z.of_nat (String.length s) <? hi)
  then Panics "slice bounds out of range"
  else Returns (substring 0 (Z.to_nat hi) s).

(** [s[lo:]]. *)
Definition slice_from (s : string) (lo : Z) : outcome string :=
  if (lo <? 0) || (Z.of_nat (String.length s) <? lo)
  then Panics "slice bounds out of range"
  else Returns (substring (Z.to_nat lo) (String.length s - Z.to_nat lo) s).

(** [xs[i]] on a slice. *)
Definition index {A : Type} (xs : list A) (i : nat) : outcome A :=
  match nth_error xs i with
  | Some x => Returns x
  | None => Panics "index out of range"
  end.

(** ** introspect.go: the catalog of an object's interfaces *)

Record annotationData := { annotation_Name : string; annotation_Value : string }.

Record argData := { arg_Name : string; arg_Type : string; arg_Direction : string }.

Record methodData := {
  method_Name : string;
  method_Arg : list argData;
  method_Annotation : annotationData
}.

Record signalData := { signal_Name : string; signal_Arg : list argData }.

Record xmlInterfaceData := {
  xml_Name : string;
  xml_Method : list methodData;
  xml_Signal : list signalData
}.

Record interfaceData := {
  iface_Name : string;
  Methods : list methodData;
  Signals : list signalData
}.

Inductive introspect : Type :=
| mk_introspect (Name : string) (Interfaces : list xmlInterfaceData)
                (Nodes : list introspect).

Definition Interfaces (p : introspect) : list xmlInterfaceData :=
  match p with mk_introspect _ ifaces _ => ifaces end.

Module methodData_.

Definition GetName (p : methodData) : string := method_Name p.

Fixpoint signature_of (direction : string) (args : list argData) : string :=
  match args with
  | [] => EmptyString
  | v :: rest =>
      if String.eqb (strings.ToUpper (arg_Direction v)) direction
      then arg_Type v ++ signature_of direction rest
      else signature_of direction rest
  end.

Definition GetInSignature (p : methodData) : string :=
  signature_of "IN" (method_Arg p).

Definition GetOutSignature (p : methodData) : string :=
  signature_of "OUT" (method_Arg p).

End methodData_.

Module signalData_.

Definition GetName (p : signalData) : string := signal_Name p.

Fixpoint GetSignature_args (args : list argData) : string :=
  match args with
  | [] => EmptyString
  | v :: rest => arg_Type v ++ GetSignature_args rest
  end.

Definition GetSignature (p : signalData) : string :=
  GetSignature_args (signal_Arg p).

End signalData_.

Module interfaceData_.

Definition GetName (p : interfaceData) : string := iface_Name p.

Definition NumMethod (p : interfaceData) : Z := Z.of_nat (length (Methods p)).

(** The loop of [GetMethodData]: the first method of that name, or nil. *)
Fixpoint find_method (name : string) (ms : list methodData) : option methodData :=
  match ms with
  | [] => None
  | v :: rest =>
      if String.eqb (methodData_.GetName v) name then Some v
      else find_method name rest
  end.

Definition GetMethodData (p : interfaceData) (name : string) : option methodData :=
  find_method name (Methods p).

Definition MethodByName (p : interfaceData) (name : string) : option methodData :=
  GetMethodData p name.

Definition NumSignal (p : interfaceData) : Z := Z.of_nat (length (Signals p)).

Fixpoint find_signal (name : string) (ss : list signalData) : option signalData :=
  match ss with
  | [] => None
  | v :: rest =>
      if String.eqb (signalData_.GetName v) name then Some v
      else find_signal name rest
  end.

Definition GetSignalData (p : interfaceData) (name : string) : option signalData :=
  find_signal name (Signals p).

Definition SignalByName (p : interfaceData) (name : string) : option signalData :=
  GetSignalData p name.

End interfaceData_.

Module introspect_.

Fixpoint find_interface (name : string) (vs : list xmlInterfaceData)
  : option interfaceData :=
  match vs with
  | [] => None
  | v :: rest =>
      if String.eqb (xml_Name v) name
      then Some {| iface_Name := xml_Name v; Methods := xml_Method v;
                   Signals := xml_Signal v |}
      else find_interface name rest
  end.

Definition GetInterfaceData (p : introspect) (name : string) : option interfaceData :=
  find_interface name (Interfaces p).

End introspect_.

(** ** dbus.go: objects, interfaces, method and signal handles *)

Record Object := {
  dest : string;
  path : string;
  obj_intro : option introspect
}.

(** [_interface]; [iface_intro] is nil when the catalog lacks the interface. *)
Record _interface := {
  obj : option Object;
  name : string;
  iface_intro : option interfaceData
}.

(** The handles [*method] and [*signal] behind [Method] and [Signal]. *)
Record method := { method_iface : _interface; MethodIntrospect : methodData }.

Record signal := { signal_iface : _interface; SignalIntrospect : signalData }.

Module _interface_.

Definition GetName (iface : _interface) : string := name iface.

Definition MethodByName (iface : _interface) (name : string)
  : outcome (option method) :=
  match iface_intro iface with
  | None => Panics "invalid memory address or nil pointer dereference"
  | Some intro =>
      match interfaceData_.MethodByName intro name with
      | None => Panics "invalid method"
      | Some data =>
          Returns (Some {| method_iface := iface; MethodIntrospect := data |})
      end
  end.

Definition SignalByName (iface : _interface) (name : string)
  : outcome (option signal) :=
  match iface_intro iface with
  | None => Panics "invalid memory address or nil pointer dereference"
  | Some intro =>
      match interfaceData_.SignalByName intro name with
      | None => Panics "invalid signal"
      | Some data =>
          Returns (Some {| signal_iface := iface; SignalIntrospect := data |})
      end
  end.

End _interface_.

(** The introspection data of [iface] contains a method called [name]. *)
Definition has_method (iface : _interface) (name : string) : Prop :=
  exists intro data,
    iface_intro iface = Some intro /\ In data (Methods intro) /\
    method_Name data = name.

Definition has_signal (iface : _interface) (name : string) : Prop :=
  exists intro data,
    iface_intro iface = Some intro /\ In data (Signals intro) /\
    signal_Name data = name.

(** ** The D-Bus type system *)

(** Modelled from the spec: the argument types of section 3 ("variant-like
    union: byte, boolean, 16/32/64-bit signed/unsigned integers, double,
    string, object-path, signature, array-of-T, struct, dict-entry,
    variant"); their Go declarations are in marshall.go and message.go. *)
Inductive ty : Type :=
| TByte | TBoolean
| TInt16 | TUint16 | TInt32 | TUint32 | TInt64 | TUint64
| TDouble
| TString | TObjectPath | TSignature
| TArray (elem : ty)
| TStruct (fields : list ty)
| TDictEntry (key value : ty)
| TVariant.

(** Modelled from the spec: one value of the argument list, an element of
    Go's [[]interface{}]. Integers are [Z], a double is its 64-bit
    pattern, a variant carries the type of what it holds. *)
Inductive Value : Type :=
| VByte (n : Z) | VBoolean (b : bool)
| VInt16 (n : Z) | VUint16 (n : Z)
| VInt32 (n : Z) | VUint32 (n : Z)
| VInt64 (n : Z) | VUint64 (n : Z)
| VDouble (bits : Z)
| VString (s : string) | VObjectPath (s : string) | VSignature (s : string)
| VArray (elem : ty) (items : list Value)
| VStruct (fields : list Value)
| VDictEntry (key value : Value)
| VVariant (t : ty) (v : Value).

(** ** message.go: the message a connection sends and receives *)

(** Modelled from the spec: "message_type: enum METHOD_CALL, METHOD_RETURN,
    ERROR, SIGNAL"; the constants are declared in message.go. The type is
    a Go integer, so a message can carry another code. *)
Inductive MessageType : Type :=
| METHOD_CALL | METHOD_RETURN | ERROR | SIGNAL
| OTHER_TYPE (code : Z).

(** Modelled from the spec: the [Message] struct of message.go, with the
    fields that dbus.go reads and writes. [Type_] is the Go field [Type]. *)
Record Message := {
  Type_ : MessageType;
  serial : Z;
  replySerial : Z;
  Path : string;
  Dest : string;
  Iface : string;
  Member : string;
  Sender : string;
  Sig : string;
  Params : list Value
}.

(** The conversion [uint32(x)]. *)
Definition uint32 (x : Z) : Z := x mod 2 ^ 32.

Abbreviation byte := Byte.byte.

(** ** The socket *)

(** The [net.Conn] of a connection: where it was dialed and the bytes
    written to it so far. *)
Record NetConn := {
  network : string;
  address : string;
  written : list byte
}.

(** [conn.Write(buff)] when the transport accepts the first [n] bytes. *)
Definition conn_Write (c : NetConn) (buff : list byte) (n : nat) : NetConn :=
  {| network := network c; address := address c;
     written := (written c ++ firstn n buff)%list |}.

(** ** What dbus.go takes from the rest of the package and from Go's library *)

Class Externals := {
  (** matchrule.go: the rule type, [MatchRule._Match] and [_ToString] *)
  MatchRule : Type;
  _Match : MatchRule -> Message -> bool;
  _ToString : MatchRule -> string;
  (** marshall.go: [Message._Marshal] and [_Unmarshal] *)
  _Marshal : Message -> list byte * option error;
  _Unmarshal : list byte -> option Message * Z * option error;
  (** auth.go: [authState.Authenticate] with the EXTERNAL mechanism,
      as the bytes it leaves written on the socket and its result *)
  Authenticate : NetConn -> NetConn * option error;
  (** encoding/xml: [xml.Unmarshal] into an introspect value *)
  xml_Unmarshal : string -> introspect * option error;
  (** the text of the constant [dbusXMLIntro] *)
  dbusXMLIntro : string
}.

(** introspect.go, [NewIntrospect]. *)
Definition NewIntrospect `{Externals} (xmlIntro : string)
  : option introspect * option error :=
  let '(intro, err) := xml_Unmarshal xmlIntro in
  match err with
  | Some e => (None, Some e)
  | None => (Some intro, None)
  end.

(** ** The connection and the memory around it *)

Section Model.

Context `{Ext : Externals}.

(** [U] is the memory of the goroutines that use the connection: the
    variables that their callbacks capture and their channels. A callback
    of Go type [func (msg *Message)] reads and writes that memory, and may panic or
    block. *)
Context {U : Type}.

Local Abbreviation callback := (Message -> U -> outcome U).

(** A variable of type [A] that lives in [U]. *)
Record Var (A : Type) := { load : U -> A; store : A -> U -> U }.
Arguments load {A} v u.
Arguments store {A} v a u.

Record signalHandler := { mr : MatchRule; proc : callback }.

Record Connection := {
  addressMap : gmap string string;
  uniqName : string;
  methodCallReplies : gmap Z callback;
  signalMatchRules : list signalHandler;
  conn : option NetConn;
  buffer : list byte;
  proxy : option _interface
}.

(** The process: the connection, the callers' memory, standard output. *)
Record World := { this : Connection; mem : U; stdout : list string }.

(** *** Assignments to the fields *)

Definition set_methodCallReplies (f : gmap Z callback -> gmap Z callback)
    (p : Connection) : Connection :=
  {| addressMap := addressMap p; uniqName := uniqName p;
     methodCallReplies := f (methodCallReplies p);
     signalMatchRules := signalMatchRules p; conn := conn p;
     buffer := buffer p; proxy := proxy p |}.

Definition set_signalMatchRules (f : list signalHandler -> list signalHandler)
    (p : Connection) : Connection :=
  {| addressMap := addressMap p; uniqName := uniqName p;
     methodCallReplies := methodCallReplies p;
     signalMatchRules := f (signalMatchRules p); conn := conn p;
     buffer := buffer p; proxy := proxy p |}.

Definition set_conn (c : option NetConn) (p : Connection) : Connection :=
  {| addressMap := addressMap p; uniqName := uniqName p;
     methodCallReplies := methodCallReplies p;
     signalMatchRules := signalMatchRules p; conn := c;
     buffer := buffer p; proxy := proxy p |}.

Definition set_buffer (f : list byte -> list byte) (p : Connection) : Connection :=
  {| addressMap := addressMap p; uniqName := uniqName p;
     methodCallReplies := methodCallReplies p;
     signalMatchRules := signalMatchRules p; conn := conn p;
     buffer := f (buffer p); proxy := proxy p |}.

Definition set_proxy (i : option _interface) (p : Connection) : Connection :=
  {| addressMap := addressMap p; uniqName := uniqName p;
     methodCallReplies := methodCallReplies p;
     signalMatchRules := signalMatchRules p; conn := conn p;
     buffer := buffer p; proxy := i |}.

Definition on_this (f : Connection -> Connection) (w : World) : World :=
  {| this := f (this w); mem := mem w; stdout := stdout w |}.

Definition on_mem (f : U -> U) (w : World) : World :=
  {| this := this w; mem := f (mem w); stdout := stdout w |}.

(** [fmt.Println(s)]. *)
Definition Println (s : string) (w : World) : World :=
  {| this := this w; mem := mem w; stdout := (stdout w ++ [s])%list |}.

(** *** Computations: an outcome, the world it leaves, and the worlds
    passed through on the way, one per effect, oldest first *)

Record run (A : Type) := {
  result : outcome A;
  final : World;
  history : list World
}.
Arguments result {A} r.
Arguments final {A} r.
Arguments history {A} r.

Definition M (A : Type) : Type := World -> run A.

Definition ret {A : Type} (a : A) : M A :=
  fun w => {| result := Returns a; final := w; history := [] |}.

Definition panic {A : Type} (reason : string) : M A :=
  fun w => {| result := Panics reason; final := w; history := [] |}.

Definition block {A : Type} : M A :=
  fun w => {| result := Blocks; final := w; history := [] |}.

Definition bind {A B : Type} (m : M A) (k : A -> M B) : M B :=
  fun w =>
    let r := m w in
    match result r with
    | Returns a =>
        let r' := k a (final r) in
        {| result := result r'; final := final r';
           history := (history r ++ history r')%list |}
    | Blocks => {| result := Blocks; final := final r; history := history r |}
    | Panics reason =>
        {| result := Panics reason; final := final r; history := history r |}
    end.

(** One effect on the world. *)
Definition step (f : World -> World) : M unit :=
  fun w => {| result := Returns tt; final := f w; history := [f w] |}.

Definition get : M World :=
  fun w => {| result := Returns w; final := w; history := [] |}.

Definition lift {A : Type} (o : outcome A) : M A :=
  match o with
  | Returns a => ret a
  | Blocks => block
  | Panics reason => panic reason
  end.

(** The call [f(msg)] of a callback. *)
Definition invoke (f : callback) (msg : Message) : M unit :=
  fun w =>
    match f msg (mem w) with
    | Returns u => step (on_mem (fun _ => u)) w
    | Blocks => block w
    | Panics reason => panic reason w
    end.

(** [keeps P m]: from a world where [P] holds, [m] passes only through
    worlds where [P] holds. *)
Definition keeps {A : Type} (P : World -> Prop) (m : M A) : Prop :=
  forall w, P w -> P (final (m w)) /\ Forall P (history (m w)).

(** A property of the connection alone. *)
Definition of_this (Q : Connection -> Prop) : World -> Prop :=
  fun w => Q (this w).

End Model.

Arguments load {U A} v u.
Arguments store {U A} v a u.
Arguments result {Ext U A} r.
Arguments final {Ext U A} r.
Arguments history {Ext U A} r.
Arguments Connection {Ext} U.
Arguments World {Ext} U.
Arguments signalHandler {Ext} U.
Arguments M {Ext} U A.

Abbreviation callback U := (Message -> U -> outcome U).

#[global] Instance M_ret `{Externals} {U : Type} : MRet (M U) := @ret _ U.
#[global] Instance M_bind `{Externals} {U : Type} : MBind (M U) :=
  fun A B k m => bind m k.

(** ** dbus.go: the operations of a connection *)

(** What one call of [Call], [Emit] or [_SendSync] meets outside the
    connection: the message [NewMessage()] hands out (message.go), the
    result [(n, err)] of its [conn.Write], and the messages that the run
    loop receives from [msgChan], in order, while the caller waits. *)
Record CallEnv := {
  NewMessage : Message;
  Write_n : nat;
  Write_err : option error;
  msgChan : list (option Message)
}.

Section Operations.

Context `{Ext : Externals} {U : Type}.

(** Where the local variables captured by the closures of [Call],
    [_GetIntrospect] and [_SendSync] live. *)
Record Frame := {
  ret_var : Var (U:=U) (list Value);
  intro_var : Var (U:=U) (option introspect);
  recvChan : Var (U:=U) (list Z)
}.

(** *** The dispatcher *)

(** The [range] loop over [p.signalMatchRules]. *)
Fixpoint range_signalMatchRules (handlers : list (signalHandler U))
    (msg : Message) : M U unit :=
  match handlers with
  | [] => mret tt
  | handler :: rest =>
      (if _Match (mr handler) msg then invoke (proc handler) msg else mret tt) ;;
      range_signalMatchRules rest msg
  end.

Definition _MessageDispatch (msg : option Message) : M U unit :=
  match msg with
  | None => mret tt
  | Some m =>
      match Type_ m with
      | METHOD_RETURN =>
          let rs := replySerial m in
          w ← get;
          match methodCallReplies (this w) !! rs with
          | Some replyFunc =>
              invoke replyFunc m ;;
              step (on_this (set_methodCallReplies (delete rs)))
          | None => mret tt
          end
      | SIGNAL =>
          w ← get;
          range_signalMatchRules (signalMatchRules (this w)) m
      | ERROR => step (Println "ERROR")
      | _ => mret tt
      end
  end.

(** *** The receive side *)

Definition _PopMessage : M U (option Message * option error) :=
  w ← get;
  let '(msg, n, err) := _Unmarshal (buffer (this w)) in
  match err with
  | Some e => mret (None, Some e)
  | None =>
      if n <? 0 then panic "makeslice: len out of range"
      else
        step (on_this (set_buffer (drop (Z.to_nat n)))) ;;
        mret (msg, None)
  end.

(** [_UpdateBuffer], when [p.conn.Read] delivers [data] and [e]; the
    read buffer has room for 4096 bytes. *)
Definition _UpdateBuffer (data : list byte) (e : option error)
  : M U (option error) :=
  let buff := firstn 4096 data in
  step (on_this (set_buffer (fun b => (b ++ buff)%list))) ;;
  mret e.

(** One turn of the loop of [_MessageReceiver]: the message it sends on
    [msgChan], if any. [read] is what [p.conn.Read] delivers if asked. *)
Definition _MessageReceiver_turn (read : list byte * option error)
  : M U (option (option Message)) :=
  '(msg, e) ← _PopMessage;
  match e with
  | None => mret (Some msg)
  | Some _ => _UpdateBuffer (fst read) (snd read) ;; mret None
  end.

(** [_RunLoop] on the messages that arrive on [msgChan]; it then waits
    for the next one. *)
Fixpoint _RunLoop (incoming : list (option Message)) : M U unit :=
  match incoming with
  | [] => block
  | msg :: rest => _MessageDispatch msg ;; _RunLoop rest
  end.

(** *** Synchronous calls *)

(** [ch <- x] and [<-ch] on [recvChan]; the receiver waits while the run
    loop dispatches what arrives, until a value has been sent. *)
Definition chan_send (ch : Var (U:=U) (list Z)) (x : Z) (u : U) : U :=
  store ch (load ch u ++ [x])%list u.

Fixpoint chan_recv (ch : Var (U:=U) (list Z)) (incoming : list (option Message))
  : M U Z :=
  fun w =>
    match load ch (mem w) with
    | x :: queue => (step (on_mem (store ch queue)) ;; mret x) w
    | [] =>
        match incoming with
        | [] => block w
        | msg :: rest => (_MessageDispatch msg ;; chan_recv ch rest) w
        end
    end.

Definition conn_write (buff : list byte) (env : CallEnv)
  : M U (Z * option error) :=
  w ← get;
  match conn (this w) with
  | None => panic "invalid memory address or nil pointer dereference"
  | Some c =>
      step (on_this (set_conn (Some (conn_Write c buff (Write_n env))))) ;;
      mret (Z.of_nat (Write_n env), Write_err env)
  end.

Definition _SendSync (msg : Message) (callback : callback U)
    (fr : Frame) (env : CallEnv) : M U (option error) :=
  let seri := uint32 (serial msg) in
  step (on_mem (store (recvChan fr) [])) ;;
  step (on_this (set_methodCallReplies
    (insert seri (fun rmsg u =>
       match callback rmsg u with
       | Returns u' => Returns (chan_send (recvChan fr) 0 u')
       | other => other
       end)))) ;;
  let '(buff, _) := _Marshal msg in
  conn_write buff env ;;
  chan_recv (recvChan fr) (msgChan env) ;;
  mret None.

Definition _GetProxy : outcome _interface :=
  let intro := fst (NewIntrospect dbusXMLIntro) in
  let obj := {| dest := "org.freedesktop.DBus";
                path := "/org/freedesktop/DBus";
                obj_intro := intro |} in
  match intro with
  | None => Panics "invalid memory address or nil pointer dereference"
  | Some i =>
      Returns {| obj := Some obj; name := "org.freedesktop.DBus";
                 iface_intro :=
                   introspect_.GetInterfaceData i "org.freedesktop.DBus" |}
  end.

Definition with_call_header (msg : Message) (t : MessageType) (o : Object)
    (iface : _interface) (member sig : string) : Message :=
  {| Type_ := t; serial := serial msg; replySerial := replySerial msg;
     Path := path o; Dest := dest o; Iface := _interface_.GetName iface;
     Member := member; Sender := Sender msg; Sig := sig;
     Params := Params msg |}.

Definition with_Params (msg : Message) (args : list Value) : Message :=
  {| Type_ := Type_ msg; serial := serial msg; replySerial := replySerial msg;
     Path := Path msg; Dest := Dest msg; Iface := Iface msg;
     Member := Member msg; Sender := Sender msg; Sig := Sig msg;
     Params := args |}.

Definition Call (method : option method) (args : list Value)
    (fr : Frame) (env : CallEnv) : M U (list Value * option error) :=
  match method with
  | None => panic "invalid memory address or nil pointer dereference"
  | Some m =>
      let iface := method_iface m in
      let data := MethodIntrospect m in
      let msg := NewMessage env in
      match obj iface with
      | None => panic "invalid memory address or nil pointer dereference"
      | Some o =>
          let msg := with_call_header msg METHOD_CALL o iface
                       (methodData_.GetName data)
                       (methodData_.GetInSignature data) in
          let msg := if (0 <? length args)%nat then with_Params msg args
                     else msg in
          step (on_mem (store (ret_var fr) [])) ;;
          _SendSync msg
            (fun reply u => Returns (store (ret_var fr) (Params reply) u))
            fr env ;;
          w ← get;
          mret (load (ret_var fr) (mem w), None)
      end
  end.

(** [p.proxy.MethodByName(name)]. *)
Definition proxy_MethodByName (name : string) : M U (option method) :=
  w ← get;
  match proxy (this w) with
  | None => panic "invalid memory address or nil pointer dereference"
  | Some iface => lift (_interface_.MethodByName iface name)
  end.

Definition _SendHello (fr : Frame) (env : CallEnv) : M U unit :=
  hello ← proxy_MethodByName "Hello";
  Call hello [] fr env ;;
  mret tt.

Definition _Auth : M U (option error) :=
  w ← get;
  match conn (this w) with
  | None => panic "invalid memory address or nil pointer dereference"
  | Some c =>
      let '(c', err) := Authenticate c in
      step (on_this (set_conn (Some c'))) ;;
      mret err
  end.

(** [Initialize]; [go p._RunLoop()] starts the dispatches that
    [chan_recv] lets through. *)
Definition Initialize (fr : Frame) (env : CallEnv) : M U (option error) :=
  step (on_this (set_methodCallReplies (fun _ => ∅))) ;;
  step (on_this (set_signalMatchRules (fun _ => []))) ;;
  iface ← lift _GetProxy;
  step (on_this (set_proxy (Some iface))) ;;
  step (on_this (set_buffer (fun _ => []))) ;;
  err ← _Auth;
  match err with
  | Some e => mret (Some e)
  | None => _SendHello fr env ;; mret None
  end.

Definition Emit (signal : option signal) (args : list Value) (env : CallEnv)
  : M U (option error) :=
  match signal with
  | None => panic "invalid memory address or nil pointer dereference"
  | Some s =>
      let iface := signal_iface s in
      let data := SignalIntrospect s in
      let msg := NewMessage env in
      match obj iface with
      | None => panic "invalid memory address or nil pointer dereference"
      | Some o =>
          let msg := with_call_header msg SIGNAL o iface
                       (signalData_.GetName data)
                       (signalData_.GetSignature data) in
          let msg := with_Params msg args in
          let '(buff, _) := _Marshal msg in
          '(_, err) ← conn_write buff env;
          mret err
      end
  end.

Definition _GetIntrospect (dest path : string) (fr : Frame) (env : CallEnv)
  : M U (option introspect) :=
  let msg := NewMessage env in
  let msg := {| Type_ := METHOD_CALL; serial := serial msg;
                replySerial := replySerial msg; Path := path; Dest := dest;
                Iface := "org.freedesktop.DBus.Introspectable";
                Member := "Introspect"; Sender := Sender msg;
                Sig := Sig msg; Params := Params msg |} in
  step (on_mem (store (intro_var fr) None)) ;;
  _SendSync msg
    (fun reply u =>
       match Params reply with
       | [] => Panics "index out of range"
       | VString v :: _ =>
           match NewIntrospect v with
           | (Some i, None) => Returns (store (intro_var fr) (Some i) u)
           | _ => Returns u
           end
       | _ :: _ => Returns u
       end)
    fr env ;;
  w ← get;
  mret (load (intro_var fr) (mem w)).

(** [Connection.Object]. *)
Definition Connection_Object (dest path : string) (fr : Frame) (env : CallEnv)
  : M U Object :=
  intro ← _GetIntrospect dest path fr env;
  mret {| dest := dest; path := path; obj_intro := intro |}.

Definition Handle (rule : option MatchRule) (handler : callback U)
    (fr : Frame) (env : CallEnv) : M U unit :=
  match rule with
  | None => panic "invalid memory address or nil pointer dereference"
  | Some r =>
      step (on_this (set_signalMatchRules
        (fun rules => (rules ++ [ {| mr := r; proc := handler |} ])%list))) ;;
      addMatch ← proxy_MethodByName "AddMatch";
      Call addMatch [VString (_ToString r)] fr env ;;
      mret tt
  end.

(** The calls [f(msg)] of the callbacks [fs], one after the other. *)
Fixpoint invoke_all (fs : list (callback U)) (msg : Message) : M U unit :=
  match fs with
  | [] => mret tt
  | f :: rest => invoke f msg ;; invoke_all rest msg
  end.

(** The handlers whose rule matches [msg], in the order of the list. *)
Definition matching (msg : Message) (handlers : list (signalHandler U))
  : list (signalHandler U) :=
  List.filter (fun handler => _Match (mr handler) msg) handlers.

(** *** Everything a program and the run loop can do with a connection *)

Inductive operation : Type :=
| DoInitialize (fr : Frame) (env : CallEnv)
| DoCall (method : option method) (args : list Value) (fr : Frame)
         (env : CallEnv)
| DoEmit (signal : option signal) (args : list Value) (env : CallEnv)
| DoObject (dest path : string) (fr : Frame) (env : CallEnv)
| DoHandle (rule : option MatchRule) (handler : callback U) (fr : Frame)
           (env : CallEnv)
| DoMessageDispatch (msg : option Message)
| DoPopMessage
| DoUpdateBuffer (data : list byte) (e : option error)
| DoMessageReceiver_turn (read : list byte * option error)
| DoRunLoop (incoming : list (option Message)).

Definition perform (op : operation) : M U unit :=
  match op with
  | DoInitialize fr env => Initialize fr env ;; mret tt
  | DoCall method args fr env => Call method args fr env ;; mret tt
  | DoEmit signal args env => Emit signal args env ;; mret tt
  | DoObject dest path fr env => Connection_Object dest path fr env ;; mret tt
  | DoHandle rule handler fr env => Handle rule handler fr env
  | DoMessageDispatch msg => _MessageDispatch msg
  | DoPopMessage => _PopMessage ;; mret tt
  | DoUpdateBuffer data e => _UpdateBuffer data e ;; mret tt
  | DoMessageReceiver_turn read => _MessageReceiver_turn read ;; mret tt
  | DoRunLoop incoming => _RunLoop incoming
  end.

(** The operations [ops] one after the other, each from the world the
    previous one left, whether it returned or not. *)
Fixpoint perform_all (ops : list operation) (w : World U) : list (World U) :=
  match ops with
  | [] => []
  | op :: rest =>
      let r := perform op w in
      (history r ++ final r :: perform_all rest (final r))%list
  end.

(** The unique name of the connection is [s]. *)
Definition named (s : string) : World U -> Prop :=
  of_this (fun p => uniqName p = s).

End Operations.

(** ** dbus.go: [Connect] *)

Definition SessionBus : Z := 0.
Definition SystemBus : Z := 1.

(** [os.Getenv]: the value of the variable, empty when it is not set. *)
Definition os_Getenv (environ : gmap string string) (key : string) : string :=
  default "" (environ !! key).

(** [net.Dial(network, address)], given whether the dial fails. *)
Definition net_Dial (dial_err : string -> string -> option error)
    (network address : string) : option NetConn * option error :=
  match dial_err network address with
  | Some e => (None, Some e)
  | None =>
      (Some {| network := network; address := address; written := [] |}, None)
  end.

(** The loop that fills [bus.addressMap] from the [key=value] pairs. *)
Fixpoint fill_addressMap (pairs : list string) (m : gmap string string)
  : outcome (gmap string string) :=
  match pairs with
  | [] => Returns m
  | kv :: rest =>
      let kv := strings.Split kv "=" in
      key ← index kv 0;
      value ← index kv 1;
      fill_addressMap rest (<[key := value]> m)
  end.

Section Connect.

Context `{Ext : Externals} {U : Type}.

(** [new(Connection)]. *)
Definition new_Connection : Connection U :=
  {| addressMap := ∅; uniqName := ""; methodCallReplies := ∅;
     signalMatchRules := []; conn := None; buffer := []; proxy := None |}.

Definition set_addressMap (m : gmap string string) (p : Connection U)
  : Connection U :=
  {| addressMap := m; uniqName := uniqName p;
     methodCallReplies := methodCallReplies p;
     signalMatchRules := signalMatchRules p; conn := conn p;
     buffer := buffer p; proxy := proxy p |}.

(** The [switch busType]: the address, or nil for an unknown bus. *)
Definition bus_address (environ : gmap string string) (busType : Z)
  : option string :=
  if busType =? SessionBus then
    Some (os_Getenv environ "DBUS_SESSION_BUS_ADDRESS")
  else if busType =? SystemBus then
    let address := os_Getenv environ "DBUS_SYSTEM_BUS_ADDRESS" in
    if (String.length address =? 0)%nat
    then Some "unix:path=/var/run/dbus/system_bus_socket"
    else Some address
  else None.

Definition Connect (environ : gmap string string)
    (dial_err : string -> string -> option error) (busType : Z)
  : outcome (option (Connection U) * option error) :=
  match bus_address environ busType with
  | None => Returns (None, Some "Unknown bus")
  | Some address =>
      if (String.length address =? 0)%nat
      then Returns (None, Some "Unknown bus address")
      else
        transport ← slice_to address (strings.Index address ":");
        pairs ← slice_from address (Z.of_nat (String.length transport) + 1);
        m ← fill_addressMap (strings.Split pairs ",") ∅;
        let bus := set_addressMap m new_Connection in
        let dial address :=
          match net_Dial dial_err transport address with
          | (_, Some err) => Returns (None, Some err)
          | (c, None) => Returns (Some (set_conn c bus), None)
          end in
        match m !! "path" with
        | Some address => dial address
        | None =>
            match m !! "abstract" with
            | Some address => dial ("@" ++ address)
            | None => Returns (None, Some "Unknown address key")
            end
        end
  end.

End Connect.

(** ** The catalog of the bus itself

    What [xml.Unmarshal] makes of the constant [dbusXMLIntro]: each element
    [interface], [method], [signal] and [arg] with its attributes, in the
    order of the text. *)

Definition no_annotation : annotationData :=
  {| annotation_Name := ""; annotation_Value := "" |}.

Definition mk_method (name : string) (args : list argData) : methodData :=
  {| method_Name := name; method_Arg := args;
     method_Annotation := no_annotation |}.

Definition dbus_interface_0 : xmlInterfaceData :=
  {| xml_Name := "org.freedesktop.DBus.Introspectable";
     xml_Method := [
      mk_method "Introspect"
        [ {| arg_Name := "data"; arg_Type := "s"; arg_Direction := "out" |} ] ];
     xml_Signal := [] |}.

Definition dbus_interface_1 : xmlInterfaceData :=
  {| xml_Name := "org.freedesktop.DBus";
     xml_Method := [
      mk_method "RequestName"
        [ {| arg_Name := ""; arg_Type := "s"; arg_Direction := "in" |};
          {| arg_Name := ""; arg_Type := "u"; arg_Direction := "in" |};
          {| arg_Name := ""; arg_Type := "u"; arg_Direction := "out" |} ];
      mk_method "ReleaseName"
        [ {| arg_Name := ""; arg_Type := "s"; arg_Direction := "in" |};
          {| arg_Name := ""; arg_Type := "u"; arg_Direction := "out" |} ];
      mk_method "StartServiceByName"
        [ {| arg_Name := ""; arg_Type := "s"; arg_Direction := "in" |};
          {| arg_Name := ""; arg_Type := "u"; arg_Direction := "in" |};
          {| arg_Name := ""; arg_Type := "u"; arg_Direction := "out" |} ];
      mk_method "Hello"
        [ {| arg_Name := ""; arg_Type := "s"; arg_Direction := "out" |} ];
      mk_method "NameHasOwner"
        [ {| arg_Name := ""; arg_Type := "s"; arg_Direction := "in" |};
          {| arg_Name := ""; arg_Type := "b"; arg_Direction := "out" |} ];
      mk_method "ListNames"
        [ {| arg_Name := ""; arg_Type := "as"; arg_Direction := "out" |} ];
      mk_method "ListActivatableNames"
        [ {| arg_Name := ""; arg_Type := "as"; arg_Direction := "out" |} ];
      mk_method "AddMatch"
        [ {| arg_Name := ""; arg_Type := "s"; arg_Direction := "in" |} ];
      mk_method "RemoveMatch"
        [ {| arg_Name := ""; arg_Type := "s"; arg_Direction := "in" |} ];
      mk_method "GetNameOwner"
        [ {| arg_Name := ""; arg_Type := "s"; arg_Direction := "in" |};
          {| arg_Name := ""; arg_Type := "s"; arg_Direction := "out" |} ];
      mk_method "ListQueuedOwners"
        [ {| arg_Name := ""; arg_Type := "s"; arg_Direction := "in" |};
          {| arg_Name := ""; arg_Type := "as"; arg_Direction := "out" |} ];
      mk_method "GetConnectionUnixUser"
        [ {| arg_Name := ""; arg_Type := "s"; arg_Direction := "in" |};
          {| arg_Name := ""; arg_Type := "u"; arg_Direction := "out" |} ];
      mk_method "GetConnectionUnixProcessID"
        [ {| arg_Name := ""; arg_Type := "s"; arg_Direction := "in" |};
          {| arg_Name := ""; arg_Type := "u"; arg_Direction := "out" |} ];
      mk_method "GetConnectionSELinuxSecurityContext"
        [ {| arg_Name := ""; arg_Type := "s"; arg_Direction := "in" |};
          {| arg_Name := ""; arg_Type := "ay"; arg_Direction := "out" |} ];
      mk_method "ReloadConfig"
        [] ];
     xml_Signal := [
      {| signal_Name := "NameOwnerChanged";
         signal_Arg :=
           [ {| arg_Name := ""; arg_Type := "s"; arg_Direction := "" |};
             {| arg_Name := ""; arg_Type := "s"; arg_Direction := "" |};
             {| arg_Name := ""; arg_Type := "s"; arg_Direction := "" |} ] |};
      {| signal_Name := "NameLost";
         signal_Arg :=
           [ {| arg_Name := ""; arg_Type := "s"; arg_Direction := "" |} ] |};
      {| signal_Name := "NameAcquired";
         signal_Arg :=
           [ {| arg_Name := ""; arg_Type := "s"; arg_Direction := "" |} ] |} ] |}.

Definition dbus_catalog : introspect :=
  mk_introspect "" [dbus_interface_0; dbus_interface_1] [].

(** The text of [dbusXMLIntro], with its attribute values between
    apostrophes. *)
Definition dbusXMLIntro_text : string := "
<!DOCTYPE node PUBLIC '-//freedesktop//DTD D-BUS Object Introspection 1.0//EN'
'http://www.freedesktop.org/standards/dbus/1.0/introspect.dtd'>
<node>
  <interface name='org.freedesktop.DBus.Introspectable'>
    <method name='Introspect'>
      <arg name='data' direction='out' type='s'/>
    </method>
  </interface>
  <interface name='org.freedesktop.DBus'>
    <method name='RequestName'>
      <arg direction='in' type='s'/>
      <arg direction='in' type='u'/>
      <arg direction='out' type='u'/>
    </method>
    <method name='ReleaseName'>
      <arg direction='in' type='s'/>
      <arg direction='out' type='u'/>
    </method>
    <method name='StartServiceByName'>
      <arg direction='in' type='s'/>
      <arg direction='in' type='u'/>
      <arg direction='out' type='u'/>
    </method>
    <method name='Hello'>
      <arg direction='out' type='s'/>
    </method>
    <method name='NameHasOwner'>
      <arg direction='in' type='s'/>
      <arg direction='out' type='b'/>
    </method>
    <method name='ListNames'>
      <arg direction='out' type='as'/>
    </method>
    <method name='ListActivatableNames'>
      <arg direction='out' type='as'/>
    </method>
    <method name='AddMatch'>
      <arg direction='in' type='s'/>
    </method>
    <method name='RemoveMatch'>
      <arg direction='in' type='s'/>
    </method>
    <method name='GetNameOwner'>
      <arg direction='in' type='s'/>
      <arg direction='out' type='s'/>
    </method>
    <method name='ListQueuedOwners'>
      <arg direction='in' type='s'/>
      <arg direction='out' type='as'/>
    </method>
    <method name='GetConnectionUnixUser'>
      <arg direction='in' type='s'/>
      <arg direction='out' type='u'/>
    </method>
    <method name='GetConnectionUnixProcessID'>
      <arg direction='in' type='s'/>
      <arg direction='out' type='u'/>
    </method>
    <method name='GetConnectionSELinuxSecurityContext'>
      <arg direction='in' type='s'/>
      <arg direction='out' type='ay'/>
    </method>
    <method name='ReloadConfig'>
    </method>
    <signal name='NameOwnerChanged'>
      <arg type='s'/>
      <arg type='s'/>
      <arg type='s'/>
    </signal>
    <signal name='NameLost'>
      <arg type='s'/>
    </signal>
    <signal name='NameAcquired'>
      <arg type='s'/>
    </signal>
  </interface>
</node>".

(** ** The wire format *)

(** Modelled from the spec: the codec of marshall.go, which is not among
    the sources, after the encoding and decoding contracts of section 4.1.
    The type codes are those of the D-Bus specification, to which the spec
    refers for "type and framing rules". *)
Module Codec.

(** *** Bytes and little-endian integers *)

Definition byte_of_Z (z : Z) : byte :=
  default Byte.x00 (Byte.of_N (Z.to_N (z mod 256))).

Definition Z_of_byte (b : byte) : Z := Z.of_N (Byte.to_N b).

(** The [k] low bytes of [z], least significant first; a negative [z]
    comes out in two's complement. *)
Fixpoint le_bytes (k : nat) (z : Z) : list byte :=
  match k with
  | O => []
  | S k' => byte_of_Z z :: le_bytes k' (z / 256)
  end.

Fixpoint le_value (bs : list byte) : Z :=
  match bs with
  | [] => 0
  | b :: rest => Z_of_byte b + 256 * le_value rest
  end.

(** The signed reading of an unsigned [bits]-bit number. *)
Definition signed (bits : Z) (u : Z) : Z :=
  if u <? 2 ^ (bits - 1) then u else u - 2 ^ bits.

Definition zeros (n : nat) : list byte := repeat Byte.x00 n.

(** *** Alignment *)

Definition alignment (t : ty) : nat :=
  match t with
  | TByte | TSignature | TVariant => 1
  | TInt16 | TUint16 => 2
  | TBoolean | TInt32 | TUint32 | TString | TObjectPath | TArray _ => 4
  | TInt64 | TUint64 | TDouble | TStruct _ | TDictEntry _ _ => 8
  end%nat.

(** The number of padding bytes that bring the offset [off], counted from
    the start of the body, to a multiple of [a]. *)
Definition padding (off a : nat) : nat := ((a - off mod a) mod a)%nat.

(** *** Signatures *)

(** The strings [f x], for the [x] of [xs], one after the other. *)
Fixpoint join {A : Type} (f : A -> string) (xs : list A) : string :=
  match xs with
  | [] => ""
  | x :: rest => f x ++ join f rest
  end.

Fixpoint sig_of (t : ty) : string :=
  match t with
  | TByte => "y" | TBoolean => "b"
  | TInt16 => "n" | TUint16 => "q"
  | TInt32 => "i" | TUint32 => "u"
  | TInt64 => "x" | TUint64 => "t"
  | TDouble => "d"
  | TString => "s" | TObjectPath => "o" | TSignature => "g"
  | TArray elem => "a" ++ sig_of elem
  | TStruct fields => "(" ++ join sig_of fields ++ ")"
  | TDictEntry key value => "{" ++ sig_of key ++ sig_of value ++ "}"
  | TVariant => "v"
  end.

(** One complete type from the front of a signature. An unknown code, an
    unterminated container and a struct without members are rejected. *)
Fixpoint parse_ty (fuel : nat) (s : string) : option (ty * string) :=
  match fuel with
  | O => None
  | S fuel' =>
      match s with
      | EmptyString => None
      | String c rest =>
          if Ascii.eqb c "y" then Some (TByte, rest)
          else if Ascii.eqb c "b" then Some (TBoolean, rest)
          else if Ascii.eqb c "n" then Some (TInt16, rest)
          else if Ascii.eqb c "q" then Some (TUint16, rest)
          else if Ascii.eqb c "i" then Some (TInt32, rest)
          else if Ascii.eqb c "u" then Some (TUint32, rest)
          else if Ascii.eqb c "x" then Some (TInt64, rest)
          else if Ascii.eqb c "t" then Some (TUint64, rest)
          else if Ascii.eqb c "d" then Some (TDouble, rest)
          else if Ascii.eqb c "s" then Some (TString, rest)
          else if Ascii.eqb c "o" then Some (TObjectPath, rest)
          else if Ascii.eqb c "g" then Some (TSignature, rest)
          else if Ascii.eqb c "v" then Some (TVariant, rest)
          else if Ascii.eqb c "a" then
            match parse_ty fuel' rest with
            | Some (elem, rest') => Some (TArray elem, rest')
            | None => None
            end
          else if Ascii.eqb c "(" then
            match parse_fields fuel' rest with
            | Some (t :: ts, rest') => Some (TStruct (t :: ts), rest')
            | _ => None
            end
          else if Ascii.eqb c "{" then
            match parse_ty fuel' rest with
            | Some (key, rest') =>
                match parse_ty fuel' rest' with
                | Some (value, String c' rest'') =>
                    if Ascii.eqb c' "}"
                    then Some (TDictEntry key value, rest'')
                    else None
                | _ => None
                end
            | None => None
            end
          else None
      end
  end
with parse_fields (fuel : nat) (s : string) : option (list ty * string) :=
  match fuel with
  | O => None
  | S fuel' =>
      match s with
      | EmptyString => None
      | String c rest =>
          if Ascii.eqb c ")" then Some ([], rest)
          else
            match parse_ty fuel' s with
            | Some (t, rest') =>
                match parse_fields fuel' rest' with
                | Some (ts, rest'') => Some (t :: ts, rest'')
                | None => None
                end
            | None => None
            end
      end
  end.

(** The single complete type that a signature spells, as a variant
    carries it. *)
Definition parse_single (s : string) : option ty :=
  match parse_ty (S (String.length s)) s with
  | Some (t, EmptyString) => Some t
  | _ => None
  end.

(** *** Values and their types *)

Fixpoint type_of (v : Value) : ty :=
  match v with
  | VByte _ => TByte | VBoolean _ => TBoolean
  | VInt16 _ => TInt16 | VUint16 _ => TUint16
  | VInt32 _ => TInt32 | VUint32 _ => TUint32
  | VInt64 _ => TInt64 | VUint64 _ => TUint64
  | VDouble _ => TDouble
  | VString _ => TString | VObjectPath _ => TObjectPath
  | VSignature _ => TSignature
  | VArray elem _ => TArray elem
  | VStruct fields => TStruct (map type_of fields)
  | VDictEntry key value => TDictEntry (type_of key) (type_of value)
  | VVariant _ _ => TVariant
  end.

(** A type without an empty struct in it. *)
Inductive proper_ty : ty -> Prop :=
| proper_TByte : proper_ty TByte
| proper_TBoolean : proper_ty TBoolean
| proper_TInt16 : proper_ty TInt16
| proper_TUint16 : proper_ty TUint16
| proper_TInt32 : proper_ty TInt32
| proper_TUint32 : proper_ty TUint32
| proper_TInt64 : proper_ty TInt64
| proper_TUint64 : proper_ty TUint64
| proper_TDouble : proper_ty TDouble
| proper_TString : proper_ty TString
| proper_TObjectPath : proper_ty TObjectPath
| proper_TSignature : proper_ty TSignature
| proper_TVariant : proper_ty TVariant
| proper_TArray elem : proper_ty elem -> proper_ty (TArray elem)
| proper_TStruct fields :
    fields <> [] -> Forall proper_ty fields -> proper_ty (TStruct fields)
| proper_TDictEntry key value :
    proper_ty key -> proper_ty value -> proper_ty (TDictEntry key value).

(** A value that the D-Bus types can hold: integers within the range of
    their type, a double as a 64-bit pattern, signatures of at most 255
    bytes, arrays whose items all have the element type, structs with at
    least one member, and a variant that holds a value of the type it
    names. *)
Inductive supported : Value -> Prop :=
| supported_VByte n : 0 <= n < 2 ^ 8 -> supported (VByte n)
| supported_VBoolean b : supported (VBoolean b)
| supported_VInt16 n : - 2 ^ 15 <= n < 2 ^ 15 -> supported (VInt16 n)
| supported_VUint16 n : 0 <= n < 2 ^ 16 -> supported (VUint16 n)
| supported_VInt32 n : - 2 ^ 31 <= n < 2 ^ 31 -> supported (VInt32 n)
| supported_VUint32 n : 0 <= n < 2 ^ 32 -> supported (VUint32 n)
| supported_VInt64 n : - 2 ^ 63 <= n < 2 ^ 63 -> supported (VInt64 n)
| supported_VUint64 n : 0 <= n < 2 ^ 64 -> supported (VUint64 n)
| supported_VDouble bits : 0 <= bits < 2 ^ 64 -> supported (VDouble bits)
| supported_VString s : supported (VString s)
| supported_VObjectPath s : supported (VObjectPath s)
| supported_VSignature s :
    (String.length s < 256)%nat -> supported (VSignature s)
| supported_VArray elem items :
    proper_ty elem ->
    Forall (fun item => supported item /\ type_of item = elem) items ->
    supported (VArray elem items)
| supported_VStruct fields :
    fields <> [] -> Forall supported fields -> supported (VStruct fields)
| supported_VDictEntry key value :
    supported key -> supported value -> supported (VDictEntry key value)
| supported_VVariant t v :
    proper_ty t -> (String.length (sig_of t) < 256)%nat ->
    supported v -> type_of v = t -> supported (VVariant t v).

(** The nesting depth of a value. *)
Fixpoint depth (v : Value) : nat :=
  match v with
  | VArray _ items => S (list_max (map depth items))
  | VStruct fields => S (list_max (map depth fields))
  | VDictEntry key value => S (Nat.max (depth key) (depth value))
  | VVariant _ v => S (depth v)
  | _ => O
  end.

(** *** Encoding *)

(** A length-prefixed, NUL-terminated string; the prefix has [k] bytes. *)
Definition encode_text (k : nat) (s : string) : list byte :=
  (le_bytes k (Z.of_nat (String.length s)) ++ list_byte_of_string s
     ++ [Byte.x00])%list.

(** The encodings [enc off x] of the [xs], one after the other, each at
    the offset where the previous one ends. *)
Fixpoint in_sequence {A : Type} (enc : nat -> A -> list byte) (off : nat)
    (xs : list A) : list byte :=
  match xs with
  | [] => []
  | x :: rest =>
      let bs := enc off x in
      (bs ++ in_sequence enc (off + length bs)%nat rest)%list
  end.

(** The bytes of [v] when it starts at offset [off] of the body: padding
    up to the alignment of its type, then the value. *)
Fixpoint encode (off : nat) (v : Value) : list byte :=
  let pad := zeros (padding off (alignment (type_of v))) in
  let at_ := (off + length pad)%nat in
  (pad ++
   match v with
   | VByte n => le_bytes 1 n
   | VBoolean b => le_bytes 4 (if b then 1 else 0)
   | VInt16 n | VUint16 n => le_bytes 2 n
   | VInt32 n | VUint32 n => le_bytes 4 n
   | VInt64 n | VUint64 n | VDouble n => le_bytes 8 n
   | VString s | VObjectPath s => encode_text 4 s
   | VSignature s => encode_text 1 s
   | VArray elem items =>
       let start := (at_ + 4)%nat in
       let pad' := match items with
                   | [] => []
                   | _ => zeros (padding start (alignment elem))
                   end in
       let body := in_sequence encode (start + length pad')%nat items in
       le_bytes 4 (Z.of_nat (length body)) ++ pad' ++ body
   | VStruct fields => in_sequence encode at_ fields
   | VDictEntry key value =>
       let bs := encode at_ key in
       bs ++ encode (at_ + length bs)%nat value
   | VVariant t v =>
       let sg := encode_text 1 (sig_of t) in
       sg ++ encode (at_ + length sg)%nat v
   end)%list.

(** The values [vs] one after the other from offset [off]. *)
Definition encode_all (off : nat) (vs : list Value) : list byte :=
  in_sequence encode off vs.

(** A message body: the arguments from offset 0, then padding to end on
    an 8-byte boundary. *)
Definition encode_body (args : list Value) : list byte :=
  let bs := encode_all 0 args in
  (bs ++ zeros (padding (length bs) 8))%list.

(** *** Decoding *)

(** The first [n] bytes, if there are that many, and the rest. *)
Definition take_bytes (n : nat) (bs : list byte) : option (list byte * list byte) :=
  if (n <=? length bs)%nat then Some (firstn n bs, skipn n bs) else None.

(** An unsigned little-endian integer of [k] bytes. *)
Definition decode_uint (k : nat) (bs : list byte) : option (Z * list byte) :=
  '(raw, rest) ← take_bytes k bs;
  Some (le_value raw, rest).

(** A length-prefixed NUL-terminated string; the prefix has [k] bytes. *)
Definition decode_text (k : nat) (bs : list byte)
  : option (string * nat * list byte) :=
  '(n, rest) ← decode_uint k bs;
  '(raw, rest) ← take_bytes (Z.to_nat n) rest;
  match rest with
  | nul :: rest =>
      if Byte.eqb nul Byte.x00
      then Some (string_of_list_byte raw, (k + Z.to_nat n + 1)%nat, rest)
      else None
  | [] => None
  end.

Abbreviation decoded A := (option (A * nat * list byte)).

(** Values of the types [ts], one after the other, each decoded by [dec]
    at the offset where the previous one ends. *)
Fixpoint decode_sequence (dec : ty -> nat -> list byte -> decoded Value)
    (ts : list ty) (off : nat) (bs : list byte) : decoded (list Value) :=
  match ts with
  | [] => Some ([], off, bs)
  | t :: ts' =>
      '(v, off', bs') ← dec t off bs;
      '(vs, off'', bs'') ← decode_sequence dec ts' off' bs';
      Some (v :: vs, off'', bs'')
  end.

(** The items of an array body of [left] bytes, each decoded by [dec];
    an item takes at least one byte, so there are at most [turns] of
    them when [turns] starts at the length of the body. *)
Fixpoint decode_items (dec : nat -> list byte -> decoded Value)
    (turns : nat) (off : nat) (bs : list byte) (left : nat)
  : decoded (list Value) :=
  if (left =? 0)%nat then Some ([], off, bs)
  else
    match turns with
    | O => None
    | S turns' =>
        '(v, off', bs') ← dec off bs;
        if (off' - off <=? left)%nat then
          '(vs, off'', bs'') ←
            decode_items dec turns' off' bs' (left - (off' - off))%nat;
          Some (v :: vs, off'', bs'')
        else None
    end.

(** One value of type [t] from the bytes [bs], which start at offset
    [off] of the body: the value, the offset after it and the bytes left.
    [fuel] bounds the nesting of containers. *)
Fixpoint decode (fuel : nat) (t : ty) (off : nat) (bs : list byte)
  : decoded Value :=
  match fuel with
  | O => None
  | S fuel' =>
      '(_, bs) ← take_bytes (padding off (alignment t)) bs;
      let at_ := (off + padding off (alignment t))%nat in
      let fixed k (mk : Z -> Value) :=
        '(n, rest) ← decode_uint k bs;
        Some (mk n, (at_ + k)%nat, rest) in
      match t with
      | TByte => fixed 1%nat VByte
      | TBoolean =>
          '(n, rest) ← decode_uint 4 bs;
          if n =? 0 then Some (VBoolean false, (at_ + 4)%nat, rest)
          else if n =? 1 then Some (VBoolean true, (at_ + 4)%nat, rest)
          else None
      | TInt16 => fixed 2%nat (fun u => VInt16 (signed 16 u))
      | TUint16 => fixed 2%nat VUint16
      | TInt32 => fixed 4%nat (fun u => VInt32 (signed 32 u))
      | TUint32 => fixed 4%nat VUint32
      | TInt64 => fixed 8%nat (fun u => VInt64 (signed 64 u))
      | TUint64 => fixed 8%nat VUint64
      | TDouble => fixed 8%nat VDouble
      | TString =>
          '(s, used, rest) ← decode_text 4 bs;
          Some (VString s, (at_ + used)%nat, rest)
      | TObjectPath =>
          '(s, used, rest) ← decode_text 4 bs;
          Some (VObjectPath s, (at_ + used)%nat, rest)
      | TSignature =>
          '(s, used, rest) ← decode_text 1 bs;
          Some (VSignature s, (at_ + used)%nat, rest)
      | TArray elem =>
          '(n, rest) ← decode_uint 4 bs;
          let start := (at_ + 4)%nat in
          if n =? 0 then Some (VArray elem [], start, rest)
          else
            '(_, rest) ← take_bytes (padding start (alignment elem)) rest;
            let first := (start + padding start (alignment elem))%nat in
            '(vs, off', rest) ←
              decode_items (decode fuel' elem) (Z.to_nat n) first rest
                (Z.to_nat n);
            Some (VArray elem vs, off', rest)
      | TStruct [] => None
      | TStruct fields =>
          '(vs, off', rest) ← decode_sequence (decode fuel') fields at_ bs;
          Some (VStruct vs, off', rest)
      | TDictEntry key value =>
          '(k, off', rest) ← decode fuel' key at_ bs;
          '(v, off'', rest) ← decode fuel' value off' rest;
          Some (VDictEntry k v, off'', rest)
      | TVariant =>
          '(sg, used, rest) ← decode_text 1 bs;
          t' ← parse_single sg;
          '(v, off', rest) ← decode fuel' t' (at_ + used)%nat rest;
          Some (VVariant t' v, off', rest)
      end
  end.

(** Values of the types [ts], one after the other from offset [off]. *)
Definition decode_all (fuel : nat) (ts : list ty) (off : nat) (bs : list byte)
  : decoded (list Value) :=
  decode_sequence (decode fuel) ts off bs.

(** A message body of signature [ts] from the front of [bs]: the
    arguments and the number of bytes consumed, which runs to the 8-byte
    boundary on which the body ends. *)
Definition decode_body (fuel : nat) (ts : list ty) (bs : list byte)
  : option (list Value * nat) :=
  '(args, off, rest) ← decode_all fuel ts 0 bs;
  '(_, _) ← take_bytes (padding off 8) rest;
  Some (args, (off + padding off 8)%nat).

(** The types and the values directly inside a container. *)
Definition component (sub t : ty) : Prop :=
  match t with
  | TArray elem => sub = elem
  | TStruct fields => In sub fields
  | TDictEntry key value => sub = key \/ sub = value
  | _ => False
  end.

Definition part (sub v : Value) : Prop :=
  match v with
  | VArray _ items => In sub items
  | VStruct fields => In sub fields
  | VDictEntry key value => sub = key \/ sub = value
  | VVariant _ v => sub = v
  | _ => False
  end.

(** What [encode] writes after the padding. *)
Definition payload (at_ : nat) (v : Value) : list byte :=
  match v with
  | VByte n => le_bytes 1 n
  | VBoolean b => le_bytes 4 (if b then 1 else 0)
  | VInt16 n | VUint16 n => le_bytes 2 n
  | VInt32 n | VUint32 n => le_bytes 4 n
  | VInt64 n | VUint64 n | VDouble n => le_bytes 8 n
  | VString s | VObjectPath s => encode_text 4 s
  | VSignature s => encode_text 1 s
  | VArray elem items =>
      let start := (at_ + 4)%nat in
      let pad' := match items with
                  | [] => O
                  | _ => padding start (alignment elem)
                  end in
      let body := in_sequence encode (start + pad')%nat items in
      le_bytes 4 (Z.of_nat (length body)) ++ zeros pad' ++ body
  | VStruct fields => in_sequence encode at_ fields
  | VDictEntry key value =>
      encode at_ key ++ encode (at_ + length (encode at_ key))%nat value
  | VVariant t v =>
      encode_text 1 (sig_of t)
        ++ encode (at_ + (String.length (sig_of t) + 2))%nat v
  end%list.

End Codec.

(** ** A bus for the examples *)

Module Examples.

(** Modelled from the spec: the [MatchRule] of matchrule.go, "optional
      sender, path, interface, member predicates (unset = wildcard)", which
    "matches a Message by field-wise equality on every set predicate". *)
Record Rule := {
  rule_Sender : option string;
  rule_Path : option string;
  rule_Interface : option string;
  rule_Member : option string
}.

Definition field_matches (want : option string) (have : string) : bool :=
  match want with
  | None => true
  | Some s => String.eqb s have
  end.

Definition Rule_Match (r : Rule) (msg : Message) : bool :=
  field_matches (rule_Sender r) (Sender msg) &&
  field_matches (rule_Path r) (Path msg) &&
  field_matches (rule_Interface r) (Iface msg) &&
  field_matches (rule_Member r) (Member msg).

Definition Rule_field (key : string) (want : option string) : string :=
  match want with
  | None => ""
  | Some s => "," ++ key ++ "='" ++ s ++ "'"
  end.

Definition Rule_ToString (r : Rule) : string :=
  "type='signal'" ++ Rule_field "sender" (rule_Sender r)
    ++ Rule_field "path" (rule_Path r)
    ++ Rule_field "interface" (rule_Interface r)
    ++ Rule_field "member" (rule_Member r).

(** A stand-in for marshall.go: a message travels as two bytes, its type
    code and its reply serial; its member name is what gets written. *)
Definition type_of_code (b : byte) : MessageType :=
  match Byte.to_N b with
  | 1%N => METHOD_CALL
  | 2%N => METHOD_RETURN
  | 3%N => ERROR
  | 4%N => SIGNAL
  | n => OTHER_TYPE (Z.of_N n)
  end.

Definition blank (t : MessageType) (reply : Z) : Message :=
  {| Type_ := t; serial := 0; replySerial := reply; Path := ""; Dest := "";
     Iface := ""; Member := ""; Sender := ""; Sig := ""; Params := [] |}.

Definition toy_Marshal (msg : Message) : list byte * option error :=
  if String.eqb (Member msg) ""
  then ([], Some "message without a member")
  else (list_byte_of_string (Member msg), None).

Definition toy_Unmarshal (buff : list byte)
  : option Message * Z * option error :=
  match buff with
  | t :: rs :: _ => (Some (blank (type_of_code t) (Z.of_N (Byte.to_N rs))), 2, None)
  | _ => (None, 0, Some "Incomplete")
  end.

Definition toy_Authenticate (c : NetConn) : NetConn * option error :=
  (conn_Write c [Byte.x00] 1, None).

Definition bus : Externals :=
  {| MatchRule := Rule; _Match := Rule_Match; _ToString := Rule_ToString;
     _Marshal := toy_Marshal; _Unmarshal := toy_Unmarshal;
     Authenticate := toy_Authenticate;
     xml_Unmarshal := fun _ => (dbus_catalog, None);
     dbusXMLIntro := dbusXMLIntro_text |}.

(** The memory of a program with one caller: its captured variables, its
    channel, and a log in which its handlers write their names. *)
Record Memory := {
  m_ret : list Value;
  m_intro : option introspect;
  m_chan : list Z;
  m_log : list string
}.

Definition memory0 : Memory :=
  {| m_ret := []; m_intro := None; m_chan := []; m_log := [] |}.

Definition frame : Frame (U:=Memory) :=
  {| ret_var :=
       {| load := m_ret;
          store := fun v u => {| m_ret := v; m_intro := m_intro u;
                                 m_chan := m_chan u; m_log := m_log u |} |};
     intro_var :=
       {| load := m_intro;
          store := fun v u => {| m_ret := m_ret u; m_intro := v;
                                 m_chan := m_chan u; m_log := m_log u |} |};
     recvChan :=
       {| load := m_chan;
          store := fun v u => {| m_ret := m_ret u; m_intro := m_intro u;
                                 m_chan := v; m_log := m_log u |} |} |}.

(** A callback that writes [who] in the log. *)
Definition logs (who : string) : callback Memory :=
  fun _ u => Returns {| m_ret := m_ret u; m_intro := m_intro u;
                        m_chan := m_chan u;
                        m_log := (m_log u ++ [who])%list |}.

Definition session : gmap string string :=
  {[ "DBUS_SESSION_BUS_ADDRESS" := "unix:path=/tmp/dbus-test" ]}.

Definition dial_ok (network address : string) : option error := None.

(** The connection that [Connect(SessionBus)] returns in [session]. *)
Definition connected : Connection (Ext:=bus) Memory :=
  match Connect (Ext:=bus) session dial_ok SessionBus with
  | Returns (Some p, _) => p
  | _ => new_Connection
  end.

Definition world0 : World (Ext:=bus) Memory :=
  {| this := connected; mem := memory0; stdout := [] |}.

(** The call with serial 1 and the reply of the bus to it. *)
Definition call1 : Message :=
  {| Type_ := OTHER_TYPE 0; serial := 1; replySerial := 0; Path := "";
     Dest := ""; Iface := ""; Member := ""; Sender := ""; Sig := "";
     Params := [] |}.

Definition reply1 (t : MessageType) (args : list Value) : Message :=
  {| Type_ := t; serial := 5; replySerial := 1; Path := ""; Dest := "";
     Iface := ""; Member := ""; Sender := "org.freedesktop.DBus"; Sig := "s";
     Params := args |}.

Definition env1 (incoming : list (option Message)) : CallEnv :=
  {| NewMessage := call1; Write_n := 0; Write_err := Some "broken pipe";
     msgChan := incoming |}.

Definition env_ok (incoming : list (option Message)) : CallEnv :=
  {| NewMessage := call1; Write_n := 1024; Write_err := None;
     msgChan := incoming |}.

(** Two calls wait for their replies, under the serials 1 and 2. *)
Definition two_pending : World (Ext:=bus) Memory :=
  on_this (set_methodCallReplies
    (fun _ => <[1 := logs "reply to 1"]> (<[2 := logs "reply to 2"]> ∅)))
    world0.

Definition rule_for (iface : string) : Rule :=
  {| rule_Sender := None; rule_Path := None; rule_Interface := Some iface;
     rule_Member := None |}.

Definition any_signal : Rule :=
  {| rule_Sender := None; rule_Path := None; rule_Interface := None;
     rule_Member := None |}.

Definition handler (r : Rule) (f : callback Memory)
  : signalHandler (Ext:=bus) Memory :=
  @Build_signalHandler bus Memory r f.

(** Three handlers, registered in this order. *)
Definition three_handlers : World (Ext:=bus) Memory :=
  on_this (set_signalMatchRules (fun _ =>
    [ handler (rule_for "org.example.Player") (logs "first");
      handler (rule_for "org.example.Mixer") (logs "second");
      handler any_signal (logs "third") ]))
    world0.

Definition signal_from (iface member : string) : Message :=
  {| Type_ := SIGNAL; serial := 9; replySerial := 0; Path := "/";
     Dest := ""; Iface := iface; Member := member; Sender := ":1.7";
     Sig := ""; Params := [] |}.

(** The connection after [Initialize], ready for calls. *)
Definition initialized : World (Ext:=bus) Memory :=
  final (Initialize frame
           (env_ok [Some (reply1 METHOD_RETURN [VString ":1.42"])]) world0).

Definition unknown_service : Message :=
  reply1 ERROR [VString "org.freedesktop.DBus.Error.ServiceUnknown"].

Definition seeked : Message := signal_from "org.example.Player" "Seeked".

(** A buffer that holds one message and the first byte of the next. *)
Definition one_and_a_bit : World (Ext:=bus) Memory :=
  on_this (set_buffer (fun _ => [Byte.x02; Byte.x01; Byte.x04])) world0.

(** The handle of a method of the bus. *)
Definition method_of (name : string) : option method :=
  proxy (this initialized) ≫= fun iface =>
    match _interface_.MethodByName iface name with
    | Returns h => h
    | _ => None
    end.

(** A method without a name, which the stand-in for [_Marshal] refuses. *)
Definition nameless : option method :=
  proxy (this initialized) ≫= fun iface =>
    Some {| method_iface := iface; MethodIntrospect := mk_method "" [] |}.

(** A value with every type in it, containers inside containers. *)
Definition nested : Value :=
  VStruct
    [ VByte 7; VBoolean true; VInt16 (-2); VUint16 65535;
      VInt32 (-2147483648); VUint32 258; VInt64 (-1); VUint64 5;
      VDouble 4614253070214989087;
      VString "hi"; VObjectPath "/org/freedesktop/DBus"; VSignature "a(ii)";
      VArray (TStruct [TInt16; TUint64])
        [ VStruct [VInt16 (-2); VUint64 5]; VStruct [VInt16 3; VUint64 9] ];
      VStruct [VArray TByte [VByte 1; VByte 2; VByte 3]; VArray TUint64 []];
      VVariant (TArray TString) (VArray TString [VString "a"; VString "bc"]);
      VArray (TDictEntry TString TVariant)
        [ VDictEntry (VString "k") (VVariant TUint32 (VUint32 1)) ] ].

End Examples.

(** ** introspect.go and dbus.go: access by index, objects *)

(** [xs[i]] for a Go [int] index. *)
Definition index_int {A : Type} (xs : list A) (i : Z) : outcome A :=
  if i <? 0 then Panics "index out of range" else index xs (Z.to_nat i).

Definition nil_dereference : string :=
  "invalid memory address or nil pointer dereference".



(** [introspect.GetName], [NumInterface], [Interface] and
    [InterfaceByName]. *)
Definition introspect_GetName (p : introspect) : string :=
  match p with mk_introspect name _ _ => name end.

Definition introspect_NumInterface (p : introspect) : Z :=
  Z.of_nat (length (Interfaces p)).

(** The copy [interfaceData{v.Name, v.Method, v.Signal}]. *)
Definition interface_of (v : xmlInterfaceData) : interfaceData :=
  {| iface_Name := xml_Name v; Methods := xml_Method v;
     Signals := xml_Signal v |}.

Definition introspect_Interface (p : introspect) (i : Z) : outcome interfaceData :=
  iface ← index_int (Interfaces p) i;
  Returns (interface_of iface).

Definition introspect_InterfaceByName (p : introspect) (name : string)
  : option interfaceData :=
  introspect_.GetInterfaceData p name.

(** [interfaceData.Method] and [interfaceData.Signal]. *)
Definition interfaceData_Method (p : interfaceData) (i : Z) : outcome methodData :=
  index_int (Methods p) i.

Definition interfaceData_Signal (p : interfaceData) (i : Z) : outcome signalData :=
  index_int (Signals p) i.

(** The methods of [*_interface] by index. *)
Definition _interface_NumMethod (iface : _interface) : outcome Z :=
  match iface_intro iface with
  | None => Panics nil_dereference
  | Some intro => Returns (interfaceData_.NumMethod intro)
  end.

Definition _interface_Method (iface : _interface) (i : Z)
  : outcome (option method) :=
  match iface_intro iface with
  | None => Panics nil_dereference
  | Some intro =>
      data ← interfaceData_Method intro i;
      Returns (Some {| method_iface := iface; MethodIntrospect := data |})
  end.

Definition _interface_NumSignal (iface : _interface) : outcome Z :=
  match iface_intro iface with
  | None => Panics nil_dereference
  | Some intro => Returns (interfaceData_.NumSignal intro)
  end.

Definition _interface_Signal (iface : _interface) (i : Z)
  : outcome (option signal) :=
  match iface_intro iface with
  | None => Panics nil_dereference
  | Some intro =>
      data ← interfaceData_Signal intro i;
      Returns (Some {| signal_iface := iface; SignalIntrospect := data |})
  end.



Definition Object_GetName (obj : option Object) : outcome string :=
  match obj with
  | None => Panics nil_dereference
  | Some o =>
      match obj_intro o with
      | None => Panics nil_dereference
      | Some intro => Returns (introspect_GetName intro)
      end
  end.

Definition Object_NumInterface (obj : option Object) : outcome Z :=
  match obj with
  | None => Panics nil_dereference
  | Some o =>
      match obj_intro o with
      | None => Panics nil_dereference
      | Some intro => Returns (introspect_NumInterface intro)
      end
  end.

Definition Object_Interface (obj : option Object) (i : Z)
  : outcome (option _interface) :=
  match obj with
  | None => Returns None
  | Some o =>
      match obj_intro o with
      | None => Returns None
      | Some intro =>
          data ← introspect_Interface intro i;
          let name := interfaceData_.GetName data in
          Returns (Some {| obj := Some o; name := name;
                           iface_intro := Some data |})
      end
  end.

Definition Object_InterfaceByName (obj : option Object) (name : string)
  : option _interface :=
  match obj with
  | None => None
  | Some o =>
      match obj_intro o with
      | None => None
      | Some intro =>
          match introspect_.GetInterfaceData intro name with
          | None => None
          | Some data =>
              Some {| obj := Some o; name := name; iface_intro := Some data |}
          end
      end
  end.

(** ** dbus.go: what the run loop and the receiver do over time *)

Section MoreOperations.

Context `{Ext : Externals} {U : Type}.

(** The loop of [_MessageReceiver] for as many turns as there are
    [reads], each of them what [p.conn.Read] delivers if that turn asks:
    the messages sent on [msgChan], in order. *)
Fixpoint _MessageReceiver (reads : list (list byte * option error))
  : M U (list (option Message)) :=
  match reads with
  | [] => mret []
  | read :: rest =>
      sent ← _MessageReceiver_turn read;
      more ← _MessageReceiver rest;
      mret (match sent with
            | Some msg => msg :: more
            | None => more
            end)
  end.

(** A message that the dispatcher neither correlates nor matches: nil, a
    METHOD_CALL, an ERROR or an unknown type. *)
Definition uncorrelated (msg : option Message) : bool :=
  match msg with
  | None => true
  | Some m =>
      match Type_ m with
      | METHOD_RETURN | SIGNAL => false
      | _ => true
      end
  end.

Definition is_ERROR (msg : option Message) : bool :=
  match msg with
  | Some m => match Type_ m with ERROR => true | _ => false end
  | None => false
  end.

(** The outcome of a computation that stops where a part of it stopped
    with [o]. *)
Definition stopped {A B : Type} (o : outcome A) : outcome B :=
  match o with
  | Panics reason => Panics reason
  | _ => Blocks
  end.

(** What the run loop prints for [incoming]: a line for each ERROR. *)
Definition printed (incoming : list (option Message)) : list string :=
  map (fun _ => "ERROR") (List.filter is_ERROR incoming).

(** The world once [lines] have been printed. *)
Definition after_printing (lines : list string) (w : World U) : World U :=
  {| this := this w; mem := mem w; stdout := (stdout w ++ lines)%list |}.

(** The callback that [_SendSync] registers around [callback]. *)
Definition reply_callback (callback : callback U) (fr : Frame (U:=U))
  : Message -> U -> outcome U :=
  fun rmsg u =>
    match callback rmsg u with
    | Returns u' => Returns (chan_send (recvChan fr) 0 u')
    | other => other
    end.

(** The world in which [_SendSync] starts to wait: the channel made, the
    callback registered, the message written to the socket [c]. *)
Definition sent (msg : Message) (callback : callback U) (fr : Frame (U:=U))
    (env : CallEnv) (c : NetConn) (w : World U) : World U :=
  on_this (set_conn (Some (conn_Write c (fst (_Marshal msg)) (Write_n env))))
    (on_this (set_methodCallReplies
                (insert (uint32 (serial msg)) (reply_callback callback fr)))
       (on_mem (store (recvChan fr) []) w)).

(** The variables of a frame are distinct variables: each one holds what
    was last stored in it, whatever is stored in the others. *)
Record separate (fr : Frame (U:=U)) : Prop := {
  chan_holds : forall q u, load (recvChan fr) (store (recvChan fr) q u) = q;
  ret_holds : forall v u, load (ret_var fr) (store (ret_var fr) v u) = v;
  intro_holds : forall i u, load (intro_var fr) (store (intro_var fr) i u) = i;
  chan_ret : forall v u,
    load (recvChan fr) (store (ret_var fr) v u) = load (recvChan fr) u;
  chan_intro : forall i u,
    load (recvChan fr) (store (intro_var fr) i u) = load (recvChan fr) u;
  ret_chan : forall q u,
    load (ret_var fr) (store (recvChan fr) q u) = load (ret_var fr) u;
  intro_chan : forall q u,
    load (intro_var fr) (store (recvChan fr) q u) = load (intro_var fr) u
}.

(** The message that [Call] hands to [_SendSync]. *)
Definition call_message (m : method) (o : Object) (args : list Value)
    (env : CallEnv) : Message :=
  let msg := with_call_header (NewMessage env) METHOD_CALL o (method_iface m)
               (methodData_.GetName (MethodIntrospect m))
               (methodData_.GetInSignature (MethodIntrospect m)) in
  if (0 <? length args)%nat then with_Params msg args else msg.

(** The message that [Emit] writes. *)
Definition emit_message (s : signal) (o : Object) (args : list Value)
    (env : CallEnv) : Message :=
  with_Params
    (with_call_header (NewMessage env) SIGNAL o (signal_iface s)
       (signalData_.GetName (SignalIntrospect s))
       (signalData_.GetSignature (SignalIntrospect s)))
    args.




End MoreOperations.

(** ** Bus addresses *)

(** The byte [c] occurs in [s]. *)
Fixpoint occurs (c : ascii) (s : string) : bool :=
  match s with
  | EmptyString => false
  | String c' rest => Ascii.eqb c' c || occurs c rest
  end.

(** The pairs [key=value], with commas between them. *)
Fixpoint format_pairs (kvs : list (string * string)) : string :=
  match kvs with
  | [] => ""
  | [(k, v)] => k ++ "=" ++ v
  | (k, v) :: rest => k ++ "=" ++ v ++ "," ++ format_pairs rest
  end.

(** The address [transport:key=value,...]. *)
Definition format_address (transport : string) (kvs : list (string * string))
  : string :=
  transport ++ ":" ++ format_pairs kvs.

(** A key or a value that holds no separator. *)
Definition plain (s : string) : bool :=
  negb (occurs "," s) && negb (occurs "=" s).

(** The map that holds each key with the last value given for it. *)
Definition map_of_pairs (kvs : list (string * string)) : gmap string string :=
  fold_left (fun m kv => <[fst kv := snd kv]> m) kvs ∅.

(** The first element that [test] accepts is at position [j]. *)
Definition first_at {A : Type} (test : A -> bool) (xs : list A) (j : nat)
    (x : A) : Prop :=
  nth_error xs j = Some x /\ test x = true /\
  forall k y, (k < j)%nat -> nth_error xs k = Some y -> test y = false.

(** ** More scenarios *)

Module Scenarios.

Import Examples.

(** The proxy of the bus, and the object and a method behind it. *)
Definition bus_object : Object :=
  {| dest := "org.freedesktop.DBus"; path := "/org/freedesktop/DBus";
     obj_intro := Some dbus_catalog |}.

Definition bus_proxy : _interface :=
  {| obj := Some bus_object; name := "org.freedesktop.DBus";
     iface_intro := Some (interface_of dbus_interface_1) |}.


Definition hello : method :=
  {| method_iface := bus_proxy;
     MethodIntrospect :=
       mk_method "Hello"
         [ {| arg_Name := ""; arg_Type := "s"; arg_Direction := "out" |} ] |}.

Definition name_lost : signal :=
  {| signal_iface := bus_proxy;
     SignalIntrospect :=
       {| signal_Name := "NameLost";
          signal_Arg :=
            [ {| arg_Name := ""; arg_Type := "s"; arg_Direction := "" |} ] |} |}.

(** The socket of a world that has one. *)
Definition socket_of {Ext : Externals} (w : World (Ext:=Ext) Memory) : NetConn :=
  default {| network := ""; address := ""; written := [] |} (conn (this w)).

(** A bus that refuses the authentication. *)
Definition refusing : Externals :=
  {| MatchRule := Rule; _Match := Rule_Match; _ToString := Rule_ToString;
     _Marshal := toy_Marshal; _Unmarshal := toy_Unmarshal;
     Authenticate := fun c => (conn_Write c [Byte.x00] 1, Some "REJECTED");
     xml_Unmarshal := fun _ => (dbus_catalog, None);
     dbusXMLIntro := dbusXMLIntro_text |}.

Definition refused : World (Ext:=refusing) Memory :=
  {| this := match Connect (Ext:=refusing) session dial_ok SessionBus with
             | Returns (Some p, _) => p
             | _ => new_Connection
             end;
     mem := memory0; stdout := [] |}.

(** Messages that the run loop does not correlate, two errors among
    them. *)
Definition traffic : list (option Message) :=
  [ None; Some unknown_service; Some call1;
    Some (blank (OTHER_TYPE 9) 1); Some unknown_service ].




Definition nothing : Message := reply1 METHOD_RETURN [].

(** A callback that panics, pending under the serial 1. *)
Definition fails : callback Memory := fun _ _ => Panics "callback failed".

Definition failing_pending : World (Ext:=bus) Memory :=
  on_this (set_methodCallReplies (fun _ => <[1 := fails]> ∅)) world0.

(** An address that gives its path twice. *)
Definition pairs : list (string * string) :=
  [ ("path", "/tmp/first"); ("guid", "0123"); ("path", "/tmp/second") ].

Definition environ_of (address : string) : gmap string string :=
  {[ "DBUS_SESSION_BUS_ADDRESS" := address ]}.

(** What the socket delivers, turn by turn: a message in two pieces, the
    second with an error, and a byte of the next. *)
Definition reads : list (list byte * option error) :=
  [ ([Byte.x04], None); ([Byte.x00; Byte.x02], Some "EOF"); ([], Some "EOF");
    ([Byte.x01], None) ].

(** What a closed socket delivers. *)
Definition closed : list (list byte * option error) :=
  [ ([], Some "EOF"); ([], Some "EOF"); ([], Some "EOF") ].

End Scenarios.

(** * Properties *)

Lemma outcome_bind_Returns {A B : Type} (o : outcome A) (k : A -> outcome B)
    (b : B) :
  o ≫= k = Returns b -> exists a, o = Returns a /\ k a = Returns b.
Proof. destruct o; simpl; intros H; [eauto | discriminate | discriminate]. Qed.

(** ** Lookups by name: [MethodByName] and [SignalByName] *)

Lemma find_method_first (name : string) (ms : list methodData) :
  (exists data, In data ms /\ method_Name data = name) ->
  exists data, interfaceData_.find_method name ms = Some data.
Proof.
  induction ms as [|v rest IH]; intros [data [Hin Hname]]; simpl in *.
  - contradiction.
  - unfold methodData_.GetName.
    destruct (String.eqb (method_Name v) name) eqn:Heq; [eauto|].
    destruct Hin as [->|Hin].
    + apply String.eqb_neq in Heq. contradiction.
    + apply IH. eauto.
Qed.

Lemma find_method_none (name : string) (ms : list methodData) :
  (forall data, In data ms -> method_Name data <> name) ->
  interfaceData_.find_method name ms = None.
Proof.
  induction ms as [|v rest IH]; intros Hnone; simpl; [reflexivity|].
  unfold methodData_.GetName.
  destruct (String.eqb (method_Name v) name) eqn:Heq.
  - apply String.eqb_eq in Heq. exfalso. apply (Hnone v); simpl; auto.
  - apply IH. intros data Hin. apply Hnone. simpl; auto.
Qed.

Lemma find_signal_first (name : string) (ss : list signalData) :
  (exists data, In data ss /\ signal_Name data = name) ->
  exists data, interfaceData_.find_signal name ss = Some data.
Proof.
  induction ss as [|v rest IH]; intros [data [Hin Hname]]; simpl in *.
  - contradiction.
  - unfold signalData_.GetName.
    destruct (String.eqb (signal_Name v) name) eqn:Heq; [eauto|].
    destruct Hin as [->|Hin].
    + apply String.eqb_neq in Heq. contradiction.
    + apply IH. eauto.
Qed.

Lemma find_signal_none (name : string) (ss : list signalData) :
  (forall data, In data ss -> signal_Name data <> name) ->
  interfaceData_.find_signal name ss = None.
Proof.
  induction ss as [|v rest IH]; intros Hnone; simpl; [reflexivity|].
  unfold signalData_.GetName.
  destruct (String.eqb (signal_Name v) name) eqn:Heq.
  - apply String.eqb_eq in Heq. exfalso. apply (Hnone v); simpl; auto.
  - apply IH. intros data Hin. apply Hnone. simpl; auto.
Qed.

(** C10. For every interface and every name, [MethodByName] panics when the
    introspection data holds no method of that name and returns a non-nil
    handle when it holds one; [SignalByName] does the same for signals. *)
Theorem by_name_panics_or_returns_handle (iface : _interface) (name : string) :
  (has_method iface name ->
     exists m, _interface_.MethodByName iface name = Returns (Some m)) /\
  (~ has_method iface name ->
     exists reason, _interface_.MethodByName iface name = Panics reason) /\
  (has_signal iface name ->
     exists s, _interface_.SignalByName iface name = Returns (Some s)) /\
  (~ has_signal iface name ->
     exists reason, _interface_.SignalByName iface name = Panics reason).
Proof.
  unfold has_method, has_signal, _interface_.MethodByName,
    _interface_.SignalByName, interfaceData_.MethodByName,
    interfaceData_.SignalByName, interfaceData_.GetMethodData,
    interfaceData_.GetSignalData.
  repeat split.
  - intros [intro [data [Hi [Hin Hname]]]]. rewrite Hi.
    destruct (find_method_first name (Methods intro)) as [d ->]; eauto.
  - intros Hnone. destruct (iface_intro iface) as [intro|]; [|eauto].
    rewrite find_method_none; [eauto|].
    intros data Hin Hname. apply Hnone. eauto.
  - intros [intro [data [Hi [Hin Hname]]]]. rewrite Hi.
    destruct (find_signal_first name (Signals intro)) as [d ->]; eauto.
  - intros Hnone. destruct (iface_intro iface) as [intro|]; [|eauto].
    rewrite find_signal_none; [eauto|].
    intros data Hin Hname. apply Hnone. eauto.
Qed.

(** The proxy of the bus has the two methods that dbus.go looks up. *)
Example proxy_has_Hello_and_AddMatch :
  exists iface hello addMatch,
    _GetProxy (Ext:=Examples.bus) = Returns iface /\
    _interface_.MethodByName iface "Hello" = Returns (Some hello) /\
    _interface_.MethodByName iface "AddMatch" = Returns (Some addMatch) /\
    _interface_.MethodByName iface "Goodbye" = Panics "invalid method".
Proof. vm_compute. eauto 8. Qed.

(** ** [Connect] *)

Section ConnectProperties.

Context `{Ext : Externals} {U : Type}.
Variable dial_err : string -> string -> option error.

(** With DBUS_SYSTEM_BUS_ADDRESS unset, the system bus is reached at the
    fixed socket path. *)
Lemma Connect_system_fallback (environ : gmap string string) :
  environ !! "DBUS_SYSTEM_BUS_ADDRESS" = None ->
  bus_address environ SystemBus
    = Some "unix:path=/var/run/dbus/system_bus_socket" /\
  Connect (U:=U) environ dial_err SystemBus
    = match net_Dial dial_err "unix" "/var/run/dbus/system_bus_socket" with
      | (_, Some err) => Returns (None, Some err)
      | (c, None) =>
          Returns (Some (set_conn c (set_addressMap
            {[ "path" := "/var/run/dbus/system_bus_socket" ]}
            new_Connection)), None)
      end.
Proof.
  intros Hunset. unfold Connect, bus_address, os_Getenv. rewrite Hunset.
  split; reflexivity.
Qed.

(** Once the address has been cut into its transport and its map of
    keys, a [path] is dialed as it is, an [abstract] with ["@"] in front,
    and an address with neither is refused. *)
Lemma Connect_dials (environ : gmap string string) (busType : Z)
    (address transport pairs : string) (m : gmap string string) :
  bus_address environ busType = Some address ->
  String.length address <> 0%nat ->
  slice_to address (strings.Index address ":") = Returns transport ->
  slice_from address (Z.of_nat (String.length transport) + 1) = Returns pairs ->
  fill_addressMap (strings.Split pairs ",") ∅ = Returns m ->
  let bus := set_addressMap m (new_Connection (U:=U)) in
  let dialed a :=
    match dial_err transport a with
    | Some err => Returns (None, Some err)
    | None =>
        Returns (Some (set_conn
          (Some {| network := transport; address := a; written := [] |})
          bus), None)
    end in
  Connect environ dial_err busType
    = match m !! "path", m !! "abstract" with
      | Some a, _ => dialed a
      | None, Some a => dialed ("@" ++ a)
      | None, None => Returns (None, Some "Unknown address key")
      end.
Proof.
  intros Haddr Hlen Ht Hp Hm. unfold Connect. rewrite Haddr.
  destruct (String.length address =? 0)%nat eqn:Hz.
  { apply Nat.eqb_eq in Hz. contradiction. }
  rewrite Ht. simpl. rewrite Hp. simpl. rewrite Hm. simpl.
  unfold net_Dial.
  destruct (m !! "path") as [a|].
  - destruct (dial_err transport a); reflexivity.
  - destruct (m !! "abstract") as [a|]; [|reflexivity].
    destruct (dial_err transport ("@" ++ a)); reflexivity.
Qed.

(** C7. The address [autolaunch:], which has neither key, does not make
    [Connect] return an error: the index [pair[1]] is out of range and
    the call panics. *)
Theorem Connect_autolaunch_panics :
  Connect (U:=U)
    {[ "DBUS_SESSION_BUS_ADDRESS" := "autolaunch:" ]} dial_err SessionBus
  = Panics "index out of range".
Proof. reflexivity. Qed.

(** An address without a colon panics as well, in the slice expression. *)
Lemma Connect_no_colon_panics :
  Connect (U:=U)
    {[ "DBUS_SESSION_BUS_ADDRESS" := "unix" ]} dial_err SessionBus
  = Panics "slice bounds out of range".
Proof. reflexivity. Qed.

End ConnectProperties.

(** ** Computations *)

Section MonadLaws.

Context `{Ext : Externals} {U : Type}.

Implicit Types (P : World U -> Prop) (Q : Connection U -> Prop).

Lemma run_eta {A : Type} (r : run (U:=U) A) :
  {| result := result r; final := final r; history := history r |} = r.
Proof. destruct r; reflexivity. Qed.

Lemma bind_ret_l {A B : Type} (a : A) (k : A -> M U B) (w : World U) :
  (mret a ≫= k) w = k a w.
Proof.
  unfold mbind, M_bind, mret, M_ret, bind, ret; simpl. apply run_eta.
Qed.

Lemma bind_get {B : Type} (k : World U -> M U B) (w : World U) :
  (get ≫= k) w = k w w.
Proof. unfold mbind, M_bind, bind, get; simpl. apply run_eta. Qed.

Lemma bind_ext {A B : Type} (m : M U A) (k k' : A -> M U B) (w : World U) :
  (forall a w', k a w' = k' a w') -> (m ≫= k) w = (m ≫= k') w.
Proof.
  intros Hk. unfold mbind, M_bind, bind.
  destruct (result (m w)); [rewrite Hk|..]; reflexivity.
Qed.

Lemma bind_step {B : Type} (f : World U -> World U) (k : unit -> M U B)
    (w : World U) :
  (step f ≫= k) w
  = {| result := result (k tt (f w)); final := final (k tt (f w));
       history := f w :: history (k tt (f w)) |}.
Proof. reflexivity. Qed.

Lemma keeps_ret {A : Type} P (a : A) : keeps P (mret a).
Proof. intros w Hw. split; [exact Hw | constructor]. Qed.

Lemma keeps_panic {A : Type} P reason : keeps (A:=A) P (panic reason).
Proof. intros w Hw. split; [exact Hw | constructor]. Qed.

Lemma keeps_block {A : Type} P : keeps (A:=A) P block.
Proof. intros w Hw. split; [exact Hw | constructor]. Qed.

Lemma keeps_get P : keeps P get.
Proof. intros w Hw. split; [exact Hw | constructor]. Qed.

Lemma keeps_lift {A : Type} P (o : outcome A) : keeps P (lift o).
Proof.
  destruct o; [apply keeps_ret | apply keeps_block | apply keeps_panic].
Qed.

Lemma keeps_step P (f : World U -> World U) :
  (forall w, P w -> P (f w)) -> keeps P (step f).
Proof. intros Hf w Hw. simpl. auto. Qed.

Lemma keeps_bind {A B : Type} P (m : M U A) (k : A -> M U B) :
  keeps P m -> (forall a, keeps P (k a)) -> keeps P (m ≫= k).
Proof.
  intros Hm Hk w Hw. destruct (Hm w Hw) as [Hf Hh].
  unfold mbind, M_bind, bind.
  destruct (result (m w)) as [a| |reason]; simpl; auto.
  destruct (Hk a _ Hf) as [Hf' Hh']. split; [exact Hf'|].
  apply Forall_app; auto.
Qed.

Lemma keeps_invoke Q (f : callback U) (msg : Message) :
  keeps (of_this Q) (invoke f msg).
Proof.
  intros w Hw. unfold invoke.
  destruct (f msg (mem w)); simpl; auto.
Qed.

Lemma keeps_on_mem Q (f : U -> U) : keeps (of_this Q) (step (on_mem f)).
Proof. apply keeps_step. auto. Qed.

Lemma keeps_Println Q (s : string) : keeps (of_this Q) (step (Println s)).
Proof. apply keeps_step. auto. Qed.

Lemma keeps_on_this (Q : Connection U -> Prop) (f : Connection U -> Connection U) :
  (forall p, Q p -> Q (f p)) -> keeps (of_this Q) (step (on_this f)).
Proof. intros Hf. apply keeps_step. unfold of_this. simpl. auto. Qed.

Lemma keeps_invoke_all Q (fs : list (callback U)) (msg : Message) :
  keeps (of_this Q) (invoke_all fs msg).
Proof.
  induction fs as [|f rest IH]; simpl.
  - apply keeps_ret.
  - apply keeps_bind; [apply keeps_invoke | intros _; exact IH].
Qed.

End MonadLaws.

(** ** The dispatcher *)

Section DispatchProperties.

Context `{Ext : Externals} {U : Type}.

Implicit Types (w : World U) (m : Message).

(** C1, as the code has it. An ERROR message is not correlated with the
    pending calls: whatever its reply serial, the dispatcher prints
    ["ERROR"] and does nothing else, so no entry is removed and no
    callback is invoked. *)
Theorem ERROR_is_printed_and_not_delivered w m :
  Type_ m = ERROR ->
  let r := _MessageDispatch (Some m) w in
  result r = Returns tt /\
  history r = [final r] /\
  final r = Println "ERROR" w /\
  methodCallReplies (this (final r)) = methodCallReplies (this w) /\
  mem (final r) = mem w /\
  stdout (final r) = (stdout w ++ ["ERROR"])%list.
Proof.
  intros Ht. unfold _MessageDispatch. rewrite Ht. simpl. repeat split.
Qed.

(** C2. A METHOD_RETURN whose reply serial is registered invokes the
    callback registered under that serial, once, then removes that entry
    and no other; with no entry under the serial the message is dropped
    and nothing changes. *)
Theorem METHOD_RETURN_invokes_and_removes_its_entry w m :
  Type_ m = METHOD_RETURN ->
  let S := replySerial m in
  let r := _MessageDispatch (Some m) w in
  (forall replyFunc u',
      methodCallReplies (this w) !! S = Some replyFunc ->
      replyFunc m (mem w) = Returns u' ->
      result r = Returns tt /\
      history r = [on_mem (fun _ => u') w; final r] /\
      final r = on_this (set_methodCallReplies (delete S))
                  (on_mem (fun _ => u') w) /\
      methodCallReplies (this (final r)) !! S = None /\
      (forall S', S' <> S ->
         methodCallReplies (this (final r)) !! S'
         = methodCallReplies (this w) !! S')) /\
  (methodCallReplies (this w) !! S = None ->
      result r = Returns tt /\ final r = w /\ history r = []).
Proof.
  intros Ht S r. subst S r. unfold _MessageDispatch. rewrite Ht.
  cbv zeta. rewrite bind_get. split.
  - intros replyFunc u' Hreg Hcall. rewrite Hreg.
    unfold mbind, M_bind, bind, invoke. rewrite Hcall. simpl.
    repeat split.
    + apply lookup_delete_eq.
    + intros S' Hne. apply lookup_delete_ne. congruence.
  - intros Hnone. rewrite Hnone. repeat split.
Qed.

Lemma range_is_invoke_all (handlers : list (signalHandler U)) m w :
  range_signalMatchRules handlers m w
  = invoke_all (map proc (matching m handlers)) m w.
Proof.
  revert w. induction handlers as [|handler rest IH]; intros w; simpl.
  - reflexivity.
  - destruct (_Match (mr handler) m); simpl.
    + apply bind_ext. intros _ w'. apply IH.
    + rewrite bind_ret_l. apply IH.
Qed.

Lemma matching_none (handlers : list (signalHandler U)) m :
  (forall handler, In handler handlers -> _Match (mr handler) m = false) ->
  matching m handlers = [].
Proof.
  unfold matching. induction handlers as [|h rest IH]; intros Hnone; simpl.
  - reflexivity.
  - rewrite (Hnone h) by (simpl; auto). apply IH.
    intros h' Hin. apply Hnone. simpl; auto.
Qed.

(** C4. A SIGNAL goes through the registered pairs in the order of their
    registration and invokes the handler of every pair whose rule
    matches, and of no other; the connection itself is not touched, and
    when no rule matches nothing happens at all. *)
Theorem SIGNAL_invokes_matching_handlers_in_order w m :
  Type_ m = SIGNAL ->
  let r := _MessageDispatch (Some m) w in
  r = invoke_all (map proc (matching m (signalMatchRules (this w)))) m w /\
  this (final r) = this w /\
  Forall (fun w' => this w' = this w) (history r) /\
  ((forall handler, In handler (signalMatchRules (this w)) ->
      _Match (mr handler) m = false) ->
   result r = Returns tt /\ final r = w /\ history r = []).
Proof.
  intros Ht r.
  assert (Hr : r = invoke_all
                     (map proc (matching m (signalMatchRules (this w)))) m w).
  { subst r. unfold _MessageDispatch. rewrite Ht, bind_get.
    apply range_is_invoke_all. }
  split; [exact Hr|]. rewrite Hr.
  pose proof (keeps_invoke_all (fun p => p = this w)
                (map proc (matching m (signalMatchRules (this w)))) m w
                eq_refl) as [Hf Hh].
  split; [exact Hf|]. split; [exact Hh|].
  intros Hnone. rewrite (matching_none _ _ Hnone). repeat split.
Qed.

End DispatchProperties.

(** ** The receive side *)

Section ReceiveProperties.

Context `{Ext : Externals} {U : Type}.

Implicit Types (w : World U).

(** A negative count from the decoder stops the program before anything
    is removed. *)
Lemma _PopMessage_negative_count w msg n :
  _Unmarshal (buffer (this w)) = (msg, n, None) -> n < 0 ->
  exists reason,
    result (_PopMessage w) = Panics reason /\ final (_PopMessage w) = w.
Proof.
  intros Hdec Hn. unfold _PopMessage. rewrite bind_get, Hdec.
  destruct (n <? 0) eqn:Hneg; [|lia]. eexists. split; reflexivity.
Qed.

(** C6. When the decoder fails on the buffer, whatever the error,
    [_PopMessage] removes nothing and the receiver only appends what it
    reads; when the decoder succeeds, the bytes removed are the first [n]
    of the buffer, [n] being the count the decoder reports. *)
Theorem _PopMessage_removes_exactly_what_was_decoded
    w msg n err (read : list byte * option error) :
  _Unmarshal (buffer (this w)) = (msg, n, err) ->
  let pop := _PopMessage w in
  let turn := _MessageReceiver_turn read w in
  (forall e, err = Some e ->
     result pop = Returns (None, Some e) /\ final pop = w /\
     history pop = [] /\
     result turn = Returns None /\
     buffer (this (final turn))
     = (buffer (this w) ++ firstn 4096 (fst read))%list) /\
  (err = None -> 0 <= n ->
     result pop = Returns (msg, None) /\
     buffer (this (final pop)) = drop (Z.to_nat n) (buffer (this w)) /\
     result turn = Returns (Some msg) /\ final turn = final pop) /\
  (err = None -> 0 <= n <= Z.of_nat (length (buffer (this w))) ->
     Z.of_nat (length (buffer (this (final pop))))
     = Z.of_nat (length (buffer (this w))) - n).
Proof.
  intros Hdec pop turn. subst pop turn.
  unfold _MessageReceiver_turn, _PopMessage.
  split; [|split].
  - intros e ->.
    unfold mbind, M_bind, bind, get; simpl; rewrite Hdec; simpl.
    repeat split.
  - intros -> Hn.
    unfold mbind, M_bind, bind, get; simpl; rewrite Hdec; simpl.
    destruct (n <? 0) eqn:Hneg; [lia|]. simpl. repeat split.
  - intros -> Hn.
    unfold mbind, M_bind, bind, get; simpl; rewrite Hdec; simpl.
    destruct (n <? 0) eqn:Hneg; [lia|]. simpl.
    rewrite length_drop. lia.
Qed.

End ReceiveProperties.

(** ** Calls *)

Ltac keeps_auto :=
  repeat first
    [ simple apply keeps_ret | simple apply keeps_panic
    | simple apply keeps_block | simple apply keeps_get
    | simple apply keeps_lift | simple apply keeps_on_mem
    | simple apply keeps_Println | simple apply keeps_invoke
    | assumption
    | simple apply keeps_on_this; solve [auto]
    | simple apply keeps_bind; [|intro]
    | match goal with
      | |- keeps _ (match ?x with _ => _ end) => destruct x
      | |- keeps _ (if ?x then _ else _) => destruct x
      end ].

Section CallProperties.

Context `{Ext : Externals} {U : Type}.

Implicit Types (w : World U) (fr : Frame (U:=U)) (env : CallEnv).

Lemma result_bind_Returns {A B : Type} (m : M U A) (k : A -> M U B) w b :
  result ((m ≫= k) w) = Returns b ->
  exists a, result (m w) = Returns a /\
            result (k a (final (m w))) = Returns b.
Proof.
  unfold mbind, M_bind, bind.
  destruct (result (m w)) as [a| |reason]; simpl; intros H;
    [eauto | discriminate | discriminate].
Qed.

(** What holds of the connection through a call, given that it survives
    the two assignments a call makes. *)
Section Through.

Variable Q : Connection U -> Prop.
Hypothesis Q_replies : forall f p, Q p -> Q (set_methodCallReplies f p).
Hypothesis Q_conn : forall c p, Q p -> Q (set_conn c p).

Lemma keeps_range handlers msg :
  keeps (of_this Q) (range_signalMatchRules handlers msg).
Proof. induction handlers as [|h rest IH]; simpl; keeps_auto. Qed.

Lemma keeps_MessageDispatch msg : keeps (of_this Q) (_MessageDispatch msg).
Proof.
  unfold _MessageDispatch. destruct msg as [m|]; [|keeps_auto].
  destruct (Type_ m); keeps_auto. apply keeps_range.
Qed.

Lemma keeps_RunLoop incoming : keeps (of_this Q) (_RunLoop incoming).
Proof.
  induction incoming as [|msg rest IH]; simpl; keeps_auto.
  apply keeps_MessageDispatch.
Qed.

Lemma keeps_chan_recv ch incoming : keeps (of_this Q) (chan_recv ch incoming).
Proof.
  induction incoming as [|msg rest IH]; intros w Hw; simpl;
    destruct (load ch (mem w)) as [|x queue].
  - split; [exact Hw|constructor].
  - revert w Hw. change (keeps (of_this Q)
      (step (on_mem (store ch queue)) ≫= fun _ => mret x)). keeps_auto.
  - revert w Hw. change (keeps (of_this Q)
      (_MessageDispatch msg ≫= fun _ => chan_recv ch rest)).
    keeps_auto. apply keeps_MessageDispatch.
  - revert w Hw. change (keeps (of_this Q)
      (step (on_mem (store ch queue)) ≫= fun _ => mret x)). keeps_auto.
Qed.

Lemma keeps_conn_write buff env : keeps (of_this Q) (conn_write buff env).
Proof. unfold conn_write. keeps_auto. Qed.

Lemma keeps_SendSync msg (f : callback U) fr env :
  keeps (of_this Q) (_SendSync msg f fr env).
Proof.
  unfold _SendSync. keeps_auto.
  - apply keeps_conn_write.
  - apply keeps_chan_recv.
Qed.

Lemma keeps_Call method args fr env :
  keeps (of_this Q) (Call method args fr env).
Proof. unfold Call. keeps_auto. apply keeps_SendSync. Qed.

Lemma keeps_proxy_MethodByName name :
  keeps (of_this Q) (proxy_MethodByName name).
Proof. unfold proxy_MethodByName. keeps_auto. Qed.

Lemma keeps_Emit signal args env : keeps (of_this Q) (Emit signal args env).
Proof. unfold Emit. keeps_auto. apply keeps_conn_write. Qed.

Lemma keeps_Object dest path fr env :
  keeps (of_this Q) (Connection_Object dest path fr env).
Proof.
  unfold Connection_Object, _GetIntrospect. keeps_auto.
  apply keeps_SendSync.
Qed.

End Through.

(** C9. Whenever [Call] returns, its error result is nil, whatever
    [_Marshal] and [conn.Write] answered on the way; [_SendSync] itself
    returns nothing but nil. *)
Theorem Call_error_is_always_nil w method args fr env ret err :
  result (Call method args fr env w) = Returns (ret, err) ->
  err = None /\
  (forall msg (f : callback U) w' e,
     result (_SendSync msg f fr env w') = Returns e -> e = None).
Proof.
  intros Hcall. split.
  - unfold Call in Hcall.
    destruct method as [m|]; [|discriminate].
    destruct (obj (method_iface m)) as [o|]; [|discriminate].
    apply result_bind_Returns in Hcall as [_ [_ Hcall]].
    apply result_bind_Returns in Hcall as [_ [_ Hcall]].
    rewrite bind_get in Hcall. simpl in Hcall. congruence.
  - intros msg f w' e Hsend. unfold _SendSync in Hsend.
    apply result_bind_Returns in Hsend as [_ [_ Hsend]].
    apply result_bind_Returns in Hsend as [_ [_ Hsend]].
    destruct (_Marshal msg) as [buff merr].
    apply result_bind_Returns in Hsend as [_ [_ Hsend]].
    apply result_bind_Returns in Hsend as [_ [_ Hsend]].
    simpl in Hsend. congruence.
Qed.

(** C5. The first thing [Handle] does is to append the pair to
    [signalMatchRules], with the socket as it was; the pair is there in
    every later world of the call, so in every world in which something
    has been written to the bus. With a nil rule [Handle] panics before
    any effect. *)
Theorem Handle_registers_before_AddMatch w (r : MatchRule)
    (handler : callback U) fr env :
  let pair := {| mr := r; proc := handler |} in
  let registered := (signalMatchRules (this w) ++ [pair])%list in
  let run := Handle (Some r) handler fr env w in
  head (history run)
    = Some (on_this (set_signalMatchRules
              (fun rules => (rules ++ [pair])%list)) w) /\
  Forall (fun w' => signalMatchRules (this w') = registered) (history run) /\
  signalMatchRules (this (final run)) = registered /\
  (forall i w', history run !! i = Some w' ->
     conn (this w') <> conn (this w) ->
     (0 < i)%nat /\ signalMatchRules (this w') = registered) /\
  history (Handle None handler fr env w) = [].
Proof.
  intros pair registered run.
  set (w1 := on_this (set_signalMatchRules (fun _ => registered)) w).
  set (rest := (proxy_MethodByName "AddMatch" ≫= fun addMatch =>
                Call addMatch [VString (_ToString r)] fr env ≫= fun _ =>
                mret tt) : M U unit).
  assert (Hrun : run = {| result := result (rest w1); final := final (rest w1);
                          history := w1 :: history (rest w1) |}) by reflexivity.
  assert (Hkeep : keeps (of_this (fun p => signalMatchRules p = registered))
                    rest).
  { unfold rest. keeps_auto.
    - apply keeps_proxy_MethodByName; auto.
    - apply keeps_Call; auto. }
  destruct (Hkeep w1 eq_refl) as [Hfinal Hhist].
  rewrite Hrun. simpl. split; [reflexivity|].
  split; [constructor; [reflexivity|exact Hhist]|].
  split; [exact Hfinal|]. split; [|reflexivity].
  intros i w' Hi Hconn. destruct i as [|i]; simpl in Hi.
  - inversion Hi; subst w'. exfalso. apply Hconn. reflexivity.
  - split; [lia|]. rewrite Forall_forall in Hhist. apply Hhist.
    eapply list_elem_of_lookup_2. eassumption.
Qed.

End CallProperties.

(** ** The unique name *)

Section UniqNameProperties.

Context `{Ext : Externals} {U : Type}.

Implicit Types (w : World U) (fr : Frame (U:=U)) (env : CallEnv).

Lemma keeps_perform (s : string) (op : operation (U:=U)) :
  keeps (named s) (perform op).
Proof.
  unfold named.
  destruct op; unfold perform.
  - unfold Initialize, _Auth, _SendHello. keeps_auto.
    + apply keeps_proxy_MethodByName; auto.
    + apply keeps_Call; auto.
  - keeps_auto. apply keeps_Call; auto.
  - keeps_auto. apply keeps_Emit; auto.
  - keeps_auto. apply keeps_Object; auto.
  - unfold Handle. keeps_auto.
    + apply keeps_proxy_MethodByName; auto.
    + apply keeps_Call; auto.
  - apply keeps_MessageDispatch; auto.
  - unfold _PopMessage. keeps_auto.
  - unfold _UpdateBuffer. keeps_auto.
  - unfold _MessageReceiver_turn, _PopMessage, _UpdateBuffer. keeps_auto.
  - apply keeps_RunLoop; auto.
Qed.

Lemma Connect_leaves_no_name environ dial_err busType
    (p : Connection U) (e : option error) :
  Connect environ dial_err busType = Returns (Some p, e) -> uniqName p = "".
Proof.
  unfold Connect, net_Dial. intros H.
  destruct (bus_address environ busType) as [address|]; [|discriminate].
  destruct (String.length address =? 0)%nat; [discriminate|].
  apply outcome_bind_Returns in H as [transport [_ H]].
  apply outcome_bind_Returns in H as [pairs [_ H]].
  apply outcome_bind_Returns in H as [m [_ H]].
  destruct (m !! "path") as [a|].
  - destruct (dial_err transport a); inversion H; reflexivity.
  - destruct (m !! "abstract") as [a|]; [|discriminate].
    destruct (dial_err transport ("@" ++ a)); inversion H; reflexivity.
Qed.

(** C3, as the code has it. No statement of dbus.go assigns [uniqName]:
    [Connect] returns a connection whose unique name is empty, and
    [Initialize] (whatever the reply to Hello), [Call], [Emit], [Object],
    [Handle] and the receive and dispatch loops leave the name as it
    was, in every world they pass through. *)
Theorem uniqName_is_never_assigned :
  (forall environ dial_err busType (p : Connection U) e,
     Connect environ dial_err busType = Returns (Some p, e) ->
     uniqName p = "") /\
  (forall op w,
     uniqName (this (final (perform op w))) = uniqName (this w) /\
     Forall (fun w' => uniqName (this w') = uniqName (this w))
       (history (perform op w))) /\
  (forall ops w,
     Forall (fun w' => uniqName (this w') = uniqName (this w))
       (perform_all ops w)).
Proof.
  split; [exact Connect_leaves_no_name|].
  assert (Hop : forall op w,
     uniqName (this (final (perform op w))) = uniqName (this w) /\
     Forall (fun w' => uniqName (this w') = uniqName (this w))
       (history (perform op w))).
  { intros op w. exact (keeps_perform (uniqName (this w)) op w eq_refl). }
  split; [exact Hop|].
  intros ops. induction ops as [|op rest IH]; intros w; simpl.
  - constructor.
  - destruct (Hop op w) as [Hf Hh].
    apply Forall_app. split; [exact Hh|].
    constructor; [exact Hf|].
    eapply Forall_impl; [apply IH|].
    intros w' Hw'. simpl in Hw'. congruence.
Qed.

End UniqNameProperties.

(** ** The wire format: decoding what was encoded *)

Module CodecProperties.

Import Codec.

(** *** Bytes and integers *)

Lemma Z_of_byte_of_Z (z : Z) : Z_of_byte (byte_of_Z z) = z mod 256.
Proof.
  unfold Z_of_byte, byte_of_Z.
  assert (Hr : 0 <= z mod 256 < 256) by (apply Z.mod_pos_bound; lia).
  destruct (Byte.of_N (Z.to_N (z mod 256))) as [b|] eqn:Hb; simpl.
  - apply Byte.to_of_N in Hb. rewrite Hb. lia.
  - apply Byte.of_N_None_iff in Hb. lia.
Qed.

Lemma length_le_bytes (k : nat) (z : Z) : length (le_bytes k z) = k.
Proof. revert z. induction k as [|k IH]; intros z; simpl; auto. Qed.

Lemma le_value_le_bytes (k : nat) (z : Z) :
  le_value (le_bytes k z) = z mod 256 ^ Z.of_nat k.
Proof.
  revert z. induction k as [|k IH]; intros z.
  - simpl. rewrite Z.mod_1_r. reflexivity.
  - cbn [le_bytes le_value]. rewrite Z_of_byte_of_Z, IH.
    rewrite Nat2Z.inj_succ, Z.pow_succ_r by lia.
    rewrite Z.rem_mul_r by lia. reflexivity.
Qed.

Lemma le_value_small (k : nat) (z : Z) :
  0 <= z < 256 ^ Z.of_nat k -> le_value (le_bytes k z) = z.
Proof. intros H. rewrite le_value_le_bytes. apply Z.mod_small. exact H. Qed.

Lemma signed_mod (bits n : Z) :
  0 < bits -> - 2 ^ (bits - 1) <= n < 2 ^ (bits - 1) ->
  signed bits (n mod 2 ^ bits) = n.
Proof.
  intros Hb Hn. unfold signed.
  assert (Hp : 2 ^ bits = 2 * 2 ^ (bits - 1)).
  { rewrite <- Z.pow_succ_r by lia. f_equal. lia. }
  assert (Hpos : 0 < 2 ^ (bits - 1)) by (apply Z.pow_pos_nonneg; lia).
  destruct (Z_lt_le_dec n 0) as [Hneg|Hnonneg].
  - assert (Hm : n mod 2 ^ bits = n + 2 ^ bits).
    { symmetry. apply (Z.mod_unique _ _ (-1)); lia. }
    rewrite Hm. destruct (Z.ltb_spec (n + 2 ^ bits) (2 ^ (bits - 1))); lia.
  - rewrite Z.mod_small by lia.
    destruct (Z.ltb_spec n (2 ^ (bits - 1))); lia.
Qed.

(** *** Pieces of the input *)

Lemma take_bytes_app (xs rest : list byte) :
  take_bytes (length xs) (xs ++ rest) = Some (xs, rest).
Proof.
  unfold take_bytes. rewrite length_app.
  destruct (Nat.leb_spec (length xs) (length xs + length rest)); [|lia].
  rewrite take_app_length, drop_app_length. reflexivity.
Qed.

Lemma length_zeros (n : nat) : length (zeros n) = n.
Proof. apply repeat_length. Qed.

Lemma take_padding (n : nat) (rest : list byte) :
  take_bytes n (zeros n ++ rest) = Some (zeros n, rest).
Proof.
  rewrite <- (length_zeros n) at 1. apply take_bytes_app.
Qed.

Lemma decode_uint_le_bytes (k : nat) (z : Z) (rest : list byte) :
  decode_uint k (le_bytes k z ++ rest) = Some (z mod 256 ^ Z.of_nat k, rest).
Proof.
  unfold decode_uint.
  rewrite <- (length_le_bytes k z) at 1. rewrite take_bytes_app. simpl.
  rewrite le_value_le_bytes. reflexivity.
Qed.

Lemma length_list_byte_of_string (s : string) :
  length (list_byte_of_string s) = String.length s.
Proof.
  induction s as [|c s IH]; simpl; [reflexivity|].
  f_equal. exact IH.
Qed.

Lemma length_encode_text (k : nat) (s : string) :
  length (encode_text k s) = (k + String.length s + 1)%nat.
Proof.
  unfold encode_text.
  rewrite !length_app, length_le_bytes.
  rewrite length_list_byte_of_string. simpl. lia.
Qed.

Lemma decode_text_encode_text (k : nat) (s : string) (rest : list byte) :
  Z.of_nat (String.length s) < 256 ^ Z.of_nat k ->
  decode_text k (encode_text k s ++ rest)
  = Some (s, (k + String.length s + 1)%nat, rest).
Proof.
  intros Hlen. unfold decode_text, encode_text.
  rewrite <- !app_assoc, decode_uint_le_bytes. simpl.
  rewrite Z.mod_small by lia. rewrite Nat2Z.id.
  rewrite <- (length_list_byte_of_string s) at 1.
  rewrite take_bytes_app. simpl.
  rewrite string_of_list_byte_of_string. reflexivity.
Qed.

(** *** Induction on nested types and values *)


Lemma ty_nested_ind (P : ty -> Prop) :
  (forall t, (forall sub, component sub t -> P sub) -> P t) ->
  forall t, P t.
Proof.
  intros H. fix IH 1. intros t. apply H.
  destruct t as [| | | | | | | | | | | |elem|fields|key value|]; simpl;
    intros sub Hsub; try contradiction.
  - subst sub. apply IH.
  - revert sub Hsub.
    induction fields as [|t rest IHrest]; intros sub Hsub;
      [contradiction|].
    destruct Hsub as [<-|Hin]; [apply IH | apply IHrest; exact Hin].
  - destruct Hsub as [->| ->]; apply IH.
Qed.


Lemma Value_nested_ind (P : Value -> Prop) :
  (forall v, (forall sub, part sub v -> P sub) -> P v) ->
  forall v, P v.
Proof.
  intros H. fix IH 1. intros v. apply H.
  destruct v as [| | | | | | | | | | | |elem items|fields|key value|t v];
    simpl; intros sub Hsub; try contradiction.
  - revert sub Hsub.
    induction items as [|x rest IHrest]; intros sub Hsub; [contradiction|].
    destruct Hsub as [<-|Hin]; [apply IH | apply IHrest; exact Hin].
  - revert sub Hsub.
    induction fields as [|x rest IHrest]; intros sub Hsub; [contradiction|].
    destruct Hsub as [<-|Hin]; [apply IH | apply IHrest; exact Hin].
  - destruct Hsub as [->| ->]; apply IH.
  - subst sub. apply IH.
Qed.

(** *** Signatures *)

Lemma append_nil_l (s : string) : "" ++ s = s.
Proof. reflexivity. Qed.

Lemma append_cons (c : ascii) (s1 s2 : string) :
  String c s1 ++ s2 = String c (s1 ++ s2).
Proof. reflexivity. Qed.

Lemma append_nil_r (s : string) : s ++ "" = s.
Proof.
  induction s as [|c s IH]; [reflexivity|]. rewrite append_cons, IH.
  reflexivity.
Qed.

Lemma length_append (s1 s2 : string) :
  String.length (s1 ++ s2) = (String.length s1 + String.length s2)%nat.
Proof.
  induction s1 as [|c s1 IH]; [reflexivity|].
  rewrite append_cons. simpl. rewrite IH. reflexivity.
Qed.

Lemma append_assoc (s1 s2 s3 : string) : (s1 ++ s2) ++ s3 = s1 ++ (s2 ++ s3).
Proof.
  induction s1 as [|c s1 IH]; [reflexivity|].
  rewrite !append_cons, IH. reflexivity.
Qed.

Ltac strings := rewrite ?append_assoc, ?append_cons, ?append_nil_l in *.

(** A signature never starts with a closing parenthesis. *)
Lemma sig_of_head (t : ty) :
  exists c s, sig_of t = String c s /\ Ascii.eqb c ")" = false.
Proof. destruct t; cbn [sig_of]; strings; eauto. Qed.

Lemma parse_fields_join (fields : list ty) :
  (forall t, In t fields ->
     forall fuel rest, (String.length (sig_of t) < fuel)%nat ->
       parse_ty fuel (sig_of t ++ rest) = Some (t, rest)) ->
  forall fuel rest,
    (String.length (join sig_of fields) + 1 < fuel)%nat ->
    parse_fields fuel (join sig_of fields ++ String ")" rest)
    = Some (fields, rest).
Proof.
  induction fields as [|t ts IHts]; intros Hall fuel rest Hfuel.
  - destruct fuel; [lia|]. reflexivity.
  - destruct fuel as [|fuel]; [lia|].
    cbn [join] in *. rewrite length_append in Hfuel. rewrite append_assoc.
    destruct (sig_of_head t) as (c & s & Hs & Hc).
    assert (Hone : (0 < String.length (sig_of t))%nat)
      by (rewrite Hs; simpl; lia).
    cbn [parse_fields]. rewrite Hs at 1. rewrite append_cons, Hc.
    rewrite (Hall t (or_introl eq_refl)) by lia. simpl.
    rewrite IHts; [reflexivity| |lia].
    intros t' Hin. apply Hall. right. exact Hin.
Qed.

Lemma parse_ty_array (fuel : nat) (rest : string) :
  parse_ty (S fuel) (String "a" rest)
  = match parse_ty fuel rest with
    | Some (elem, rest') => Some (TArray elem, rest')
    | None => None
    end.
Proof. reflexivity. Qed.

Lemma parse_ty_struct (fuel : nat) (rest : string) :
  parse_ty (S fuel) (String "(" rest)
  = match parse_fields fuel rest with
    | Some (t :: ts, rest') => Some (TStruct (t :: ts), rest')
    | _ => None
    end.
Proof. reflexivity. Qed.

Lemma parse_ty_dict_entry (fuel : nat) (rest : string) :
  parse_ty (S fuel) (String "{" rest)
  = match parse_ty fuel rest with
    | Some (key, rest') =>
        match parse_ty fuel rest' with
        | Some (value, String c' rest'') =>
            if Ascii.eqb c' "}" then Some (TDictEntry key value, rest'')
            else None
        | _ => None
        end
    | None => None
    end.
Proof. reflexivity. Qed.

Lemma parse_ty_sig_of (t : ty) :
  proper_ty t ->
  forall fuel rest,
    (String.length (sig_of t) < fuel)%nat ->
    parse_ty fuel (sig_of t ++ rest) = Some (t, rest).
Proof.
  induction t as [t IH] using ty_nested_ind.
  intros Hproper fuel rest Hfuel.
  destruct fuel as [|fuel]; [lia|].
  destruct t as [| | | | | | | | | | | |elem|fields|key value|];
    try reflexivity.
  - (* array *)
    inversion Hproper as [| | | | | | | | | | | | |? Helem| |]; subst.
    cbn [sig_of] in *. strings. simpl in Hfuel. rewrite parse_ty_array.
    rewrite (IH elem eq_refl Helem) by lia. reflexivity.
  - (* struct *)
    inversion Hproper as [| | | | | | | | | | | | | |? Hne Hall|]; subst.
    cbn [sig_of] in *. strings.
    simpl in Hfuel. rewrite length_append in Hfuel. simpl in Hfuel.
    rewrite parse_ty_struct, parse_fields_join; [| |lia].
    + destruct fields; [contradiction|reflexivity].
    + intros t Hin. rewrite Forall_forall in Hall. apply (IH t Hin).
      apply Hall. apply list_elem_of_In. exact Hin.
  - (* dict entry *)
    inversion Hproper as [| | | | | | | | | | | | | | |? ? Hk Hv]; subst.
    cbn [sig_of] in *. strings.
    simpl in Hfuel. rewrite !length_append in Hfuel. simpl in Hfuel.
    rewrite parse_ty_dict_entry.
    rewrite (IH key (or_introl eq_refl) Hk) by lia.
    rewrite (IH value (or_intror eq_refl) Hv) by lia.
    reflexivity.
Qed.

Lemma parse_single_sig_of (t : ty) :
  proper_ty t -> parse_single (sig_of t) = Some t.
Proof.
  intros Hproper. unfold parse_single.
  pose proof (parse_ty_sig_of t Hproper (S (String.length (sig_of t))) ""
                (Nat.lt_succ_diag_r _)) as H.
  rewrite append_nil_r in H. rewrite H. reflexivity.
Qed.

(** *** Values *)

Lemma length_in_sequence_cons (off : nat) (v : Value) (vs : list Value) :
  in_sequence encode off (v :: vs)
  = (encode off v ++ in_sequence encode (off + length (encode off v)) vs)%list.
Proof. reflexivity. Qed.


Lemma encode_payload (off : nat) (v : Value) :
  encode off v
  = (zeros (padding off (alignment (type_of v)))
       ++ payload (off + padding off (alignment (type_of v))) v)%list.
Proof.
  destruct v; cbn [encode payload]; rewrite ?length_zeros; try reflexivity.
  - destruct items; [reflexivity|]. rewrite length_zeros. reflexivity.
  - rewrite length_encode_text. do 3 f_equal. lia.
Qed.

Lemma length_encode (off : nat) (v : Value) :
  length (encode off v)
  = (padding off (alignment (type_of v))
       + length (payload (off + padding off (alignment (type_of v))) v))%nat.
Proof. rewrite encode_payload, length_app, length_zeros. reflexivity. Qed.

Lemma encode_nonempty (v : Value) :
  supported v -> forall off, (0 < length (encode off v))%nat.
Proof.
  induction v as [v IH] using Value_nested_ind.
  intros Hv off. rewrite length_encode.
  destruct v; cbn [payload]; rewrite ?length_app, ?length_le_bytes,
    ?length_encode_text; try lia.
  - (* struct *)
    inversion Hv as [| | | | | | | | | | | | |? Hne Hall| |]; subst.
    destruct fields as [|x rest]; [contradiction|].
    rewrite length_in_sequence_cons, length_app.
    inversion Hall; subst.
    pose proof (IH x (or_introl eq_refl) ltac:(assumption)
                  (off + padding off (alignment (type_of (VStruct (x :: rest)))))%nat).
    lia.
  - (* dict entry *)
    inversion Hv; subst.
    pose proof (IH v1 (or_introl eq_refl) ltac:(assumption)
                  (off + padding off (alignment (type_of (VDictEntry v1 v2))))%nat).
    lia.
Qed.

(** The loop over the members of a struct. *)
Lemma decode_sequence_in_sequence (fuel : nat) (vs : list Value) :
  (forall v, In v vs -> forall off rest,
     Z.of_nat (length (encode off v)) < 2 ^ 32 ->
     decode fuel (type_of v) off (encode off v ++ rest)
     = Some (v, (off + length (encode off v))%nat, rest)) ->
  forall off rest,
    Z.of_nat (length (in_sequence encode off vs)) < 2 ^ 32 ->
    decode_sequence (decode fuel) (map type_of vs) off
      (in_sequence encode off vs ++ rest)
    = Some (vs, (off + length (in_sequence encode off vs))%nat, rest).
Proof.
  induction vs as [|v vs IHvs]; intros Hall off rest Hlen.
  - simpl. rewrite Nat.add_0_r. reflexivity.
  - rewrite length_in_sequence_cons in *. rewrite length_app in Hlen.
    cbn [map decode_sequence]. rewrite <- app_assoc.
    rewrite (Hall v (or_introl eq_refl)) by lia. simpl.
    rewrite IHvs; [| |lia].
    + simpl. rewrite length_app. do 3 f_equal. lia.
    + intros v' Hin. apply Hall. right. exact Hin.
Qed.

(** The loop over the items of an array. *)
Lemma decode_items_in_sequence (fuel : nat) (elem : ty) (vs : list Value) :
  (forall v, In v vs ->
     type_of v = elem /\
     (forall off, (0 < length (encode off v))%nat) /\
     forall off rest,
       Z.of_nat (length (encode off v)) < 2 ^ 32 ->
       decode fuel (type_of v) off (encode off v ++ rest)
       = Some (v, (off + length (encode off v))%nat, rest)) ->
  forall turns off rest,
    (length (in_sequence encode off vs) <= turns)%nat ->
    Z.of_nat (length (in_sequence encode off vs)) < 2 ^ 32 ->
    decode_items (decode fuel elem) turns off
      (in_sequence encode off vs ++ rest)
      (length (in_sequence encode off vs))
    = Some (vs, (off + length (in_sequence encode off vs))%nat, rest).
Proof.
  induction vs as [|v vs IHvs]; intros Hall turns off rest Hturns Hlen.
  - destruct turns; simpl; rewrite Nat.add_0_r; reflexivity.
  - destruct (Hall v (or_introl eq_refl)) as (Hty & Hpos & Hdec).
    rewrite length_in_sequence_cons in *. rewrite length_app in *.
    specialize (Hpos off).
    destruct turns as [|turns]; [lia|].
    cbn [decode_items].
    destruct (Nat.eqb_spec
      (length (encode off v)
       + length (in_sequence encode (off + length (encode off v)) vs)) 0);
      [lia|].
    rewrite <- app_assoc, <- Hty, Hdec by lia. simpl.
    replace (off + length (encode off v) - off)%nat
      with (length (encode off v)) by lia.
    destruct (Nat.leb_spec (length (encode off v))
      (length (encode off v)
       + length (in_sequence encode (off + length (encode off v)) vs)));
      [|lia].
    replace (length (encode off v)
             + length (in_sequence encode (off + length (encode off v)) vs)
             - length (encode off v))%nat
      with (length (in_sequence encode (off + length (encode off v)) vs))
      by lia.
    rewrite Hty. rewrite IHvs; [| |lia|lia].
    + simpl. do 3 f_equal. lia.
    + intros v' Hin. apply Hall. right. exact Hin.
Qed.

Section Padding.

Local Open Scope nat_scope.

Lemma padding_aligned (off a : nat) :
  (a <> 0 -> (off + padding off a) mod a = 0)%nat.
Proof.
  intros Ha. unfold padding.
  pose proof (Nat.mod_upper_bound off a Ha) as Hlt.
  destruct (Nat.eq_dec (off mod a) 0) as [Hz|Hnz].
  - rewrite Hz, Nat.sub_0_r, Nat.Div0.mod_same, Nat.add_0_r. exact Hz.
  - rewrite (Nat.mod_small (a - off mod a)) by lia.
    rewrite (Nat.div_mod_eq off a) at 1.
    replace (a * (off / a) + off mod a + (a - off mod a))%nat
      with (a + (off / a) * a)%nat by lia.
    rewrite Nat.Div0.mod_add. apply Nat.Div0.mod_same.
Qed.

Lemma padding_of_aligned (off a : nat) :
  (a <> 0 -> off mod a = 0 -> padding off a = 0)%nat.
Proof.
  intros Ha Hz. unfold padding. rewrite Hz, Nat.sub_0_r.
  apply Nat.Div0.mod_same.
Qed.

Lemma alignment_nonzero (t : ty) : (alignment t <> 0)%nat.
Proof. destruct t; simpl; lia. Qed.

End Padding.

Lemma decode_padding (fuel : nat) (t : ty) (off : nat) (bs : list byte) :
  decode (S fuel) t off (zeros (padding off (alignment t)) ++ bs)
  = decode (S fuel) t (off + padding off (alignment t)) bs.
Proof.
  pose proof (padding_of_aligned _ _ (alignment_nonzero t)
                (padding_aligned off _ (alignment_nonzero t))) as Haligned.
  cbn [decode]. rewrite take_padding, Haligned, Nat.add_0_r.
  reflexivity.
Qed.

Lemma take_bytes_0 (bs : list byte) : take_bytes 0 bs = Some ([], bs).
Proof. reflexivity. Qed.

Lemma depth_le_list_max (x : Value) (vs : list Value) :
  In x vs -> (depth x <= list_max (map depth vs))%nat.
Proof.
  intros Hin.
  pose proof (proj1 (list_max_le (map depth vs) (list_max (map depth vs)))
                (Nat.le_refl _)) as Hall.
  rewrite List.Forall_forall in Hall. apply Hall. apply in_map. exact Hin.
Qed.

(** One step of [decode] at a variant, at an aligned offset. *)
Lemma decode_variant_step (fuel at_ used off' : nat) (bs rest rest' : list byte)
    (sg : string) (t : ty) (v : Value) :
  padding at_ (alignment TVariant) = O ->
  decode_text 1 bs = Some (sg, used, rest) ->
  parse_single sg = Some t ->
  decode fuel t (at_ + used)%nat rest = Some (v, off', rest') ->
  decode (S fuel) TVariant at_ bs = Some (VVariant t v, off', rest').
Proof.
  intros Haligned Htext Hsig Hinner.
  cbn [decode]. rewrite Haligned, take_bytes_0, Nat.add_0_r.
  cbn [mbind option_bind]. rewrite Htext. cbn [mbind option_bind].
  rewrite Hsig. cbn [mbind option_bind]. rewrite Hinner. reflexivity.
Qed.

(** Decoding the encoding of a supported value gives the value back,
    leaves the bytes that follow, and ends at the offset where the
    encoding ends. *)
Lemma decode_encode (v : Value) :
  supported v ->
  forall fuel off rest,
    (depth v < fuel)%nat ->
    Z.of_nat (length (encode off v)) < 2 ^ 32 ->
    decode fuel (type_of v) off (encode off v ++ rest)
    = Some (v, (off + length (encode off v))%nat, rest).
Proof.
  induction v as [v IH] using Value_nested_ind.
  intros Hv fuel off rest Hfuel Hlen.
  destruct fuel as [|fuel]; [lia|].
  rewrite length_encode in *. rewrite encode_payload, <- app_assoc.
  rewrite decode_padding.
  pose proof (padding_of_aligned _ _ (alignment_nonzero (type_of v))
                (padding_aligned off _ (alignment_nonzero (type_of v))))
    as Haligned.
  set (at_ := (off + padding off (alignment (type_of v)))%nat) in *.
  rewrite Nat.add_assoc. fold at_.
  destruct v; cbn [type_of] in *;
    [cbn [decode]; rewrite Haligned, take_bytes_0;
     cbn [payload mbind option_bind] in *; rewrite ?Nat.add_0_r;
     rewrite ?length_le_bytes, ?length_encode_text in *;
     inversion Hv; subst .. | inversion Hv; subst].
  - (* byte *)
    rewrite decode_uint_le_bytes. cbn [mbind option_bind].
    rewrite Z.mod_small by (simpl; lia). reflexivity.
  - (* boolean *)
    rewrite decode_uint_le_bytes. cbn [mbind option_bind].
    destruct b; reflexivity.
  - rewrite decode_uint_le_bytes. cbn [mbind option_bind].
    change (256 ^ Z.of_nat 2) with (2 ^ 16).
    rewrite signed_mod by lia. reflexivity.
  - rewrite decode_uint_le_bytes. cbn [mbind option_bind].
    rewrite Z.mod_small by (simpl; lia). reflexivity.
  - rewrite decode_uint_le_bytes. cbn [mbind option_bind].
    change (256 ^ Z.of_nat 4) with (2 ^ 32).
    rewrite signed_mod by lia. reflexivity.
  - rewrite decode_uint_le_bytes. cbn [mbind option_bind].
    rewrite Z.mod_small by (simpl; lia). reflexivity.
  - rewrite decode_uint_le_bytes. cbn [mbind option_bind].
    change (256 ^ Z.of_nat 8) with (2 ^ 64).
    rewrite signed_mod by lia. reflexivity.
  - rewrite decode_uint_le_bytes. cbn [mbind option_bind].
    rewrite Z.mod_small by (simpl; lia). reflexivity.
  - rewrite decode_uint_le_bytes. cbn [mbind option_bind].
    rewrite Z.mod_small by (simpl; lia). reflexivity.
  - (* string *)
    rewrite decode_text_encode_text by (simpl; lia). reflexivity.
  - rewrite decode_text_encode_text by (simpl; lia). reflexivity.
  - rewrite decode_text_encode_text by (simpl; lia). reflexivity.
  - (* array *)
    match goal with H : Forall _ items |- _ => rename H into Hitems end.
    rewrite !length_app, length_le_bytes, length_zeros in *.
    rewrite <- !app_assoc, decode_uint_le_bytes. cbn [mbind option_bind].
    rewrite Z.mod_small by (simpl; lia).
    destruct items as [|x items'].
    + reflexivity.
    + set (first := (at_ + 4 + padding (at_ + 4) (alignment elem))%nat) in *.
      rewrite List.Forall_forall in Hitems.
      pose proof (encode_nonempty x (proj1 (Hitems x (or_introl eq_refl)))
                    first) as Hpos.
      set (body := in_sequence encode first (x :: items')) in *.
      assert (Hbody : (0 < length body)%nat).
      { subst body. rewrite length_in_sequence_cons, length_app. lia. }
      destruct (Z.eqb_spec (Z.of_nat (length body)) 0) as [Hz|_]; [lia|].
      rewrite take_padding. cbn [mbind option_bind].
      rewrite Nat2Z.id. fold first. subst body.
      rewrite (decode_items_in_sequence fuel elem (x :: items'));
        [| |lia|lia].
      * cbn [mbind option_bind]. do 3 f_equal. lia.
      * intros y Hin. destruct (Hitems y Hin) as [Hy Hty].
        split; [exact Hty|]. split; [apply encode_nonempty; exact Hy|].
        intros off' rest' Hlen'. apply IH; [exact Hin|exact Hy| |exact Hlen'].
        pose proof (depth_le_list_max y (x :: items') Hin).
        cbn [depth] in Hfuel. lia.
  - (* struct *)
    match goal with H : Forall supported _ |- _ => rename H into Hfields end.
    match goal with H : fields <> [] |- _ => rename H into Hne end.
    destruct fields as [|x fields']; [contradiction|].
    cbn [map]. rewrite List.Forall_forall in Hfields.
    change (type_of x :: map type_of fields')
      with (map type_of (x :: fields')).
    rewrite (decode_sequence_in_sequence fuel (x :: fields')); [| |lia].
    + reflexivity.
    + intros y Hin off' rest' Hlen'.
      apply IH; [exact Hin|apply Hfields; exact Hin| |exact Hlen'].
      pose proof (depth_le_list_max y (x :: fields') Hin).
      cbn [depth] in Hfuel. lia.
  - (* dict entry *)
    match goal with H : supported v1 |- _ => rename H into Hkey end.
    match goal with H : supported v2 |- _ => rename H into Hvalue end.
    rewrite length_app in *. rewrite <- app_assoc.
    cbn [depth] in Hfuel.
    rewrite (IH v1 (or_introl eq_refl) Hkey) by lia.
    cbn [mbind option_bind].
    rewrite (IH v2 (or_intror eq_refl) Hvalue) by lia.
    cbn [mbind option_bind]. do 3 f_equal. lia.
  - (* variant *)
    match goal with H : supported v |- _ => rename H into Hinner end.
    cbn [payload depth] in *.
    rewrite length_app, length_encode_text in *. rewrite <- app_assoc.
    eapply decode_variant_step.
    + exact Haligned.
    + apply decode_text_encode_text.
      change (256 ^ Z.of_nat 1) with 256. lia.
    + apply parse_single_sig_of. assumption.
    + replace (at_ + (1 + String.length (sig_of (type_of v)) + 1))%nat
        with (at_ + (String.length (sig_of (type_of v)) + 2))%nat by lia.
      rewrite (IH v eq_refl Hinner) by lia. do 3 f_equal. lia.
Qed.

(** C8. For every supported value, of whatever type and nesting, a body
    that holds the encoding of the value decodes to the value itself, and
    the count of bytes consumed is the length of the body, a multiple of
    8. [fuel] is any bound above the nesting depth of the value. *)
Theorem decode_body_encode_body (v : Value) (fuel : nat) (rest : list byte) :
  supported v ->
  (depth v < fuel)%nat ->
  Z.of_nat (length (encode 0 v)) < 2 ^ 32 ->
  decode_body fuel [type_of v] (encode_body [v] ++ rest)
  = Some ([v], length (encode_body [v])) /\
  (length (encode_body [v]) mod 8 = 0)%nat.
Proof.
  intros Hv Hfuel Hlen.
  assert (Hbody : length (encode_body [v])
                  = (length (encode 0 v) + padding (length (encode 0 v)) 8)%nat).
  { unfold encode_body, encode_all. cbn [in_sequence].
    rewrite app_nil_r, length_app, length_zeros. reflexivity. }
  split.
  - unfold decode_body, decode_all, encode_body, encode_all.
    cbn [in_sequence decode_sequence]. rewrite app_nil_r, <- !app_assoc.
    rewrite (decode_encode v Hv fuel 0 _ Hfuel Hlen).
    cbn [mbind option_bind]. rewrite take_padding. cbn [mbind option_bind].
    rewrite length_app, length_zeros. reflexivity.
  - rewrite Hbody. apply padding_aligned. discriminate.
Qed.

End CodecProperties.

(** ** The properties at work on the example bus *)

Module ExampleRuns.

Import Examples.

#[local] Existing Instance bus.

(** An ERROR whose reply serial is that of a pending call is printed:
    the entry stays and the callback has written nothing. *)
Lemma ERROR_is_printed_and_not_delivered_witness :
  Type_ unknown_service = ERROR /\
  stdout (final (_MessageDispatch (Some unknown_service) two_pending))
  = ["ERROR"] /\
  m_log (mem (final (_MessageDispatch (Some unknown_service) two_pending)))
  = [].
Proof.
  destruct (ERROR_is_printed_and_not_delivered two_pending unknown_service
              eq_refl) as (_ & _ & _ & _ & Hmem & Hout).
  split; [reflexivity|]. split.
  - rewrite Hout. reflexivity.
  - rewrite Hmem. reflexivity.
Defined.

(** C1 fails on the code: the call with serial 1 is pending, an ERROR
    arrives with reply serial 1, and afterwards the entry is still there
    and its callback has not run; the same message typed METHOD_RETURN
    removes the entry and runs the callback. *)
Lemma ERROR_reply_leaves_the_call_pending :
  let after t :=
    final (_MessageDispatch
             (Some (reply1 t [VString "org.freedesktop.DBus.Error.ServiceUnknown"]))
             two_pending) in
  is_Some (methodCallReplies (this two_pending) !! 1) /\
  replySerial unknown_service = 1 /\
  is_Some (methodCallReplies (this (after ERROR)) !! 1) /\
  m_log (mem (after ERROR)) = [] /\
  methodCallReplies (this (after METHOD_RETURN)) !! 1 = None /\
  m_log (mem (after METHOD_RETURN)) = ["reply to 1"].
Proof. vm_compute. repeat split; eauto. Qed.

(** A caller blocked in [Call] stays blocked when the bus answers with
    an ERROR. *)
Lemma Call_blocks_on_ERROR_reply :
  is_Some (method_of "Hello") /\
  result (Call (method_of "Hello") [] frame (env_ok [Some unknown_service])
            initialized) = Blocks.
Proof. vm_compute. eauto. Qed.

Lemma METHOD_RETURN_invokes_and_removes_its_entry_witness :
  let r := _MessageDispatch (Some (reply1 METHOD_RETURN [])) two_pending in
  Type_ (reply1 METHOD_RETURN []) = METHOD_RETURN /\
  result r = Returns tt /\
  m_log (mem (final r)) = ["reply to 1"] /\
  methodCallReplies (this (final r)) !! 1 = None /\
  is_Some (methodCallReplies (this (final r)) !! 2).
Proof.
  intros r.
  destruct (METHOD_RETURN_invokes_and_removes_its_entry two_pending
              (reply1 METHOD_RETURN []) eq_refl) as [Hfound _].
  destruct (Hfound (logs "reply to 1")
              {| m_ret := []; m_intro := None; m_chan := [];
                 m_log := ["reply to 1"] |} eq_refl eq_refl)
    as (Hres & _ & Hfin & Hgone & Hothers).
  split; [reflexivity|]. split; [exact Hres|].
  split; [subst r; rewrite Hfin; reflexivity|].
  split; [exact Hgone|].
  subst r. rewrite (Hothers 2) by discriminate. vm_compute. eauto.
Defined.

Lemma SIGNAL_invokes_matching_handlers_in_order_witness :
  let r := _MessageDispatch (Some seeked) three_handlers in
  Type_ seeked = SIGNAL /\
  r = invoke_all [logs "first"; logs "third"] seeked three_handlers /\
  m_log (mem (final r)) = ["first"; "third"] /\
  this (final r) = this three_handlers.
Proof.
  intros r.
  destruct (SIGNAL_invokes_matching_handlers_in_order three_handlers seeked
              eq_refl) as (Hr & Hthis & _ & _).
  split; [reflexivity|]. split; [exact Hr|].
  split; [subst r; rewrite Hr; reflexivity|exact Hthis].
Defined.

Lemma _PopMessage_removes_exactly_what_was_decoded_witness :
  let pop := _PopMessage one_and_a_bit in
  @_Unmarshal bus (buffer (this one_and_a_bit))
  = (Some (blank METHOD_RETURN 1), 2, None) /\
  result pop = Returns (Some (blank METHOD_RETURN 1), None) /\
  buffer (this (final pop)) = [Byte.x04] /\
  (let again := _MessageReceiver_turn ([Byte.x07], None) (final pop) in
   result again = Returns None /\
   buffer (this (final again)) = [Byte.x04; Byte.x07]).
Proof.
  intros pop.
  destruct (_PopMessage_removes_exactly_what_was_decoded one_and_a_bit
              (Some (blank METHOD_RETURN 1)) 2 None ([], None) eq_refl)
    as (_ & Hok & _).
  destruct (Hok eq_refl ltac:(lia)) as (Hres & Hbuf & _).
  split; [reflexivity|]. split; [exact Hres|]. split; [exact Hbuf|].
  destruct (_PopMessage_removes_exactly_what_was_decoded (final pop)
              None 0 (Some "Incomplete") ([Byte.x07], None) eq_refl)
    as (Herr & _).
  destruct (Herr "Incomplete" eq_refl) as (_ & _ & _ & Hturn & Hgrow).
  split; [exact Hturn|]. rewrite Hgrow. reflexivity.
Defined.

Lemma Call_error_is_always_nil_witness :
  let r := Call nameless [VUint32 7] frame
             (env1 [Some (reply1 METHOD_RETURN [VString "pong"])])
             initialized in
  (exists msg, snd (@_Marshal bus msg) <> None) /\
  Write_err (env1 []) = Some "broken pipe" /\
  result r = Returns ([VString "pong"], None).
Proof.
  intros r.
  assert (Hr : result r = Returns ([VString "pong"], None))
    by (vm_compute; reflexivity).
  pose proof (Call_error_is_always_nil initialized nameless [VUint32 7]
                frame _ _ None Hr) as [_ _].
  split; [exists call1; discriminate|]. split; [reflexivity|exact Hr].
Defined.

(** [Handle] on the initialized connection: the pair is registered in
    the first world of the call, and the bytes of AddMatch reach the
    socket in a later one. *)
Lemma Handle_registers_then_writes :
  let r := Handle (Ext:=bus) (Some any_signal) (logs "any") frame
             (env_ok [Some (reply1 METHOD_RETURN [])]) initialized in
  result r = Returns tt /\
  (fun w1 : World Memory => (length (signalMatchRules (this w1)), conn (this w1)))
    <$> history r !! 0%nat
  = Some (1%nat, conn (this initialized)) /\
  (fun w3 : World Memory => written <$> conn (this w3)) <$> history r !! 4%nat
  = Some ((fun c => (written c ++ list_byte_of_string "AddMatch")%list)
            <$> conn (this initialized)).
Proof. vm_compute. repeat split. Qed.

(** C3 fails on the code: [Initialize] succeeds, the reply to Hello
    carries the name [":1.42"] and reaches the callback of the call, and
    the unique name of the connection is still empty. *)
Lemma Initialize_does_not_store_the_unique_name :
  let hello_reply := reply1 METHOD_RETURN [VString ":1.42"] in
  let r := Initialize frame (env_ok [Some hello_reply]) world0 in
  result r = Returns None /\
  m_ret (mem (final r)) = [VString ":1.42"] /\
  uniqName (this (final r)) = "" /\
  uniqName (this (final r)) <> ":1.42".
Proof. vm_compute. repeat split. discriminate. Qed.

(** The nested value goes through a body and comes back. *)
Lemma decode_body_encode_body_witness :
  Codec.decode_body 5 [Codec.type_of nested] (Codec.encode_body [nested] ++ [Byte.x6c])
  = Some ([nested], length (Codec.encode_body [nested])) /\
  (length (Codec.encode_body [nested]) mod 8 = 0)%nat.
Proof.
  assert (Hs : Codec.supported nested).
  { unfold nested.
    repeat match goal with
           | |- Codec.supported _ => constructor
           | |- Codec.proper_ty _ => constructor
           | |- Forall _ _ => constructor
           | |- _ <= _ < _ => simpl; lia
           | |- (_ < _)%nat => simpl; lia
           | |- _ /\ _ => split
           | |- _ <> [] => discriminate
           | |- _ = _ => reflexivity
           end. }
  pose proof (CodecProperties.decode_body_encode_body nested 5 [Byte.x6c] Hs
                ltac:(vm_compute; lia) ltac:(vm_compute; reflexivity)) as [H1 H2].
  split; [exact H1 | exact H2].
Defined.

End ExampleRuns.

(** ** Objects and their interfaces, by index and by name *)

Lemma index_int_Returns {A : Type} (xs : list A) (i : Z) (x : A) :
  index_int xs i = Returns x <->
  0 <= i < Z.of_nat (length xs) /\ nth_error xs (Z.to_nat i) = Some x.
Proof.
  unfold index_int, index. destruct (i <? 0) eqn:Hneg.
  - split; [discriminate|]. lia.
  - destruct (nth_error xs (Z.to_nat i)) as [y|] eqn:Hnth.
    + split.
      * intros H. inversion H; subst y. split; [|reflexivity].
        assert (Hlt : (Z.to_nat i < length xs)%nat)
          by (apply nth_error_Some; congruence). lia.
      * intros [_ H]. congruence.
    + split; [discriminate|]. intros [_ H]. discriminate.
Qed.

Lemma index_int_Panics {A : Type} (xs : list A) (i : Z) :
  ~ 0 <= i < Z.of_nat (length xs) ->
  index_int xs i = Panics "index out of range".
Proof.
  intros Hout. unfold index_int, index.
  destruct (i <? 0) eqn:Hneg; [reflexivity|].
  destruct (nth_error xs (Z.to_nat i)) as [y|] eqn:Hnth; [|reflexivity].
  assert (Hlt : (Z.to_nat i < length xs)%nat)
    by (apply nth_error_Some; congruence). lia.
Qed.

Lemma index_int_in_range {A : Type} (xs : list A) (i : Z) :
  0 <= i < Z.of_nat (length xs) ->
  exists x, nth_error xs (Z.to_nat i) = Some x /\ index_int xs i = Returns x.
Proof.
  intros Hin. destruct (nth_error xs (Z.to_nat i)) as [x|] eqn:Hnth.
  - exists x. split; [reflexivity|]. apply index_int_Returns. auto.
  - apply nth_error_None in Hnth. lia.
Qed.

Lemma find_first_at {A : Type} (test : A -> bool) (xs : list A) (x : A) :
  List.find test xs = Some x <-> exists j, first_at test xs j x.
Proof.
  unfold first_at. induction xs as [|y rest IH]; simpl.
  - split; [discriminate|]. intros [[|j] [H _]]; discriminate.
  - destruct (test y) eqn:Hy.
    + split.
      * intros H. inversion H; subst y. exists 0%nat.
        split; [reflexivity|]. split; [exact Hy|]. intros k z Hk. lia.
      * intros [[|j] [Hj [Hx Hfirst]]]; [simpl in Hj; congruence|].
        specialize (Hfirst 0%nat y). simpl in Hfirst.
        rewrite Hfirst in Hy by (reflexivity || lia). discriminate.
    + rewrite IH. split.
      * intros [j [Hj [Hx Hfirst]]]. exists (S j).
        split; [exact Hj|]. split; [exact Hx|].
        intros [|k] z Hk Hz; simpl in Hz; [congruence|].
        apply (Hfirst k); [lia|exact Hz].
      * intros [[|j] [Hj [Hx Hfirst]]]; simpl in Hj; [congruence|].
        exists j. split; [exact Hj|]. split; [exact Hx|].
        intros k z Hk Hz. apply (Hfirst (S k)); [lia|exact Hz].
Qed.

Lemma find_None_iff {A : Type} (test : A -> bool) (xs : list A) :
  List.find test xs = None <-> forall x, In x xs -> test x = false.
Proof.
  induction xs as [|y rest IH]; simpl.
  - split; [intros _ x []|reflexivity].
  - destruct (test y) eqn:Hy.
    + split; [discriminate|]. intros H. rewrite H in Hy by auto. discriminate.
    + rewrite IH. split.
      * intros H x [<-|Hin]; auto.
      * intros H x Hin. auto.
Qed.

(** With distinct names, the element at [i] is the first of its name. *)
Lemma first_at_NoDup {A : Type} (name_of : A -> string) (xs : list A)
    (i : nat) (x : A) :
  List.NoDup (map name_of xs) -> nth_error xs i = Some x ->
  first_at (fun y => String.eqb (name_of y) (name_of x)) xs i x.
Proof.
  intros Hnd Hi. split; [exact Hi|]. split; [apply String.eqb_refl|].
  intros k y Hk Hy. apply String.eqb_neq. intros Heq.
  assert (Hik : i = k); [|lia].
  apply (proj1 (List.NoDup_nth_error (map name_of xs)) Hnd).
  - rewrite length_map. apply nth_error_Some. congruence.
  - rewrite (map_nth_error name_of _ _ Hi), (map_nth_error name_of _ _ Hy).
    congruence.
Qed.

Lemma find_method_is_find (name : string) (ms : list methodData) :
  interfaceData_.find_method name ms
  = List.find (fun v => String.eqb (method_Name v) name) ms.
Proof.
  induction ms as [|v rest IH]; simpl; [reflexivity|].
  unfold methodData_.GetName. rewrite IH. reflexivity.
Qed.

Lemma find_signal_is_find (name : string) (ss : list signalData) :
  interfaceData_.find_signal name ss
  = List.find (fun v => String.eqb (signal_Name v) name) ss.
Proof.
  induction ss as [|v rest IH]; simpl; [reflexivity|].
  unfold signalData_.GetName. rewrite IH. reflexivity.
Qed.

Lemma find_interface_is_find (name : string) (vs : list xmlInterfaceData) :
  introspect_.find_interface name vs
  = interface_of <$> List.find (fun v => String.eqb (xml_Name v) name) vs.
Proof.
  induction vs as [|v rest IH]; simpl; [reflexivity|].
  rewrite IH. destruct (String.eqb (xml_Name v) name); reflexivity.
Qed.

(** X1. [InterfaceByName] on an object returns nil exactly when the
    object is nil, has no introspection data, or its data has no
    interface of that name. Otherwise it returns the first interface of
    that name, attached to the object, and a lookup of a method or a
    signal on it never meets a nil pointer: it returns a handle on that
    interface or panics with its own message. *)
Theorem InterfaceByName_is_nil_or_usable (o : option Object) (name : string) :
  (Object_InterfaceByName o name = None <->
   forall ob intro v,
     o = Some ob -> obj_intro ob = Some intro ->
     In v (Interfaces intro) -> xml_Name v <> name) /\
  (forall iface,
     Object_InterfaceByName o name = Some iface ->
     obj iface = o /\ _interface_.GetName iface = name /\
     (exists ob intro j v,
        o = Some ob /\ obj_intro ob = Some intro /\
        first_at (fun v => String.eqb (xml_Name v) name) (Interfaces intro) j v /\
        iface_intro iface = Some (interface_of v)) /\
     (forall member,
        _interface_.MethodByName iface member = Panics "invalid method" \/
        exists h, _interface_.MethodByName iface member = Returns (Some h) /\
                  method_iface h = iface /\
                  methodData_.GetName (MethodIntrospect h) = member) /\
     (forall member,
        _interface_.SignalByName iface member = Panics "invalid signal" \/
        exists h, _interface_.SignalByName iface member = Returns (Some h) /\
                  signal_iface h = iface /\
                  signalData_.GetName (SignalIntrospect h) = member)).
Proof.
  unfold Object_InterfaceByName, introspect_.GetInterfaceData. split.
  - destruct o as [ob|].
    2:{ split; [|reflexivity]. intros _ ob intro v H. discriminate H. }
    destruct (obj_intro ob) as [intro|] eqn:Hintro.
    2:{ split; [|reflexivity]. intros _ ob' intro v Ho H.
        inversion Ho; subst ob'. congruence. }
    rewrite find_interface_is_find.
    destruct (find _ (Interfaces intro)) as [v|] eqn:Hfind; simpl.
    + split; [discriminate|]. intros Hnone. exfalso.
      apply find_some in Hfind as [Hin Heq]. apply String.eqb_eq in Heq.
      exact (Hnone ob intro v eq_refl Hintro Hin Heq).
    + split; [|reflexivity]. intros _ ob' intro' v Ho Hi Hin.
      inversion Ho; subst ob'. rewrite Hintro in Hi. inversion Hi; subst intro'.
      apply String.eqb_neq. revert v Hin. apply find_None_iff. exact Hfind.
  - intros iface H.
    destruct o as [ob|]; [|discriminate].
    destruct (obj_intro ob) as [intro|] eqn:Hintro; [|discriminate].
    rewrite find_interface_is_find in H.
    destruct (find _ (Interfaces intro)) as [v|] eqn:Hfind; [|discriminate].
    simpl in H. inversion H; subst iface; clear H. simpl.
    split; [reflexivity|]. split; [reflexivity|]. split; [|split].
    + apply find_first_at in Hfind as [j Hj].
      exists ob, intro, j, v. auto.
    + intros member.
      unfold _interface_.MethodByName, interfaceData_.MethodByName,
        interfaceData_.GetMethodData. simpl.
      rewrite find_method_is_find.
      destruct (find _ (xml_Method v)) as [d|] eqn:Hd; [right|left; reflexivity].
      eexists. split; [reflexivity|]. split; [reflexivity|]. simpl.
      apply find_some in Hd as [_ Hd]. apply String.eqb_eq in Hd. exact Hd.
    + intros member.
      unfold _interface_.SignalByName, interfaceData_.SignalByName,
        interfaceData_.GetSignalData. simpl.
      rewrite find_signal_is_find.
      destruct (find _ (xml_Signal v)) as [d|] eqn:Hd; [right|left; reflexivity].
      eexists. split; [reflexivity|]. split; [reflexivity|]. simpl.
      apply find_some in Hd as [_ Hd]. apply String.eqb_eq in Hd. exact Hd.
Qed.

(** X2. [Interface(i)] on an object with introspection data returns an
    interface exactly for the indexes below [NumInterface], named after
    the entry at [i], and panics for the others, so that its test for
    nil data never fires; the name of what it returns can be looked up,
    and leads back to the same interface when the names of the catalog
    are distinct. Without introspection data [Interface(i)] returns nil
    while [NumInterface] panics. *)
Theorem Interface_by_index_and_back (ob : Object) (i : Z) :
  match obj_intro ob with
  | None =>
      Object_Interface (Some ob) i = Returns None /\
      Object_NumInterface (Some ob) = Panics nil_dereference
  | Some intro =>
      exists n,
        Object_NumInterface (Some ob) = Returns n /\
        (~ 0 <= i < n ->
           Object_Interface (Some ob) i = Panics "index out of range") /\
        (0 <= i < n ->
           exists v iface,
             nth_error (Interfaces intro) (Z.to_nat i) = Some v /\
             Object_Interface (Some ob) i = Returns (Some iface) /\
             iface = {| obj := Some ob; name := xml_Name v;
                        iface_intro := Some (interface_of v) |} /\
             (exists iface',
                Object_InterfaceByName (Some ob) (_interface_.GetName iface)
                = Some iface' /\
                _interface_.GetName iface' = _interface_.GetName iface) /\
             (List.NoDup (map xml_Name (Interfaces intro)) ->
                Object_InterfaceByName (Some ob) (_interface_.GetName iface)
                = Some iface))
  end.
Proof.
  unfold Object_Interface, Object_NumInterface, Object_InterfaceByName,
    introspect_Interface, introspect_NumInterface,
    introspect_.GetInterfaceData.
  destruct (obj_intro ob) as [intro|]; [|split; reflexivity].
  eexists. split; [reflexivity|]. split.
  - intros Hout. rewrite index_int_Panics by exact Hout. reflexivity.
  - intros Hin. destruct (index_int_in_range _ _ Hin) as [v [Hnth Hv]].
    rewrite Hv. simpl. exists v. eexists.
    split; [exact Hnth|]. split; [reflexivity|]. split; [reflexivity|].
    simpl. rewrite find_interface_is_find. split.
    + destruct (find _ (Interfaces intro)) as [v'|] eqn:Hfind; simpl.
      * eexists. split; reflexivity.
      * exfalso. apply nth_error_In in Hnth.
        pose proof (proj1 (find_None_iff _ _) Hfind v Hnth) as Hv'.
        simpl in Hv'. rewrite String.eqb_refl in Hv'. discriminate.
    + intros Hnd.
      pose proof (first_at_NoDup xml_Name _ _ _ Hnd Hnth) as Hfirst.
      assert (Hfind : find (fun y => String.eqb (xml_Name y) (xml_Name v))
                        (Interfaces intro) = Some v)
        by (apply find_first_at; eauto).
      rewrite Hfind. reflexivity.
Qed.

(** X3. When [Method(i)] returns, [i] is below [NumMethod], the handle
    belongs to the interface, and [MethodByName] with the name of that
    method returns as well, a handle of a method of the same name: the
    same handle when the names of the interface are distinct. Outside
    the range [Method(i)] panics. *)
Theorem Method_by_index_and_back (iface : _interface) (intro : interfaceData)
    (i : Z) :
  iface_intro iface = Some intro ->
  _interface_NumMethod iface = Returns (Z.of_nat (length (Methods intro))) /\
  (~ 0 <= i < Z.of_nat (length (Methods intro)) ->
     _interface_Method iface i = Panics "index out of range") /\
  (0 <= i < Z.of_nat (length (Methods intro)) ->
     exists data m,
       nth_error (Methods intro) (Z.to_nat i) = Some data /\
       m = {| method_iface := iface; MethodIntrospect := data |} /\
       _interface_Method iface i = Returns (Some m) /\
       (exists m',
          _interface_.MethodByName iface (methodData_.GetName data)
          = Returns (Some m') /\
          method_iface m' = iface /\
          methodData_.GetName (MethodIntrospect m') = methodData_.GetName data) /\
       (List.NoDup (map method_Name (Methods intro)) ->
          _interface_.MethodByName iface (methodData_.GetName data)
          = Returns (Some m))).
Proof.
  intros Hintro.
  unfold _interface_NumMethod, _interface_Method, interfaceData_Method,
    _interface_.MethodByName, interfaceData_.MethodByName,
    interfaceData_.GetMethodData, interfaceData_.NumMethod,
    methodData_.GetName.
  rewrite Hintro. split; [reflexivity|]. split.
  - intros Hout. rewrite index_int_Panics by exact Hout. reflexivity.
  - intros Hin. destruct (index_int_in_range _ _ Hin) as [data [Hnth Hd]].
    rewrite Hd. simpl. exists data. eexists.
    split; [exact Hnth|]. split; [reflexivity|]. split; [reflexivity|].
    rewrite find_method_is_find. split.
    + destruct (find _ (Methods intro)) as [d'|] eqn:Hfind.
      * eexists. split; [reflexivity|]. split; [reflexivity|]. simpl.
        apply find_some in Hfind as [_ Heq]. apply String.eqb_eq. exact Heq.
      * exfalso. apply nth_error_In in Hnth.
        pose proof (proj1 (find_None_iff _ _) Hfind data Hnth) as Hv'.
        simpl in Hv'. rewrite String.eqb_refl in Hv'. discriminate.
    + intros Hnd.
      pose proof (first_at_NoDup method_Name _ _ _ Hnd Hnth) as Hfirst.
      assert (Hfind : find (fun y => String.eqb (method_Name y) (method_Name data))
                        (Methods intro) = Some data)
        by (apply find_first_at; eauto).
      rewrite Hfind. reflexivity.
Qed.

(** X4. The same for signals: [Signal(i)] returns below [NumSignal] and
    panics elsewhere, and [SignalByName] finds the name of what it
    returned. *)
Theorem Signal_by_index_and_back (iface : _interface) (intro : interfaceData)
    (i : Z) :
  iface_intro iface = Some intro ->
  _interface_NumSignal iface = Returns (Z.of_nat (length (Signals intro))) /\
  (~ 0 <= i < Z.of_nat (length (Signals intro)) ->
     _interface_Signal iface i = Panics "index out of range") /\
  (0 <= i < Z.of_nat (length (Signals intro)) ->
     exists data s,
       nth_error (Signals intro) (Z.to_nat i) = Some data /\
       s = {| signal_iface := iface; SignalIntrospect := data |} /\
       _interface_Signal iface i = Returns (Some s) /\
       (exists s',
          _interface_.SignalByName iface (signalData_.GetName data)
          = Returns (Some s') /\
          signal_iface s' = iface /\
          signalData_.GetName (SignalIntrospect s') = signalData_.GetName data) /\
       (List.NoDup (map signal_Name (Signals intro)) ->
          _interface_.SignalByName iface (signalData_.GetName data)
          = Returns (Some s))).
Proof.
  intros Hintro.
  unfold _interface_NumSignal, _interface_Signal, interfaceData_Signal,
    _interface_.SignalByName, interfaceData_.SignalByName,
    interfaceData_.GetSignalData, interfaceData_.NumSignal,
    signalData_.GetName.
  rewrite Hintro. split; [reflexivity|]. split.
  - intros Hout. rewrite index_int_Panics by exact Hout. reflexivity.
  - intros Hin. destruct (index_int_in_range _ _ Hin) as [data [Hnth Hd]].
    rewrite Hd. simpl. exists data. eexists.
    split; [exact Hnth|]. split; [reflexivity|]. split; [reflexivity|].
    rewrite find_signal_is_find. split.
    + destruct (find _ (Signals intro)) as [d'|] eqn:Hfind.
      * eexists. split; [reflexivity|]. split; [reflexivity|]. simpl.
        apply find_some in Hfind as [_ Heq]. apply String.eqb_eq. exact Heq.
      * exfalso. apply nth_error_In in Hnth.
        pose proof (proj1 (find_None_iff _ _) Hfind data Hnth) as Hv'.
        simpl in Hv'. rewrite String.eqb_refl in Hv'. discriminate.
    + intros Hnd.
      pose proof (first_at_NoDup signal_Name _ _ _ Hnd Hnth) as Hfirst.
      assert (Hfind : find (fun y => String.eqb (signal_Name y) (signal_Name data))
                        (Signals intro) = Some data)
        by (apply find_first_at; eauto).
      rewrite Hfind. reflexivity.
Qed.

(** ** The run loop on messages that it does not correlate *)

Section QuietProperties.

Context `{Ext : Externals} {U : Type}.

Implicit Types (w : World U) (fr : Frame (U:=U)) (env : CallEnv).

Lemma bind_Returns {A B : Type} (m : M U A) (k : A -> M U B) w (a : A) :
  result (m w) = Returns a ->
  result ((m ≫= k) w) = result (k a (final (m w))) /\
  final ((m ≫= k) w) = final (k a (final (m w))) /\
  history ((m ≫= k) w) = (history (m w) ++ history (k a (final (m w))))%list.
Proof.
  intros Hm. unfold mbind, M_bind, bind. rewrite Hm. repeat split.
Qed.

Lemma bind_stops {A B : Type} (m : M U A) (k : A -> M U B) w :
  (forall a, result (m w) <> Returns a) ->
  result ((m ≫= k) w) = stopped (result (m w)) /\
  final ((m ≫= k) w) = final (m w) /\
  history ((m ≫= k) w) = history (m w).
Proof.
  intros Hm. unfold mbind, M_bind, bind, stopped.
  destruct (result (m w)) as [a| |reason]; [|repeat split..].
  exfalso. exact (Hm a eq_refl).
Qed.



Lemma after_printing_nil w : after_printing [] w = w.
Proof. destruct w. unfold after_printing. simpl. rewrite app_nil_r. reflexivity. Qed.

Lemma after_printing_app (a b : list string) w :
  after_printing (a ++ b)%list w = after_printing b (after_printing a w).
Proof. unfold after_printing. simpl. rewrite app_assoc. reflexivity. Qed.

Lemma printed_cons (msg : option Message) (rest : list (option Message)) :
  printed (msg :: rest) = (printed [msg] ++ printed rest)%list.
Proof. unfold printed. simpl. destruct (is_ERROR msg); reflexivity. Qed.

Lemma dispatch_uncorrelated (msg : option Message) w :
  uncorrelated msg = true ->
  result (_MessageDispatch msg w) = Returns tt /\
  final (_MessageDispatch msg w) = after_printing (printed [msg]) w /\
  Forall (fun w' => this w' = this w /\ mem w' = mem w)
    (history (_MessageDispatch msg w)).
Proof.
  unfold uncorrelated, _MessageDispatch, printed, is_ERROR.
  destruct msg as [m|]; simpl; [destruct (Type_ m)|]; intros H;
    try discriminate; simpl; rewrite ?after_printing_nil;
    (split; [reflexivity|split; [reflexivity|]]);
    repeat constructor.
Qed.

(** X5. While only messages arrive that are neither replies nor signals
    (nil, a method call, an error, an unknown type), the run loop
    invokes nothing and changes nothing but the standard output, where
    it prints one line for each error; then it waits. *)
Theorem RunLoop_only_prints_errors (incoming : list (option Message)) w :
  forallb uncorrelated incoming = true ->
  let r := _RunLoop incoming w in
  result r = Blocks /\
  final r = after_printing (printed incoming) w /\
  Forall (fun w' => this w' = this w /\ mem w' = mem w) (history r) /\
  length (history r) = length (printed incoming).
Proof.
  revert w. induction incoming as [|msg rest IH]; intros w Hq; simpl in *.
  - rewrite after_printing_nil. repeat split. constructor.
  - apply andb_prop in Hq as [Hmsg Hrest].
    destruct (dispatch_uncorrelated msg w Hmsg) as [Hres [Hfin Hhist]].
    destruct (bind_Returns (_MessageDispatch msg) (fun _ => _RunLoop rest)
                w tt Hres) as [-> [-> ->]].
    rewrite Hfin in *.
    destruct (IH (after_printing (printed [msg]) w) Hrest)
      as [IH1 [IH2 [IH3 IH4]]].
    rewrite (printed_cons msg rest), after_printing_app.
    split; [exact IH1|]. split; [exact IH2|]. split.
    + apply Forall_app. split; [exact Hhist|].
      eapply Forall_impl; [exact IH3|]. simpl. tauto.
    + rewrite !length_app, IH4. f_equal.
      unfold _MessageDispatch, printed, uncorrelated, is_ERROR in *.
      destruct msg as [m|]; simpl in *; [destruct (Type_ m)|];
        try discriminate; reflexivity.
Qed.

Lemma chan_recv_ready (ch : Var (U:=U) (list Z)) incoming w x queue :
  load ch (mem w) = x :: queue ->
  chan_recv ch incoming w = (step (on_mem (store ch queue)) ≫= fun _ => mret x) w.
Proof. intros H. destruct incoming; simpl; rewrite H; reflexivity. Qed.

Lemma chan_recv_empty (ch : Var (U:=U) (list Z)) msg rest w :
  load ch (mem w) = [] ->
  chan_recv ch (msg :: rest) w
  = (_MessageDispatch msg ≫= fun _ => chan_recv ch rest) w.
Proof. intros H. simpl. rewrite H. reflexivity. Qed.

Lemma chan_recv_uncorrelated (ch : Var (U:=U) (list Z)) quiet rest w :
  load ch (mem w) = [] -> forallb uncorrelated quiet = true ->
  result (chan_recv ch (quiet ++ rest) w)
  = result (chan_recv ch rest (after_printing (printed quiet) w)) /\
  final (chan_recv ch (quiet ++ rest) w)
  = final (chan_recv ch rest (after_printing (printed quiet) w)).
Proof.
  revert w. induction quiet as [|msg quiet IH]; intros w Hempty Hq.
  - simpl. rewrite after_printing_nil. split; reflexivity.
  - simpl in Hq. apply andb_prop in Hq as [Hmsg Hq].
    change ((msg :: quiet) ++ rest)%list with (msg :: (quiet ++ rest))%list.
    rewrite chan_recv_empty by exact Hempty.
    destruct (dispatch_uncorrelated msg w Hmsg) as [Hres [Hfin _]].
    destruct (bind_Returns (_MessageDispatch msg)
                (fun _ => chan_recv ch (quiet ++ rest)%list) w tt Hres)
      as [-> [-> _]].
    rewrite Hfin, (printed_cons msg quiet), after_printing_app.
    apply IH; [exact Hempty|exact Hq].
Qed.


Lemma conn_write_run (buff : list byte) env c w :
  conn (this w) = Some c ->
  conn_write buff env w
  = {| result := Returns (Z.of_nat (Write_n env), Write_err env);
       final := on_this (set_conn (Some (conn_Write c buff (Write_n env)))) w;
       history :=
         [on_this (set_conn (Some (conn_Write c buff (Write_n env)))) w] |}.
Proof. intros Hc. unfold conn_write. rewrite bind_get, Hc. reflexivity. Qed.

Lemma conn_write_nil (buff : list byte) env w :
  conn (this w) = None ->
  conn_write buff env w = panic nil_dereference w.
Proof. intros Hc. unfold conn_write. rewrite bind_get, Hc. reflexivity. Qed.

(** [_SendSync] up to the point where it waits. *)
Lemma SendSync_sent msg (f : callback U) fr env c w :
  conn (this w) = Some c ->
  let wait := (chan_recv (recvChan fr) (msgChan env) ≫= fun _ => mret None)
                (sent msg f fr env c w) in
  result (_SendSync msg f fr env w) = result wait /\
  final (_SendSync msg f fr env w) = final wait.
Proof.
  intros Hc wait. subst wait. unfold _SendSync, sent.
  destruct (_Marshal msg) as [buff merr]. simpl fst.
  rewrite !bind_step. cbn [result final].
  match goal with
  | |- context [(conn_write buff env ≫= ?k) ?w2] =>
      destruct (bind_Returns (conn_write buff env) k w2
                  (Z.of_nat (Write_n env), Write_err env)) as [-> [-> _]];
      [rewrite (conn_write_run buff env c) by exact Hc; reflexivity|];
      rewrite (conn_write_run buff env c) by exact Hc
  end.
  split; reflexivity.
Qed.

End QuietProperties.

(** ** A call and its reply *)

Section ReplyProperties.

Context `{Ext : Externals} {U : Type}.

Implicit Types (w : World U) (fr : Frame (U:=U)) (env : CallEnv).

(** The dispatch of the reply to the call that waits. *)
Lemma dispatch_reply w (reply : Message) (g : callback U) :
  Type_ reply = METHOD_RETURN ->
  methodCallReplies (this w) !! replySerial reply = Some g ->
  _MessageDispatch (Some reply) w
  = (invoke g reply ≫= fun _ =>
     step (on_this (set_methodCallReplies (delete (replySerial reply))))) w.
Proof.
  intros Ht Hg. unfold _MessageDispatch. rewrite Ht. cbv zeta.
  rewrite bind_get, Hg. reflexivity.
Qed.

(** X6. The callback of a reply runs before its entry is removed: when
    the callback panics or blocks, so does the dispatch, and the entry
    stays registered with everything else as it was. *)
Theorem METHOD_RETURN_keeps_the_entry_when_the_callback_stops
    w (reply : Message) (g : callback U) :
  Type_ reply = METHOD_RETURN ->
  methodCallReplies (this w) !! replySerial reply = Some g ->
  (forall u, g reply (mem w) <> Returns u) ->
  let r := _MessageDispatch (Some reply) w in
  result r = stopped (g reply (mem w)) /\
  final r = w /\ history r = [] /\
  methodCallReplies (this (final r)) !! replySerial reply = Some g.
Proof.
  intros Ht Hg Hstop r. subst r. rewrite (dispatch_reply w reply g Ht Hg).
  unfold mbind, M_bind, bind, invoke, stopped.
  destruct (g reply (mem w)) as [u| |reason] eqn:Hcall; simpl.
  - exfalso. exact (Hstop u eq_refl).
  - repeat split. exact Hg.
  - repeat split. exact Hg.
Qed.

(** The world after the reply has been dispatched and received. *)
Lemma SendSync_replied msg (f : callback U) fr env c w quiet reply rest u' :
  (forall q u, load (recvChan fr) (store (recvChan fr) q u) = q) ->
  conn (this w) = Some c ->
  msgChan env = (quiet ++ Some reply :: rest)%list ->
  forallb uncorrelated quiet = true ->
  Type_ reply = METHOD_RETURN ->
  replySerial reply = uint32 (serial msg) ->
  f reply (store (recvChan fr) [] (mem w)) = Returns u' ->
  load (recvChan fr) u' = [] ->
  let r := _SendSync msg f fr env w in
  result r = Returns None /\
  final r
  = on_mem (fun _ => store (recvChan fr) [] (chan_send (recvChan fr) 0 u'))
      (on_this (set_methodCallReplies (delete (uint32 (serial msg))))
         (after_printing (printed quiet) (sent msg f fr env c w))).
Proof.
  intros Hch Hc Hin Hq Ht Hrs Hf Hu' r. subst r.
  destruct (SendSync_sent msg f fr env c w Hc) as [-> ->].
  set (w3 := sent msg f fr env c w).
  assert (Hempty : load (recvChan fr) (mem w3) = []) by apply Hch.
  set (w4 := after_printing (printed quiet) w3).
  set (g := reply_callback f fr).
  assert (Hg : methodCallReplies (this w4) !! replySerial reply = Some g).
  { rewrite Hrs. apply lookup_insert_eq. }
  assert (Hcall : g reply (mem w4)
                  = Returns (chan_send (recvChan fr) 0 u')).
  { unfold g, reply_callback. simpl. rewrite Hf. reflexivity. }
  set (w5 := on_mem (fun _ => chan_send (recvChan fr) 0 u') w4).
  set (w6 := on_this (set_methodCallReplies (delete (replySerial reply))) w5).
  assert (Hd : result (_MessageDispatch (Some reply) w4) = Returns tt /\
               final (_MessageDispatch (Some reply) w4) = w6).
  { rewrite (dispatch_reply w4 reply g Ht Hg).
    unfold mbind, M_bind, bind, invoke. rewrite Hcall. split; reflexivity. }
  destruct Hd as [Hd1 Hd2].
  assert (Hready : load (recvChan fr) (mem w6) = [0]).
  { simpl. unfold chan_send. rewrite Hch, Hu'. reflexivity. }
  assert (Hrecv : result (chan_recv (recvChan fr) (msgChan env) w3) = Returns 0 /\
                  final (chan_recv (recvChan fr) (msgChan env) w3)
                  = on_mem (store (recvChan fr) []) w6).
  { rewrite Hin.
    destruct (chan_recv_uncorrelated (recvChan fr) quiet (Some reply :: rest)
                w3 Hempty Hq) as [-> ->].
    fold w4. rewrite chan_recv_empty by exact Hempty.
    destruct (bind_Returns (_MessageDispatch (Some reply))
                (fun _ => chan_recv (recvChan fr) rest) w4 tt Hd1)
      as [-> [-> _]].
    rewrite Hd2, (chan_recv_ready _ rest w6 0 []) by exact Hready.
    split; reflexivity. }
  destruct Hrecv as [Hr1 Hr2].
  destruct (bind_Returns (chan_recv (recvChan fr) (msgChan env))
              (fun _ => mret (None : option error)) w3 0 Hr1) as [-> [-> _]].
  rewrite Hr2. split; [reflexivity|].
  unfold w6, w5, on_mem, on_this. simpl. rewrite Hrs. reflexivity.
Qed.



Lemma Call_run (m : method) (o : Object) args fr env w :
  obj (method_iface m) = Some o ->
  Call (Some m) args fr env w
  = (step (on_mem (store (ret_var fr) [])) ≫= fun _ =>
     _SendSync (call_message m o args env)
       (fun reply u => Returns (store (ret_var fr) (Params reply) u)) fr env
     ≫= fun _ => get ≫= fun w' => mret (load (ret_var fr) (mem w'), (None : option error))) w.
Proof.
  intros Ho. unfold Call, call_message. rewrite Ho. reflexivity.
Qed.

(** [Call] once its reply has arrived. *)
Lemma Call_replied (m : method) (o : Object) args fr env c w quiet reply rest :
  separate fr ->
  obj (method_iface m) = Some o ->
  conn (this w) = Some c ->
  msgChan env = (quiet ++ Some reply :: rest)%list ->
  forallb uncorrelated quiet = true ->
  Type_ reply = METHOD_RETURN ->
  replySerial reply = uint32 (serial (NewMessage env)) ->
  let r := Call (Some m) args fr env w in
  result r = Returns (Params reply, None) /\
  this (final r)
  = {| addressMap := addressMap (this w); uniqName := uniqName (this w);
       methodCallReplies :=
         delete (uint32 (serial (NewMessage env))) (methodCallReplies (this w));
       signalMatchRules := signalMatchRules (this w);
       conn := Some (conn_Write c (fst (_Marshal (call_message m o args env)))
                       (Write_n env));
       buffer := buffer (this w); proxy := proxy (this w) |} /\
  stdout (final r) = (stdout w ++ printed quiet)%list.
Proof.
  intros Hsep Ho Hc Hin Hq Ht Hrs r. subst r.
  rewrite (Call_run m o args fr env w Ho). rewrite bind_step. cbn [result final].
  set (w1 := on_mem (store (ret_var fr) []) w).
  set (msg := call_message m o args env).
  set (f := fun (reply : Message) (u : U) =>
              Returns (store (ret_var fr) (Params reply) u)).
  assert (Hserial : serial msg = serial (NewMessage env)).
  { unfold msg, call_message. destruct (0 <? length args)%nat; reflexivity. }
  destruct (SendSync_replied msg f fr env c w1 quiet reply rest
              (store (ret_var fr) (Params reply)
                 (store (recvChan fr) [] (mem w1))))
    as [Hres Hfin].
  - apply Hsep.
  - exact Hc.
  - exact Hin.
  - exact Hq.
  - exact Ht.
  - rewrite Hserial. exact Hrs.
  - reflexivity.
  - rewrite (chan_ret fr Hsep). apply (chan_holds fr Hsep).
  - destruct (bind_Returns (_SendSync msg f fr env)
                (fun _ => get ≫= fun w' =>
                   mret (load (ret_var fr) (mem w'), (None : option error))) w1 None Hres)
      as [-> [-> _]].
    rewrite Hfin, bind_get. cbn [result final ret mret M_ret].
    split.
    + simpl. unfold chan_send.
      rewrite !(ret_chan fr Hsep), (ret_holds fr Hsep). reflexivity.
    + simpl. unfold set_methodCallReplies, set_conn. simpl.
      rewrite Hserial, delete_insert_eq. split; reflexivity.
Qed.



End ReplyProperties.

(** ** Objects, signals and the start of a connection *)

Section ObjectProperties.

Context `{Ext : Externals} {U : Type}.

Implicit Types (w : World U) (fr : Frame (U:=U)) (env : CallEnv).




Lemma Emit_run (s : signal) (o : Object) args env w :
  obj (signal_iface s) = Some o ->
  Emit (Some s) args env w
  = (conn_write (fst (_Marshal (emit_message s o args env))) env
     ≫= fun '(_, err) => mret err) w.
Proof.
  intros Ho. unfold Emit, emit_message. rewrite Ho.
  destruct (_Marshal _) as [buff merr]. reflexivity.
Qed.

(** X10. [Emit] does not wait and reports nothing but the result of the
    write. Whatever arrives meanwhile and whatever [_Marshal] answered,
    it never blocks; when it returns, its result is the error of
    [conn.Write], and the one thing it has done is to hand the
    marshalled signal to the socket: no callback is registered, the
    handlers, the memory and the output are as before. Without a socket
    it panics with nothing done. *)
Theorem Emit_writes_and_returns_the_error_of_the_write
    (sig : option signal) args env w :
  let r := Emit sig args env w in
  result r <> Blocks /\
  methodCallReplies (this (final r)) = methodCallReplies (this w) /\
  signalMatchRules (this (final r)) = signalMatchRules (this w) /\
  mem (final r) = mem w /\ stdout (final r) = stdout w /\
  (forall e, result r = Returns e ->
     e = Write_err env /\
     exists s o c,
       sig = Some s /\ obj (signal_iface s) = Some o /\
       conn (this w) = Some c /\
       history r = [final r] /\
       conn (this (final r))
       = Some (conn_Write c (fst (_Marshal (emit_message s o args env)))
                 (Write_n env))) /\
  (conn (this w) = None ->
     exists reason, result r = Panics reason /\ final r = w /\ history r = []).
Proof.
  intros r. subst r.
  assert (Hpanic : forall reason : string,
    let r := panic (A:=option error) reason w in
    result r <> Blocks /\
    methodCallReplies (this (final r)) = methodCallReplies (this w) /\
    signalMatchRules (this (final r)) = signalMatchRules (this w) /\
    mem (final r) = mem w /\ stdout (final r) = stdout w /\
    (forall e, result r = Returns e ->
       e = Write_err env /\
       exists s o c,
         sig = Some s /\ obj (signal_iface s) = Some o /\
         conn (this w) = Some c /\
         history r = [final r] /\
         conn (this (final r))
         = Some (conn_Write c (fst (_Marshal (emit_message s o args env)))
                   (Write_n env))) /\
    (conn (this w) = None ->
       exists reason, result r = Panics reason /\ final r = w /\ history r = [])).
  { intros reason. simpl.
    split; [discriminate|]. do 4 (split; [reflexivity|]).
    split; [intros e He; discriminate He|]. intros _. eauto. }
  destruct sig as [s|]; [|apply Hpanic].
  destruct (obj (signal_iface s)) as [o|] eqn:Ho.
  2:{ unfold Emit. rewrite Ho. apply Hpanic. }
  rewrite (Emit_run s o args env w Ho).
  destruct (conn (this w)) as [c|] eqn:Hc.
  - unfold mbind, M_bind, bind.
    rewrite (conn_write_run _ env c w Hc). simpl.
    split; [discriminate|]. do 4 (split; [reflexivity|]).
    split; [|intros H; discriminate H].
    intros e He. split; [congruence|].
    exists s, o, c. repeat split. exact Ho.
  - unfold mbind, M_bind, bind.
    rewrite (conn_write_nil _ env w Hc). simpl.
    split; [discriminate|]. do 4 (split; [reflexivity|]).
    split; [intros e He; discriminate He|]. intros _. eauto.
Qed.

End ObjectProperties.

(** ** [Initialize] and [Handle] *)

Section StartProperties.

Context `{Ext : Externals} {U : Type}.

Implicit Types (w : World U) (fr : Frame (U:=U)) (env : CallEnv).

(** What holds of the connection through a call with the serial [seri],
    given that it survives the removal of any entry and the insertion
    of an entry under [seri]. *)
Section Pending.

Variable Q : Connection U -> Prop.
Variable seri : Z.
Hypothesis Q_delete : forall k p, Q p -> Q (set_methodCallReplies (delete k) p).
Hypothesis Q_insert :
  forall f p, Q p -> Q (set_methodCallReplies (insert seri f) p).
Hypothesis Q_conn : forall c p, Q p -> Q (set_conn c p).

Lemma pending_MessageDispatch msg : keeps (of_this Q) (_MessageDispatch msg).
Proof.
  unfold _MessageDispatch. destruct msg as [m|]; [|keeps_auto].
  destruct (Type_ m); keeps_auto. apply keeps_range.
Qed.

Lemma pending_chan_recv ch incoming : keeps (of_this Q) (chan_recv ch incoming).
Proof.
  induction incoming as [|msg rest IH]; intros w Hw; simpl;
    destruct (load ch (mem w)) as [|x queue].
  - split; [exact Hw|constructor].
  - revert w Hw. change (keeps (of_this Q)
      (step (on_mem (store ch queue)) ≫= fun _ => mret x)). keeps_auto.
  - revert w Hw. change (keeps (of_this Q)
      (_MessageDispatch msg ≫= fun _ => chan_recv ch rest)).
    keeps_auto. apply pending_MessageDispatch.
  - revert w Hw. change (keeps (of_this Q)
      (step (on_mem (store ch queue)) ≫= fun _ => mret x)). keeps_auto.
Qed.

Lemma pending_SendSync msg (f : callback U) fr env :
  uint32 (serial msg) = seri -> keeps (of_this Q) (_SendSync msg f fr env).
Proof.
  intros Hs. unfold _SendSync. rewrite Hs. keeps_auto.
  - apply keeps_conn_write. exact Q_conn.
  - apply pending_chan_recv.
Qed.

Lemma pending_Call method args fr env :
  uint32 (serial (NewMessage env)) = seri ->
  keeps (of_this Q) (Call method args fr env).
Proof.
  intros Hs. unfold Call. keeps_auto. apply pending_SendSync.
  destruct (0 <? length args)%nat; exact Hs.
Qed.

End Pending.

(** X11. [Initialize] forgets what was registered before it. In the
    world it leaves, however it ends, no signal handler is registered
    and no call is pending under a serial other than that of its own
    Hello: a signal finds no handler, and a reply to a call made before
    is dropped. *)
Theorem Initialize_forgets_handlers_and_pending_calls fr env w :
  let after := final (Initialize fr env w) in
  let seri := uint32 (serial (NewMessage env)) in
  signalMatchRules (this after) = [] /\
  (forall k, k <> seri -> methodCallReplies (this after) !! k = None) /\
  (forall m, Type_ m = SIGNAL ->
     _MessageDispatch (Some m) after = ret tt after) /\
  (forall m, Type_ m = METHOD_RETURN -> replySerial m <> seri ->
     _MessageDispatch (Some m) after = ret tt after).
Proof.
  intros after seri.
  set (Q := fun p : Connection U =>
              signalMatchRules p = [] /\
              forall k, k <> seri -> methodCallReplies p !! k = None).
  set (w2 := on_this (set_signalMatchRules (fun _ => []))
               (on_this (set_methodCallReplies (fun _ => ∅)) w)).
  set (rest := (lift _GetProxy ≫= fun iface =>
                step (on_this (set_proxy (Some iface))) ≫= fun _ =>
                step (on_this (set_buffer (fun _ => []))) ≫= fun _ =>
                _Auth ≫= fun err =>
                match err with
                | Some e => mret (Some e)
                | None => _SendHello fr env ≫= fun _ => mret None
                end) : M U (option error)).
  assert (Hafter : after = final (rest w2)) by reflexivity.
  assert (Hkeep : keeps (of_this Q) rest).
  { assert (Q_delete : forall k p, Q p -> Q (set_methodCallReplies (delete k) p)).
    { intros k p [H1 H2]. split; [exact H1|]. intros k' Hk'. simpl.
      destruct (decide (k = k')) as [->|Hne].
      - apply lookup_delete_eq.
      - rewrite lookup_delete_ne by exact Hne. auto. }
    assert (Q_insert : forall f p,
              Q p -> Q (set_methodCallReplies (insert seri f) p)).
    { intros f p [H1 H2]. split; [exact H1|]. intros k' Hk'. simpl.
      rewrite lookup_insert_ne by congruence. auto. }
    assert (Q_conn : forall c p, Q p -> Q (set_conn c p)).
    { intros c p H. exact H. }
    assert (Q_proxy : forall i p, Q p -> Q (set_proxy i p)).
    { intros i p H. exact H. }
    assert (Q_buffer : forall f p, Q p -> Q (set_buffer f p)).
    { intros f p H. exact H. }
    unfold rest, _Auth, _SendHello. keeps_auto.
    - apply keeps_proxy_MethodByName.
    - apply (pending_Call Q seri); auto. }
  assert (HQ : Q (this after)).
  { rewrite Hafter. apply Hkeep. split; [reflexivity|].
    intros k _. apply lookup_empty. }
  destruct HQ as [Hrules Hreplies].
  split; [exact Hrules|]. split; [exact Hreplies|]. split.
  - intros m Ht. unfold _MessageDispatch. rewrite Ht, bind_get, Hrules.
    reflexivity.
  - intros m Ht Hne. unfold _MessageDispatch. rewrite Ht. cbv zeta.
    rewrite bind_get, (Hreplies _ Hne). reflexivity.
Qed.

Lemma Initialize_run fr env w (iface : _interface) c c' err :
  _GetProxy = Returns iface ->
  conn (this w) = Some c ->
  Authenticate c = (c', err) ->
  let w5 := on_this (set_conn (Some c'))
              (on_this (set_buffer (fun _ => []))
                 (on_this (set_proxy (Some iface))
                    (on_this (set_signalMatchRules (fun _ => []))
                       (on_this (set_methodCallReplies (fun _ => ∅)) w)))) in
  let rest := match err with
              | Some e => mret (Some e)
              | None => _SendHello fr env ≫= fun _ => mret None
              end w5 in
  result (Initialize fr env w) = result rest /\
  final (Initialize fr env w) = final rest /\
  (5 <= length (history (Initialize fr env w)))%nat /\
  nth_error (history (Initialize fr env w)) 4 = Some w5.
Proof.
  intros Hp Hc Ha w5 rest. subst rest w5.
  unfold Initialize. rewrite !bind_step. cbn [result final history].
  rewrite Hp. cbn [lift].
  change (ret iface) with (mret (M:=M U) iface).
  rewrite bind_ret_l, !bind_step.
  cbn [result final history]. unfold _Auth.
  match goal with
  | |- context [((get ≫= ?k1) ≫= ?k2) ?w4] =>
      assert (Hauth : (get ≫= k1) w4
                = {| result := Returns err;
                     final := on_this (set_conn (Some c')) w4;
                     history := [on_this (set_conn (Some c')) w4] |});
      [ rewrite bind_get; cbn [on_this this conn set_buffer set_proxy
                                 set_signalMatchRules set_methodCallReplies];
        rewrite Hc, Ha; reflexivity |];
      destruct (bind_Returns (get ≫= k1) k2 w4 err) as [-> [-> ->]];
      [rewrite Hauth; reflexivity|]; rewrite Hauth
  end.
  cbn [result final history].
  split; [reflexivity|]. split; [reflexivity|].
  split; [simpl; lia|reflexivity].
Qed.

(** X12. When the authentication fails, [Initialize] returns its error
    and goes no further: the tables are empty, the proxy is set, the
    buffer is empty, the socket is as [Authenticate] left it, so that no
    Hello has been written, and the memory and the output are
    untouched. *)
Theorem Initialize_stops_when_Authenticate_fails
    fr env w (iface : _interface) c c' e :
  _GetProxy = Returns iface ->
  conn (this w) = Some c ->
  Authenticate c = (c', Some e) ->
  let r := Initialize fr env w in
  result r = Returns (Some e) /\
  this (final r)
  = {| addressMap := addressMap (this w); uniqName := uniqName (this w);
       methodCallReplies := ∅; signalMatchRules := []; conn := Some c';
       buffer := []; proxy := Some iface |} /\
  mem (final r) = mem w /\ stdout (final r) = stdout w.
Proof.
  intros Hp Hc Ha r. subst r.
  destruct (Initialize_run fr env w iface c c' (Some e) Hp Hc Ha)
    as [-> [-> _]].
  repeat split.
Qed.

(** The proxy that [_GetProxy] returns belongs to the object of the bus. *)
Lemma GetProxy_object (iface : _interface) :
  _GetProxy = Returns iface ->
  exists o, obj iface = Some o /\
            dest o = "org.freedesktop.DBus" /\
            path o = "/org/freedesktop/DBus" /\
            _interface_.GetName iface = "org.freedesktop.DBus".
Proof.
  unfold _GetProxy.
  destruct (fst (NewIntrospect dbusXMLIntro)) as [i|]; [|discriminate].
  intros H. inversion H; subst iface. simpl. eauto.
Qed.

Lemma MethodByName_iface (iface : _interface) (name : string) (h : method) :
  _interface_.MethodByName iface name = Returns (Some h) ->
  method_iface h = iface /\
  methodData_.GetName (MethodIntrospect h) = name.
Proof.
  unfold _interface_.MethodByName, interfaceData_.MethodByName,
    interfaceData_.GetMethodData.
  destruct (iface_intro iface) as [intro|]; [|discriminate].
  rewrite find_method_is_find.
  destruct (find _ (Methods intro)) as [d|] eqn:Hd; [|discriminate].
  intros H. inversion H; subst h. simpl. split; [reflexivity|].
  apply find_some in Hd as [_ Hd]. apply String.eqb_eq in Hd. exact Hd.
Qed.

(** X13. When the authentication succeeds and the bus answers the
    Hello, [Initialize] returns nil. The Hello is a METHOD_CALL of the
    member [Hello] to the bus itself, written after the authentication;
    once its METHOD_RETURN has been dispatched no call is pending, no
    handler is registered, and the arguments of the reply have gone
    nowhere in the connection. *)
Theorem Initialize_says_Hello_and_returns_nil
    fr env w (iface : _interface) (hello : method) c c' quiet reply rest :
  separate fr ->
  _GetProxy = Returns iface ->
  _interface_.MethodByName iface "Hello" = Returns (Some hello) ->
  conn (this w) = Some c ->
  Authenticate c = (c', None) ->
  msgChan env = (quiet ++ Some reply :: rest)%list ->
  forallb uncorrelated quiet = true ->
  Type_ reply = METHOD_RETURN ->
  replySerial reply = uint32 (serial (NewMessage env)) ->
  let r := Initialize fr env w in
  exists o msg,
    obj iface = Some o /\
    msg = call_message hello o [] env /\
    Type_ msg = METHOD_CALL /\ Member msg = "Hello" /\
    Dest msg = "org.freedesktop.DBus" /\ Path msg = "/org/freedesktop/DBus" /\
    Iface msg = "org.freedesktop.DBus" /\
    result r = Returns None /\
    this (final r)
    = {| addressMap := addressMap (this w); uniqName := uniqName (this w);
         methodCallReplies := ∅; signalMatchRules := [];
         conn := Some (conn_Write c' (fst (_Marshal msg)) (Write_n env));
         buffer := []; proxy := Some iface |}.
Proof.
  intros Hsep Hp Hhello Hc Ha Hin Hq Ht Hrs r. subst r.
  destruct (GetProxy_object iface Hp) as [o [Ho [Hdest [Hpath Hname]]]].
  destruct (MethodByName_iface iface "Hello" hello Hhello) as [Hmi Hmn].
  exists o, (call_message hello o [] env).
  split; [exact Ho|]. split; [reflexivity|].
  split; [reflexivity|]. split; [exact Hmn|].
  split; [exact Hdest|]. split; [exact Hpath|].
  split; [simpl; rewrite Hmi; exact Hname|].
  destruct (Initialize_run fr env w iface c c' None Hp Hc Ha)
    as [-> [-> _]].
  set (w5 := on_this (set_conn (Some c')) _).
  assert (Ho' : obj (method_iface hello) = Some o) by (rewrite Hmi; exact Ho).
  assert (Hlook : result (proxy_MethodByName "Hello" w5) = Returns (Some hello) /\
                  final (proxy_MethodByName "Hello" w5) = w5).
  { unfold proxy_MethodByName. rewrite bind_get. simpl. rewrite Hhello.
    split; reflexivity. }
  destruct Hlook as [Hl1 Hl2].
  destruct (Call_replied hello o [] fr env c' w5 quiet reply rest
              Hsep Ho' eq_refl Hin Hq Ht Hrs) as [Hc1 [Hc2 _]].
  assert (Hhi : result (_SendHello fr env w5) = Returns tt /\
                final (_SendHello fr env w5)
                = final (Call (Some hello) [] fr env w5)).
  { unfold _SendHello.
    destruct (bind_Returns (proxy_MethodByName "Hello")
                (fun hello => Call hello [] fr env ≫= fun _ => mret tt)
                w5 (Some hello) Hl1) as [-> [-> _]].
    rewrite Hl2.
    destruct (bind_Returns (Call (Some hello) [] fr env)
                (fun _ => mret tt) w5 _ Hc1) as [-> [-> _]].
    split; reflexivity. }
  destruct Hhi as [Hh1 Hh2].
  destruct (bind_Returns (_SendHello fr env)
              (fun _ => mret (None : option error)) w5 tt Hh1)
    as [-> [-> _]].
  split; [reflexivity|].
  cbn [final ret mret M_ret]. rewrite Hh2, Hc2. unfold w5. simpl.
  rewrite delete_empty. reflexivity.
Qed.

(** [Handle], from its second step on. *)
Lemma Handle_registered w (r : MatchRule) (handler : callback U) fr env :
  signalMatchRules (this (final (Handle (Some r) handler fr env w)))
  = (signalMatchRules (this w) ++ [ {| mr := r; proc := handler |} ])%list.
Proof.
  set (registered := (signalMatchRules (this w)
                        ++ [ {| mr := r; proc := handler |} ])%list).
  set (w1 := on_this (set_signalMatchRules (fun _ => registered)) w).
  set (rest := (proxy_MethodByName "AddMatch" ≫= fun addMatch =>
                Call addMatch [VString (_ToString r)] fr env ≫= fun _ =>
                mret tt) : M U unit).
  change (signalMatchRules (this (final (rest w1))) = registered).
  assert (Hkeep : keeps (of_this (fun p => signalMatchRules p = registered))
                    rest).
  { unfold rest. keeps_auto.
    - apply keeps_proxy_MethodByName.
    - apply keeps_Call; auto. }
  apply (Hkeep w1). reflexivity.
Qed.

(** X14. A handler is in force as soon as [Handle] has registered it,
    whether the AddMatch call returned, waits or panicked: in the world
    that [Handle] leaves, a signal invokes the handlers that matched
    before, in their order, and then the new one if its rule matches. *)
Theorem Handle_puts_the_handler_after_the_earlier_ones
    w (r : MatchRule) (handler : callback U) fr env (m : Message) :
  Type_ m = SIGNAL ->
  let after := final (Handle (Some r) handler fr env w) in
  _MessageDispatch (Some m) after
  = invoke_all
      (map proc (matching m (signalMatchRules (this w)))
         ++ (if _Match r m then [handler] else []))%list m after.
Proof.
  intros Ht after. unfold _MessageDispatch. rewrite Ht, bind_get.
  rewrite range_is_invoke_all. unfold after at 1.
  rewrite Handle_registered. unfold matching.
  rewrite List.filter_app, map_app. simpl.
  destruct (_Match r m); reflexivity.
Qed.

(** [Handle] on a connection without a proxy. *)
Lemma Handle_without_proxy w (r : MatchRule) (handler : callback U) fr env :
  proxy (this w) = None ->
  let run := Handle (Some r) handler fr env w in
  result run = Panics nil_dereference /\
  final run
  = on_this (set_signalMatchRules
      (fun rules => (rules ++ [ {| mr := r; proc := handler |} ])%list)) w /\
  history run = [final run].
Proof.
  intros Hp run. subst run. unfold Handle. rewrite bind_step.
  unfold proxy_MethodByName.
  match goal with
  | |- context [((get ≫= ?k1) ≫= ?k2) ?w1] =>
      assert (Hlook : (get ≫= k1) w1 = panic nil_dereference w1)
        by (rewrite bind_get; simpl; rewrite Hp; reflexivity);
      destruct (bind_stops (get ≫= k1) k2 w1) as [-> [-> ->]];
      [rewrite Hlook; discriminate|]; rewrite Hlook
  end.
  repeat split.
Qed.

End StartProperties.

(** ** The receiver *)

Section ReceiverProperties.

Context `{Ext : Externals} {U : Type}.

Implicit Types (w : World U) (read : list byte * option error).

(** One turn: it sends a message and removes bytes from the front, or it
    reads and appends, or it panics with nothing done. *)
Lemma turn_cases read w :
  let r := _MessageReceiver_turn read w in
  (exists msg n,
     _Unmarshal (buffer (this w)) = (msg, n, None) /\ 0 <= n /\
     result r = Returns (Some msg) /\
     final r = on_this (set_buffer (drop (Z.to_nat n))) w) \/
  (exists msg n e,
     _Unmarshal (buffer (this w)) = (msg, n, Some e) /\
     result r = Returns None /\
     final r = on_this (set_buffer (fun b => (b ++ firstn 4096 (fst read))%list)) w) \/
  (exists msg n,
     _Unmarshal (buffer (this w)) = (msg, n, None) /\ n < 0 /\
     result r = Panics "makeslice: len out of range" /\ final r = w).
Proof.
  intros r. subst r. unfold _MessageReceiver_turn, _PopMessage.
  destruct (_Unmarshal (buffer (this w))) as [[msg n] [e|]] eqn:Hdec.
  - right. left. exists msg, n, e. split; [reflexivity|].
    unfold mbind, M_bind, bind, get; simpl; rewrite Hdec; simpl.
    split; reflexivity.
  - destruct (n <? 0) eqn:Hneg.
    + right. right. exists msg, n. split; [reflexivity|]. split; [lia|].
      unfold mbind, M_bind, bind, get; simpl; rewrite Hdec, Hneg; simpl.
      split; reflexivity.
    + left. exists msg, n. split; [reflexivity|]. split; [lia|].
      unfold mbind, M_bind, bind, get; simpl; rewrite Hdec, Hneg; simpl.
      split; reflexivity.
Qed.

(** X15. The receiver never looks at the error of a read. The turns of
    its loop go the same way whatever errors the reads report; and on a
    closed socket, where every read delivers no byte and an error, with
    a buffer that holds no complete message, it goes round without
    sending anything and leaves the world as it was. *)
Theorem receiver_ignores_the_errors_of_its_reads
    (reads : list (list byte * option error)) w :
  _MessageReceiver reads w
  = _MessageReceiver (map (fun read => (fst read, None)) reads) w /\
  (Forall (fun read => fst read = []) reads ->
   (exists msg n e, _Unmarshal (buffer (this w)) = (msg, n, Some e)) ->
   result (_MessageReceiver reads w) = Returns [] /\
   final (_MessageReceiver reads w) = w /\
   history (_MessageReceiver reads w) = repeat w (length reads)).
Proof.
  split.
  - revert w. induction reads as [|read rest IH]; intros w; [reflexivity|].
    simpl. assert (Hturn : _MessageReceiver_turn read w
                           = _MessageReceiver_turn (fst read, None) w).
    { unfold _MessageReceiver_turn, _PopMessage.
      unfold mbind, M_bind, bind, get; simpl.
      destruct (_Unmarshal (buffer (this w))) as [[msg n] [e|]]; simpl;
        [reflexivity|].
      destruct (n <? 0); reflexivity. }
    unfold mbind, M_bind, bind. rewrite <- Hturn.
    destruct (result (_MessageReceiver_turn read w)) as [sent| |reason];
      [|reflexivity..].
    rewrite <- IH. reflexivity.
  - intros Hclosed [msg [n [e Hdec]]].
    induction Hclosed as [|read rest Hread _ [IH1 [IH2 IH3]]];
      [split; [reflexivity|split; reflexivity]|].
    assert (Hturn : _MessageReceiver_turn read w
                    = {| result := Returns None; final := w; history := [w] |}).
    { assert (Hw : on_this (set_buffer (fun b => (b ++ firstn 4096 (fst read))%list)) w = w).
      { rewrite Hread. destruct w as [[a n0 r s c b p] u out].
        unfold on_this, set_buffer. simpl. rewrite app_nil_r. reflexivity. }
      unfold _MessageReceiver_turn, _PopMessage.
      unfold mbind, M_bind, bind, get; simpl. rewrite Hdec. simpl.
      rewrite Hw. reflexivity. }
    destruct (bind_Returns (_MessageReceiver_turn read)
                (fun sent => _MessageReceiver rest ≫= fun more =>
                   mret (match sent with
                         | Some msg => msg :: more
                         | None => more
                         end)) w None) as [H1 [H2 H3]];
      [rewrite Hturn; reflexivity|].
    cbn [_MessageReceiver]. rewrite H1, H2, H3, Hturn. cbn [final history].
    unfold mbind at 1 2 3, M_bind at 1 2 3, bind at 1 2 3.
    rewrite IH1. cbn [result final history ret mret M_ret].
    rewrite IH2, IH3. split; [reflexivity|]. split; [reflexivity|].
    rewrite app_nil_r. reflexivity.
Qed.

Lemma bind_mret_final {A B : Type} (m : M U A) (g : A -> B) w :
  final ((m ≫= fun a => mret (g a)) w) = final (m w) /\
  (forall b, result ((m ≫= fun a => mret (g a)) w) = Returns b ->
     exists a, result (m w) = Returns a /\ b = g a).
Proof.
  unfold mbind, M_bind, bind.
  destruct (result (m w)) as [a| |reason]; simpl; (split; [reflexivity|]);
    intros b H; [|discriminate..].
  inversion H. eauto.
Qed.

Lemma on_this_same_buffer w :
  on_this (set_buffer (fun _ => buffer (this w))) w = w.
Proof. destruct w as [[a n0 r s c b p] u out]. reflexivity. Qed.

(** X16. The receiver keeps the byte stream whole. After any number of
    turns the buffer is what remains, once bytes have been taken from
    the front, of the old buffer followed by what the reads of some of
    the turns delivered, in their order, at most 4096 bytes of each;
    nothing else in the world has changed. When the turns all returned,
    each of them either sent a message or read from the socket. *)
Theorem receiver_appends_reads_and_removes_from_the_front
    (reads : list (list byte * option error)) w :
  let r := _MessageReceiver reads w in
  exists (consumed : list byte) (used : list (list byte * option error)),
    sublist used reads /\
    (consumed ++ buffer (this (final r))
     = buffer (this w)
       ++ concat (map (fun read => firstn 4096 (fst read)) used))%list /\
    final r = on_this (set_buffer (fun _ => buffer (this (final r)))) w /\
    (forall sent, result r = Returns sent ->
       (length sent + length used = length reads)%nat).
Proof.
  revert w. induction reads as [|read rest IH]; intros w r; subst r.
  - exists [], []. simpl. rewrite app_nil_r. split; [constructor|].
    split; [reflexivity|]. split.
    + symmetry. apply on_this_same_buffer.
    + intros sent H. inversion H. reflexivity.
  - cbn [_MessageReceiver].
    destruct (turn_cases read w)
      as [[msg [n [Hdec [Hn [Hres Hfin]]]]]
         |[[msg [n [e [Hdec [Hres Hfin]]]]]
          |[msg [n [Hdec [Hn [Hres Hfin]]]]]]].
    + destruct (bind_Returns (_MessageReceiver_turn read)
                  (fun sent => _MessageReceiver rest ≫= fun more =>
                     mret (match sent with
                           | Some msg => msg :: more
                           | None => more
                           end)) w _ Hres) as [-> [-> _]].
      rewrite Hfin. set (w' := on_this (set_buffer (drop (Z.to_nat n))) w).
      destruct (bind_mret_final (_MessageReceiver rest)
                  (fun more => msg :: more) w') as [-> Hsent].
      destruct (IH w') as [consumed [used [Hsub [Hbuf [Hsame Hlen]]]]].
      exists (firstn (Z.to_nat n) (buffer (this w)) ++ consumed)%list, used.
      split; [apply sublist_cons; exact Hsub|]. split; [|split].
      * rewrite <- app_assoc, Hbuf. unfold w'. simpl.
        rewrite app_assoc, take_drop. reflexivity.
      * etransitivity; [exact Hsame|]. reflexivity.
      * intros sent H. destruct (Hsent sent H) as [more [Hmore ->]].
        simpl. rewrite (Hlen more Hmore). reflexivity.
    + destruct (bind_Returns (_MessageReceiver_turn read)
                  (fun sent => _MessageReceiver rest ≫= fun more =>
                     mret (match sent with
                           | Some msg => msg :: more
                           | None => more
                           end)) w _ Hres) as [-> [-> _]].
      rewrite Hfin.
      set (w' := on_this (set_buffer
                   (fun b => (b ++ firstn 4096 (fst read))%list)) w).
      destruct (bind_mret_final (_MessageReceiver rest)
                  (fun more => more) w') as [-> Hsent].
      destruct (IH w') as [consumed [used [Hsub [Hbuf [Hsame Hlen]]]]].
      exists consumed, (read :: used).
      split; [apply sublist_skip; exact Hsub|]. split; [|split].
      * rewrite Hbuf. unfold w'. simpl. rewrite app_assoc. reflexivity.
      * etransitivity; [exact Hsame|]. reflexivity.
      * intros sent H. destruct (Hsent sent H) as [more [Hmore ->]].
        simpl. rewrite <- (Hlen more Hmore). lia.
    + destruct (bind_stops (_MessageReceiver_turn read)
                  (fun sent => _MessageReceiver rest ≫= fun more =>
                     mret (match sent with
                           | Some msg => msg :: more
                           | None => more
                           end)) w) as [-> [-> _]].
      { intros a. rewrite Hres. discriminate. }
      rewrite Hres, Hfin. exists [], [].
      split; [apply sublist_nil_l|]. split; [|split].
      * simpl. rewrite app_nil_r. reflexivity.
      * symmetry. apply on_this_same_buffer.
      * intros sent H. discriminate H.
Qed.

End ReceiverProperties.

(** ** [Connect]: what it returns, and the addresses it understands *)

Lemma Index_first (t rest : string) (c : ascii) :
  occurs c t = false ->
  strings.Index (t ++ String c rest) c = Z.of_nat (String.length t).
Proof.
  induction t as [|d t IH]; intros Hno.
  - rewrite CodecProperties.append_nil_l. simpl.
    rewrite Ascii.eqb_refl. reflexivity.
  - simpl in Hno. apply orb_false_elim in Hno as [Hd Ht].
    rewrite CodecProperties.append_cons. cbn [strings.Index String.length].
    rewrite Hd, (IH Ht).
    destruct (Z.of_nat (String.length t) <? 0) eqn:Hneg; lia.
Qed.

Lemma substring_prefix (t rest : string) :
  substring 0 (String.length t) (t ++ rest) = t.
Proof.
  induction t as [|d t IH].
  - simpl. destruct rest; reflexivity.
  - rewrite CodecProperties.append_cons. simpl. rewrite IH. reflexivity.
Qed.

Lemma substring_all (s : string) : substring 0 (String.length s) s = s.
Proof. induction s as [|c s IH]; simpl; [reflexivity|]. rewrite IH. reflexivity. Qed.

Lemma substring_suffix (t rest : string) :
  substring (String.length t) (String.length rest) (t ++ rest) = rest.
Proof.
  induction t as [|d t IH].
  - apply substring_all.
  - rewrite CodecProperties.append_cons. simpl. exact IH.
Qed.

Lemma Split_plain (s : string) (sep : ascii) :
  occurs sep s = false -> strings.Split s sep = [s].
Proof.
  induction s as [|c s IH]; intros Hno; simpl; [reflexivity|].
  simpl in Hno. apply orb_false_elim in Hno as [Hc Hs].
  rewrite Hc, (IH Hs). reflexivity.
Qed.

Lemma Split_first (s rest : string) (sep : ascii) :
  occurs sep s = false ->
  strings.Split (s ++ String sep rest) sep = s :: strings.Split rest sep.
Proof.
  induction s as [|c s IH]; intros Hno.
  - rewrite CodecProperties.append_nil_l. simpl.
    rewrite Ascii.eqb_refl. reflexivity.
  - simpl in Hno. apply orb_false_elim in Hno as [Hc Hs].
    rewrite CodecProperties.append_cons. cbn [strings.Split].
    rewrite Hc, (IH Hs). reflexivity.
Qed.

Lemma occurs_app (c : ascii) (s1 s2 : string) :
  occurs c (s1 ++ s2) = occurs c s1 || occurs c s2.
Proof.
  induction s1 as [|d s1 IH]; [reflexivity|].
  rewrite CodecProperties.append_cons. simpl. rewrite IH.
  apply orb_assoc.
Qed.

(** The text of one pair. *)
Lemma Split_pair (k v : string) :
  plain k = true -> plain v = true ->
  strings.Split (k ++ "=" ++ v) "=" = [k; v] /\
  occurs "," (k ++ "=" ++ v) = false.
Proof.
  unfold plain. intros Hk Hv.
  apply andb_prop in Hk as [Hk1 Hk2]. apply andb_prop in Hv as [Hv1 Hv2].
  apply negb_true_iff in Hk1, Hk2, Hv1, Hv2. split.
  - change ("=" ++ v) with (String "=" v).
    rewrite (Split_first k v "=" Hk2), (Split_plain v "=" Hv2). reflexivity.
  - rewrite !occurs_app, Hk1, Hv1. reflexivity.
Qed.

Lemma fill_pairs (kvs : list (string * string)) (m : gmap string string) :
  Forall (fun kv => plain (fst kv) = true /\ plain (snd kv) = true) kvs ->
  kvs <> [] ->
  fill_addressMap (strings.Split (format_pairs kvs) ",") m
  = Returns (fold_left (fun m kv => <[fst kv := snd kv]> m) kvs m).
Proof.
  intros Hplain. revert m.
  induction Hplain as [|[k v] rest [Hk Hv] _ IH]; intros m Hne;
    [contradiction|].
  destruct (Split_pair k v Hk Hv) as [Hsplit Hcomma]. simpl in Hk, Hv.
  destruct rest as [|kv' rest'].
  - cbn [format_pairs]. rewrite (Split_plain _ "," Hcomma).
    cbn [fill_addressMap]. rewrite Hsplit. reflexivity.
  - change (format_pairs ((k, v) :: kv' :: rest'))
      with (k ++ "=" ++ v ++ "," ++ format_pairs (kv' :: rest')).
    replace (k ++ "=" ++ v ++ "," ++ format_pairs (kv' :: rest'))
      with ((k ++ "=" ++ v) ++ String "," (format_pairs (kv' :: rest')))
      by (rewrite !CodecProperties.append_assoc; reflexivity).
    rewrite (Split_first _ _ "," Hcomma).
    cbn [fill_addressMap]. rewrite Hsplit. cbn [index nth_error mbind outcome_bind].
    simpl. apply IH. discriminate.
Qed.

Section MoreConnectProperties.

Context `{Ext : Externals} {U : Type}.
Variable dial_err : string -> string -> option error.

(** What [Connect] returns when it returns. *)
Lemma Connect_fresh environ busType (p : option (Connection U)) e :
  Connect environ dial_err busType = Returns (p, e) ->
  (p = None /\ e <> None) \/
  (e = None /\
   exists m transport a,
     p = Some {| addressMap := m; uniqName := ""; methodCallReplies := ∅;
                 signalMatchRules := [];
                 conn := Some {| network := transport; address := a;
                                 written := [] |};
                 buffer := []; proxy := None |} /\
     dial_err transport a = None /\
     (m !! "path" = Some a \/
      m !! "path" = None /\
      exists a', m !! "abstract" = Some a' /\ a = "@" ++ a')).
Proof.
  unfold Connect, net_Dial. intros H.
  destruct (bus_address environ busType) as [address|];
    [|inversion H; left; split; [reflexivity|discriminate]].
  destruct (String.length address =? 0)%nat;
    [inversion H; left; split; [reflexivity|discriminate]|].
  apply outcome_bind_Returns in H as [transport [_ H]].
  apply outcome_bind_Returns in H as [pairs [_ H]].
  apply outcome_bind_Returns in H as [m [_ H]].
  destruct (m !! "path") as [a|] eqn:Hpath.
  - destruct (dial_err transport a) eqn:Hdial; inversion H.
    + left. split; [reflexivity|discriminate].
    + right. split; [reflexivity|]. exists m, transport, a.
      split; [reflexivity|]. split; [exact Hdial|]. left. exact Hpath.
  - destruct (m !! "abstract") as [a|] eqn:Habs;
      [|inversion H; left; split; [reflexivity|discriminate]].
    destruct (dial_err transport ("@" ++ a)) eqn:Hdial; inversion H.
    + left. split; [reflexivity|discriminate].
    + right. split; [reflexivity|]. exists m, transport, ("@" ++ a).
      split; [reflexivity|]. split; [exact Hdial|]. right. eauto.
Qed.

(** X17. [Connect] returns a connection or an error, never both and
    never neither. The connection is new: no unique name, no pending
    call, no handler, no proxy, an empty buffer, and a socket on which
    nothing has been written, dialed at the [path] of the address or,
    without one, at ["@"] and its [abstract] name. *)
Theorem Connect_returns_a_new_connection_or_an_error
    environ busType (p : option (Connection U)) e :
  Connect environ dial_err busType = Returns (p, e) ->
  (p = None <-> e <> None) /\
  (forall bus, p = Some bus ->
     uniqName bus = "" /\ methodCallReplies bus = ∅ /\
     signalMatchRules bus = [] /\ buffer bus = [] /\ proxy bus = None /\
     exists c,
       conn bus = Some c /\ written c = [] /\
       dial_err (network c) (address c) = None /\
       (addressMap bus !! "path" = Some (address c) \/
        addressMap bus !! "path" = None /\
        exists a', addressMap bus !! "abstract" = Some a' /\
                   address c = "@" ++ a')).
Proof.
  intros H. apply Connect_fresh in H as [[-> He]|[-> [m [t [a [-> [Hd Ha]]]]]]].
  - split; [tauto|]. intros bus Hbus. discriminate Hbus.
  - split; [split; [discriminate|congruence]|].
    intros bus Hbus. inversion Hbus; subst bus. simpl.
    do 5 (split; [reflexivity|]). eexists. split; [reflexivity|]. simpl. auto.
Qed.

(** X18. On a connection as [Connect] returns it, before [Initialize],
    [Handle] panics for want of a proxy; by then the handler is
    registered, and nothing has been written to the bus. *)
Theorem Handle_before_Initialize_panics
    environ busType (bus : Connection U) e (u : U) (out : list string)
    (r : MatchRule) (handler : callback U) (fr : Frame (U:=U)) (env : CallEnv) :
  Connect environ dial_err busType = Returns (Some bus, e) ->
  let w := {| this := bus; mem := u; stdout := out |} in
  let run := Handle (Some r) handler fr env w in
  result run = Panics nil_dereference /\
  signalMatchRules (this (final run)) = [ {| mr := r; proc := handler |} ] /\
  conn (this (final run)) = conn bus /\
  mem (final run) = u /\
  history run = [final run].
Proof.
  intros H w run.
  apply Connect_fresh in H as [[Hn _]|[_ [m [t [a [Hbus _]]]]]];
    [discriminate Hn|].
  inversion Hbus; subst bus.
  destruct (Handle_without_proxy w r handler fr env eq_refl)
    as [Hres [Hfin Hhist]].
  subst run. rewrite Hhist, Hres, Hfin. repeat split.
Qed.

(** X19. [Connect] reads back an address written as a transport, a
    colon and pairs [key=value] with commas between them: when the
    transport holds no colon and the keys and values no comma and no
    equals sign, the address map holds every key with the last value
    given for it, and the transport and the [path] or [abstract] of
    that map are what is dialed. *)
Theorem Connect_reads_back_a_formatted_address
    environ busType (transport : string) (kvs : list (string * string)) :
  bus_address environ busType = Some (format_address transport kvs) ->
  occurs ":" transport = false ->
  kvs <> [] ->
  Forall (fun kv => plain (fst kv) = true /\ plain (snd kv) = true) kvs ->
  let m := map_of_pairs kvs in
  let dialed a :=
    match dial_err transport a with
    | Some err => Returns (None, Some err)
    | None =>
        Returns (Some (set_conn
          (Some {| network := transport; address := a; written := [] |})
          (set_addressMap m (new_Connection (U:=U)))), None)
    end in
  Connect environ dial_err busType
  = match m !! "path", m !! "abstract" with
    | Some a, _ => dialed a
    | None, Some a => dialed ("@" ++ a)
    | None, None => Returns (None, Some "Unknown address key")
    end.
Proof.
  intros Haddr Hcolon Hne Hplain m dialed.
  assert (Hindex : strings.Index (format_address transport kvs) ":"
                   = Z.of_nat (String.length transport)).
  { unfold format_address. change (":" ++ format_pairs kvs)
      with (String ":" (format_pairs kvs)).
    apply Index_first. exact Hcolon. }
  assert (Hlen : String.length (format_address transport kvs)
                 = (String.length transport + 1
                    + String.length (format_pairs kvs))%nat).
  { unfold format_address. rewrite !CodecProperties.length_append.
    simpl. lia. }
  apply (Connect_dials dial_err environ busType
           (format_address transport kvs) transport (format_pairs kvs) m).
  - exact Haddr.
  - rewrite Hlen. lia.
  - rewrite Hindex. unfold slice_to.
    destruct (_ || _) eqn:Hb.
    + apply orb_prop in Hb as [Hb|Hb]; lia.
    + rewrite Nat2Z.id. unfold format_address.
      rewrite substring_prefix. reflexivity.
  - unfold slice_from.
    destruct (_ || _) eqn:Hb.
    + apply orb_prop in Hb as [Hb|Hb]; lia.
    + replace (Z.to_nat (Z.of_nat (String.length transport) + 1))
        with (String.length (transport ++ ":"))
        by (rewrite CodecProperties.length_append; simpl; lia).
      replace (String.length (format_address transport kvs)
               - String.length (transport ++ ":"))%nat
        with (String.length (format_pairs kvs))
        by (rewrite Hlen, CodecProperties.length_append; simpl; lia).
      unfold format_address.
      rewrite <- CodecProperties.append_assoc, substring_suffix.
      reflexivity.
  - apply fill_pairs; assumption.
Qed.

End MoreConnectProperties.

(** ** Signatures *)




(** ** The scenarios, run *)

Module ScenarioRuns.

Import Examples Scenarios.

#[local] Existing Instance bus.

Lemma frame_separate : separate frame.
Proof. constructor; reflexivity. Qed.

Lemma proxy_of_the_bus : _GetProxy (Ext:=bus) = Returns bus_proxy.
Proof. vm_compute. reflexivity. Qed.


(** The catalog of the bus by name: the second interface, with the
    methods and signals of the bus. *)
Lemma InterfaceByName_on_the_bus :
  Object_InterfaceByName (Some bus_object) "org.freedesktop.DBus"
  = Some bus_proxy /\
  Object_InterfaceByName (Some bus_object) "org.example.Player" = None /\
  Object_InterfaceByName None "org.freedesktop.DBus" = None /\
  Object_Interface (Some bus_object) 1 = Returns (Some bus_proxy) /\
  Object_Interface (Some bus_object) 2 = Panics "index out of range" /\
  Object_Interface (Some bus_object) (-1) = Panics "index out of range".
Proof. vm_compute. repeat split. Qed.

Lemma Method_by_index_and_back_witness :
  iface_intro bus_proxy = Some (interface_of dbus_interface_1) /\
  _interface_NumMethod bus_proxy = Returns 15 /\
  _interface_Method bus_proxy 15 = Panics "index out of range" /\
  _interface_Method bus_proxy 3 = Returns (Some hello) /\
  (exists m, _interface_.MethodByName bus_proxy "Hello" = Returns (Some m) /\
             method_iface m = bus_proxy).
Proof.
  destruct (Method_by_index_and_back bus_proxy (interface_of dbus_interface_1)
              15 eq_refl) as [Hn [Hout _]].
  destruct (Method_by_index_and_back bus_proxy (interface_of dbus_interface_1)
              3 eq_refl) as [_ [_ Hin]].
  destruct (Hin ltac:(simpl; lia))
    as [data [m [Hnth [Hm [Hret [[m' [Hback [Hiface _]]] _]]]]]].
  vm_compute in Hnth. inversion Hnth; subst data. subst m.
  split; [reflexivity|]. split; [exact Hn|].
  split; [apply Hout; simpl; lia|]. split; [exact Hret|].
  exists m'. split; [exact Hback|exact Hiface].
Defined.

Lemma Signal_by_index_and_back_witness :
  iface_intro bus_proxy = Some (interface_of dbus_interface_1) /\
  _interface_NumSignal bus_proxy = Returns 3 /\
  _interface_Signal bus_proxy 3 = Panics "index out of range" /\
  _interface_Signal bus_proxy 1 = Returns (Some name_lost) /\
  (exists s, _interface_.SignalByName bus_proxy "NameLost" = Returns (Some s) /\
             signal_iface s = bus_proxy).
Proof.
  destruct (Signal_by_index_and_back bus_proxy (interface_of dbus_interface_1)
              3 eq_refl) as [Hn [Hout _]].
  destruct (Signal_by_index_and_back bus_proxy (interface_of dbus_interface_1)
              1 eq_refl) as [_ [_ Hin]].
  destruct (Hin ltac:(simpl; lia))
    as [data [s [Hnth [Hs [Hret [[s' [Hback [Hiface _]]] _]]]]]].
  vm_compute in Hnth. inversion Hnth; subst data. subst s.
  split; [reflexivity|]. split; [exact Hn|].
  split; [apply Hout; simpl; lia|]. split; [exact Hret|].
  exists s'. split; [exact Hback|exact Hiface].
Defined.

Lemma RunLoop_only_prints_errors_witness :
  let r := _RunLoop traffic world0 in
  forallb uncorrelated traffic = true /\
  result r = Blocks /\
  stdout (final r) = ["ERROR"; "ERROR"] /\
  this (final r) = this world0 /\ mem (final r) = mem world0.
Proof.
  intros r.
  destruct (RunLoop_only_prints_errors traffic world0 eq_refl)
    as [Hres [Hfin _]].
  split; [reflexivity|]. split; [exact Hres|].
  subst r. rewrite Hfin. repeat split.
Defined.

Lemma METHOD_RETURN_keeps_the_entry_when_the_callback_stops_witness :
  let r := _MessageDispatch (Some nothing) failing_pending in
  Type_ nothing = METHOD_RETURN /\
  methodCallReplies (this failing_pending) !! replySerial nothing = Some fails /\
  result r = Panics "callback failed" /\
  methodCallReplies (this (final r)) !! 1 = Some fails.
Proof.
  intros r.
  destruct (METHOD_RETURN_keeps_the_entry_when_the_callback_stops
              failing_pending nothing fails eq_refl eq_refl
              ltac:(intros u H; discriminate H))
    as [Hres [_ [_ Hstays]]].
  split; [reflexivity|]. split; [reflexivity|].
  split; [exact Hres|exact Hstays].
Defined.




(** A signal goes out on a connection that was never initialized, and
    the error of the write comes back. *)
Lemma Emit_on_a_broken_pipe :
  let r := Emit (Some name_lost) [VString "org.example"] (env1 []) world0 in
  result r = Returns (Some "broken pipe") /\
  length (history r) = 1%nat /\
  result (Emit (Some name_lost) [] (env1 [])
            (on_this (set_conn None) world0))
  = Panics "invalid memory address or nil pointer dereference".
Proof. vm_compute. repeat split. Qed.

Lemma Initialize_stops_when_Authenticate_fails_witness :
  let r := Initialize (Ext:=refusing) frame (env_ok []) refused in
  _GetProxy (Ext:=refusing) = Returns bus_proxy /\
  result r = Returns (Some "REJECTED") /\
  (written <$> conn (this (final r))) = Some [Byte.x00] /\
  proxy (this (final r)) = Some bus_proxy.
Proof.
  intros r.
  assert (Hp : _GetProxy (Ext:=refusing) = Returns bus_proxy)
    by (vm_compute; reflexivity).
  assert (Hc : conn (this refused) = Some (socket_of refused))
    by (vm_compute; reflexivity).
  destruct (Initialize_stops_when_Authenticate_fails (Ext:=refusing)
              frame (env_ok []) refused bus_proxy (socket_of refused)
              (conn_Write (socket_of refused) [Byte.x00] 1) "REJECTED"
              Hp Hc eq_refl) as [Hres [Hthis _]].
  split; [exact Hp|]. split; [exact Hres|].
  subst r. rewrite Hthis. split; [vm_compute; reflexivity|reflexivity].
Defined.

Lemma Initialize_says_Hello_and_returns_nil_witness :
  let r := Initialize frame
             (env_ok (traffic ++ [Some (reply1 METHOD_RETURN [VString ":1.42"])]))
             world0 in
  _interface_.MethodByName bus_proxy "Hello" = Returns (Some hello) /\
  result r = Returns None /\
  methodCallReplies (this (final r)) = ∅ /\
  uniqName (this (final r)) = "" /\
  (written <$> conn (this (final r)))
  = Some (Byte.x00 :: list_byte_of_string "Hello").
Proof.
  intros r.
  assert (Hc : conn (this world0) = Some (socket_of world0))
    by (vm_compute; reflexivity).
  assert (Hhello : _interface_.MethodByName bus_proxy "Hello"
                   = Returns (Some hello)) by (vm_compute; reflexivity).
  destruct (Initialize_says_Hello_and_returns_nil frame
              (env_ok (traffic ++ [Some (reply1 METHOD_RETURN [VString ":1.42"])]))
              world0 bus_proxy hello (socket_of world0)
              (conn_Write (socket_of world0) [Byte.x00] 1)
              traffic (reply1 METHOD_RETURN [VString ":1.42"]) []
              frame_separate proxy_of_the_bus Hhello Hc eq_refl
              eq_refl eq_refl eq_refl eq_refl)
    as [o [msg [Ho [Hmsg [_ [_ [_ [_ [_ [Hres Hthis]]]]]]]]]].
  split; [exact Hhello|]. split; [exact Hres|].
  subst r. rewrite Hthis. cbn [methodCallReplies uniqName conn].
  split; [reflexivity|]. split; [vm_compute; reflexivity|].
  inversion Ho; subst o. subst msg. vm_compute. reflexivity.
Defined.

Lemma Handle_puts_the_handler_after_the_earlier_ones_witness :
  let after := final (Handle (Some any_signal) (logs "fourth") frame
                        (env_ok []) three_handlers) in
  Type_ seeked = SIGNAL /\
  _MessageDispatch (Some seeked) after
  = invoke_all [logs "first"; logs "third"; logs "fourth"] seeked after /\
  m_log (mem (final (_MessageDispatch (Some seeked) after)))
  = ["first"; "third"; "fourth"].
Proof.
  intros after.
  pose proof (Handle_puts_the_handler_after_the_earlier_ones three_handlers
                any_signal (logs "fourth") frame (env_ok []) seeked eq_refl)
    as Hrun.
  split; [reflexivity|]. split; [exact Hrun|].
  vm_compute. reflexivity.
Defined.

Lemma Connect_returns_a_new_connection_or_an_error_witness :
  Connect (U:=Memory) session dial_ok SessionBus
  = Returns (Some connected, None) /\
  uniqName connected = "" /\ proxy connected = None /\
  (address <$> conn connected) = Some "/tmp/dbus-test" /\
  (written <$> conn connected) = Some [].
Proof.
  assert (H : Connect (U:=Memory) session dial_ok SessionBus
              = Returns (Some connected, None)) by (vm_compute; reflexivity).
  destruct (Connect_returns_a_new_connection_or_an_error dial_ok session
              SessionBus (Some connected) None H) as [_ Hnew].
  destruct (Hnew connected eq_refl)
    as [Hname [_ [_ [_ [Hproxy [c [Hc [Hw [_ Haddr]]]]]]]]].
  split; [exact H|]. split; [exact Hname|]. split; [exact Hproxy|].
  rewrite Hc. simpl. rewrite Hw. split; [|reflexivity].
  destruct Haddr as [Hpath|[Hnone _]].
  - rewrite <- Hpath. vm_compute. reflexivity.
  - vm_compute in Hnone. discriminate Hnone.
Defined.

Lemma Handle_before_Initialize_panics_witness :
  let run := Handle (Some any_signal) (logs "early") frame (env_ok [])
               world0 in
  Connect (U:=Memory) session dial_ok SessionBus
  = Returns (Some connected, None) /\
  result run = Panics "invalid memory address or nil pointer dereference" /\
  length (signalMatchRules (this (final run))) = 1%nat /\
  conn (this (final run)) = conn connected.
Proof.
  intros run.
  assert (H : Connect (U:=Memory) session dial_ok SessionBus
              = Returns (Some connected, None)) by (vm_compute; reflexivity).
  destruct (Handle_before_Initialize_panics dial_ok session SessionBus
              connected None memory0 [] any_signal (logs "early") frame
              (env_ok []) H) as [Hres [Hrules [Hconn _]]].
  split; [exact H|]. split; [exact Hres|].
  split; [exact (f_equal (@length _) Hrules)|exact Hconn].
Defined.

Lemma Connect_reads_back_a_formatted_address_witness :
  format_address "unix" pairs
  = "unix:path=/tmp/first,guid=0123,path=/tmp/second" /\
  match Connect (U:=Memory) (environ_of (format_address "unix" pairs))
          dial_ok SessionBus with
  | Returns (Some bus, None) =>
      (address <$> conn bus, addressMap bus !! "guid")
  | _ => (None, None)
  end = (Some "/tmp/second", Some "0123").
Proof.
  split; [reflexivity|].
  rewrite (Connect_reads_back_a_formatted_address (U:=Memory) dial_ok
             (environ_of (format_address "unix" pairs)) SessionBus "unix" pairs
             ltac:(vm_compute; reflexivity) eq_refl ltac:(discriminate)
             ltac:(repeat constructor)).
  vm_compute. reflexivity.
Defined.

(** The signatures of RequestName, whose directions are in small
    letters, and of a method whose argument has no direction. *)
Lemma signatures_of_RequestName :
  (methodData_.GetInSignature <$> find (fun m => String.eqb (method_Name m) "RequestName")
                                    (xml_Method dbus_interface_1)) = Some "su" /\
  (methodData_.GetOutSignature <$> find (fun m => String.eqb (method_Name m) "RequestName")
                                     (xml_Method dbus_interface_1)) = Some "u" /\
  methodData_.GetInSignature
    (mk_method "Seek" [ {| arg_Name := "to"; arg_Type := "x";
                           arg_Direction := "" |} ]) = "".
Proof. vm_compute. repeat split. Qed.

(** The receiver on a socket that delivers a message in two pieces,
    with an error on the way: the message is sent all the same. *)
Lemma receiver_across_reads :
  let r := _MessageReceiver reads world0 in
  result r = Returns [Some (blank SIGNAL 0)] /\
  buffer (this (final r)) = [Byte.x02; Byte.x01] /\
  result (_MessageReceiver closed world0) = Returns [] /\
  final (_MessageReceiver closed world0) = world0.
Proof. vm_compute. repeat split. Qed.

End ScenarioRuns.
